(** * A heuristic solver for the travelling salesman problem

    A shallow embedding of [tsp.py] and [tsp_hcs.py]: parsing of the
    coordinate file, the distance table, tours and their length, the
    swap neighbourhood and the two hill-climbing loops, followed by the
    properties the specification states about them.

    Python values are modelled as follows.
    - [int] is [Z]; loop indices produced by [range] are [nat].
    - [list] is [list], indexed as CPython does: a negative index counts
      from the end, anything else out of range raises [IndexError].
    - [dict] is stdpp's [gmap]; [str] is [string], the text being ASCII.
    - a raised exception is the [Raise] outcome of the [res] monad.
    - the numbers the code computes with (Python and numpy floats) are
      the carrier of the class [Num], with the class [Metric] for the
      arithmetic of [euclidean_distance]; the instances [float_Num] and
      [float_Metric] are IEEE binary64, the instance [xZ_Num] is exact
      integer arithmetic with an infinity, for lengths only.
    - [random.shuffle] is a parameter: a function from a generator state
      and a list to a list and the next state. *)

From Stdlib Require Import ZArith Floats.
From Stdlib Require Import Ascii String.
From stdpp Require Import base tactics option list numbers strings gmap sorting.

Local Open Scope Z_scope.

(** ** Exceptions and results *)

(** The first five are the exceptions the code can raise.  The last two
    are named by the specification only: no code path constructs them. *)
Inductive exn : Type :=
  | IndexError
  | ValueError
  | TypeError
  | KeyError
  | OverflowError
  | ParseError
  | InvalidInstanceError.

(** [Fuel] is the outcome of a [while] loop that was cut off by the
    bound the model puts on its number of turns. *)
Inductive res (A : Type) : Type :=
  | Ok (a : A)
  | Raise (e : exn)
  | Fuel.
Arguments Ok {A} a.
Arguments Raise {A} e.
Arguments Fuel {A}.

#[global] Instance res_ret : MRet res := fun A a => Ok a.
#[global] Instance res_bind : MBind res := fun A B f m =>
  match m with
  | Ok a => f a
  | Raise e => Raise e
  | Fuel => Fuel
  end.

#[global] Instance res_fmap : FMap res := fun A B f m =>
  match m with
  | Ok a => Ok (f a)
  | Raise e => Raise e
  | Fuel => Fuel
  end.

(** A [for] loop over the items [l] with loop-carried state [b]. *)
Fixpoint for_each {A B} (f : B → A → res B) (l : list A) (b : B) : res B :=
  match l with
  | [] => Ok b
  | x :: l => b' ← f b x; for_each f l b'
  end.

(** ** Python sequences *)

Section PyList.
Context {A : Type}.

(** CPython's index normalisation: [i += len] when [i < 0]. *)
Definition py_norm (n : nat) (k : Z) : option nat :=
  let k' := if bool_decide (k < 0) then k + Z.of_nat n else k in
  if bool_decide (0 ≤ k' < Z.of_nat n) then Some (Z.to_nat k') else None.

(** [l[k]] *)
Definition py_get (l : list A) (k : Z) : res A :=
  match py_norm (length l) k with
  | Some i => match l !! i with Some x => Ok x | None => Raise IndexError end
  | None => Raise IndexError
  end.

(** [l[k] = x] *)
Definition py_set (l : list A) (k : Z) (x : A) : res (list A) :=
  match py_norm (length l) k with
  | Some i => Ok (<[i:=x]> l)
  | None => Raise IndexError
  end.

Definition py_at (l : list A) (i : nat) : res A := py_get l (Z.of_nat i).
End PyList.

(** [range(a, b)] for indices. *)
Definition range (a b : nat) : list nat := seq a (b - a).

(** ** Numbers *)

(** The numbers of tours and their lengths. *)
Class Num (D : Type) : Type := {
  zero : D;                 (* the int [0] and the entries of [np.zeros] *)
  inf : D;                  (* [float('inf')] *)
  add : D → D → D;
  ltb : D → D → bool;       (* [<] *)
}.

(** The arithmetic of [euclidean_distance] on coordinates. *)
Class Metric (D : Type) : Type := {
  sub : D → D → D;
  pow2 : D → option D;      (* [x ** 2]; [None] is [OverflowError] *)
  sqrt : D → D;             (* [np.sqrt] *)
}.

(** IEEE binary64, the numbers of the running program. *)
#[global] Instance float_Num : Num float := {|
  zero := 0%float;
  inf := infinity;
  add := PrimFloat.add;
  ltb := PrimFloat.ltb;
|}.

(** [x ** 2] on a Python float, as CPython's [float_pow] computes it for
    the exponent 2: a NaN is returned as it is, an infinity gives
    [inf], a zero gives [0.0] and [±1.0] gives [1.0]; every other
    argument goes, without its sign, to the [pow] of the C library, and
    an infinite result there is reported as [OverflowError].  The
    library function is the parameter [c_pow2]: its rounding depends on
    the platform. *)
Definition float_pow2 (c_pow2 : float → float) (x : float) : option float :=
  if PrimFloat.is_nan x then Some x
  else if PrimFloat.is_infinity x then Some infinity
  else if PrimFloat.eqb x 0 then Some 0%float
  else
    let v := PrimFloat.abs x in
    if PrimFloat.eqb v 1 then Some 1%float
    else
      let r := c_pow2 v in
      if PrimFloat.is_infinity r then None else Some r.

Definition float_Metric_with (c_pow2 : float → float) : Metric float := {|
  sub := PrimFloat.sub;
  pow2 := float_pow2 c_pow2;
  sqrt := PrimFloat.sqrt;
|}.

(** A C library whose [pow(x, 2.0)] is the correctly rounded square.
    glibc's stays within one unit in the last place of it; the two agree
    wherever the square is exact or overflows, as in the examples of this
    file. *)
Definition rounded_pow2 (x : float) : float := PrimFloat.mul x x.

#[global] Instance float_Metric : Metric float := float_Metric_with rounded_pow2.

(** Exact integers with an infinity: lengths that add up without
    rounding.  The type has no [Metric] instance: distances are computed
    on floats only. *)
Inductive xZ : Type :=
  | Fin (z : Z)
  | PInf.

Definition xZ_add (a b : xZ) : xZ :=
  match a, b with Fin x, Fin y => Fin (x + y) | _, _ => PInf end.
Definition xZ_ltb (a b : xZ) : bool :=
  match a, b with
  | Fin x, Fin y => bool_decide (x < y)
  | Fin _, PInf => true
  | PInf, _ => false
  end.

#[global] Instance xZ_Num : Num xZ := {|
  zero := Fin 0;
  inf := PInf;
  add := xZ_add;
  ltb := xZ_ltb;
|}.

(** ** Tours *)

Section Tour.
Context {D : Type} `{!Num D}.

(** [distance_matrix[a][b]] *)
Definition entry (M : list (list D)) (a b : Z) : res D :=
  row ← py_get M a; py_get row b.

(** [route_length(current_solution, distance_matrix)] *)
Definition route_length (current_solution : list Z) (M : list (list D)) : res D :=
  acc ← for_each (fun acc i =>
           a ← py_at current_solution i;
           b ← py_at current_solution (i + 1)%nat;
           d ← entry M (a - 1) (b - 1);
           Ok (add acc d))
         (range 0 (length current_solution - 1)) zero;
  a ← py_get current_solution (-1);
  b ← py_get current_solution 0;
  d ← entry M (a - 1) (b - 1);
  Ok (add acc d).
End Tour.

(** ** The distance table *)

Section Distance.
Context {D : Type} `{!Num D, !Metric D}.

(** [x ** 2] *)
Definition py_pow2 (x : D) : res D :=
  match pow2 x with Some y => Ok y | None => Raise OverflowError end.

(** [euclidean_distance(n1, n2)] *)
Definition euclidean_distance (n1 n2 : D * D) : res D :=
  dx ← py_pow2 (sub n1.1 n2.1);
  dy ← py_pow2 (sub n1.2 n2.2);
  Ok (sqrt (add dx dy)).

(** [matrix[i][j] = x] on a two-dimensional array. *)
Definition set_entry (matrix : list (list D)) (i j : nat) (x : D)
    : res (list (list D)) :=
  row ← py_at matrix i;
  row ← py_set row (Z.of_nat j) x;
  py_set matrix (Z.of_nat i) row.

(** The body of [distance_matrix(coords_list)] for the function [dist]
    that the global name [euclidean_distance] is bound to when the loops
    run.  The callee may have effects of its own: it works on a state
    [S], which the loops hand from one call to the next and do not
    touch. *)
Definition distance_matrix_with {S : Type}
    (dist : D * D → D * D → S → res (D * S))
    (coords_list : list (D * D)) (s : S) : res (list (list D) * S) :=
  let n := length coords_list in
  let matrix := replicate n (replicate n zero) in
  for_each (fun '(matrix, s) i =>
      for_each (fun '(matrix, s) j =>
          ci ← py_at coords_list i;
          cj ← py_at coords_list j;
          '(distance, s) ← dist ci cj s;
          matrix ← set_entry matrix i j distance;
          matrix ← set_entry matrix j i distance;
          Ok (matrix, s))
        (range (i + 1) n) (matrix, s))
    (range 0 n) (matrix, s).

(** A callee without effects. *)
Definition pure_call (f : D * D → D * D → res D) (n1 n2 : D * D) (s : unit)
    : res (D * unit) :=
  d ← f n1 n2; Ok (d, s).

(** [distance_matrix(coords_list)] *)
Definition distance_matrix (coords_list : list (D * D)) : res (list (list D)) :=
  '(matrix, _) ← distance_matrix_with (pure_call euclidean_distance) coords_list tt;
  Ok matrix.
End Distance.

(** [get_neighbors(current_solution)]: every neighbour is a copy of the
    tour on which two places are exchanged by a tuple assignment (the
    right-hand side is read first, then position [i] and position [j]
    are written). *)
Definition swap_at (current_solution : list Z) (i j : nat) : res (list Z) :=
  let neighbor := current_solution in
  x ← py_at neighbor j;
  y ← py_at neighbor i;
  neighbor ← py_set neighbor (Z.of_nat i) x;
  py_set neighbor (Z.of_nat j) y.

Definition get_neighbors (current_solution : list Z) : res (list (list Z)) :=
  for_each (fun neighbors i =>
      for_each (fun neighbors j =>
          neighbor ← swap_at current_solution i j;
          Ok (neighbors ++ [neighbor]))
        (range (i + 1) (length current_solution)) neighbors)
    (range 0 (length current_solution)) [].

(** ** The swap neighbourhood, as the specification words it *)

(** The position pairs [(i, j)] with [i < j < n], in lexicographic order. *)
Definition position_pairs (n : nat) : list (nat * nat) :=
  i ← range 0 n; pair i <$> range (i + 1) n.

(** The tour with the cities at positions [p.1] and [p.2] exchanged. *)
Definition swapped (T : list Z) (p : nat * nat) : list Z :=
  match T !! p.1, T !! p.2 with
  | Some x, Some y => <[p.2:=x]> (<[p.1:=y]> T)
  | _, _ => T
  end.

(** The transposition of the positions [i] and [j]. *)
Definition transpose (i j k : nat) : nat :=
  if decide (k = i) then j else if decide (k = j) then i else k.

(** ** Lists as objects

    [get_neighbors] copies the tour and writes to the copy.  To see that
    the writes never reach the argument, the same function is given once
    more over a store of list objects: a variable holds a reference, the
    [copy] method allocates, item assignment updates the object in place. *)

Definition ref := nat.
Abbreviation store := (gmap ref (list Z)).

Definition load (h : store) (r : ref) : res (list Z) :=
  match h !! r with Some l => Ok l | None => Raise TypeError end.

(** [len(r)] *)
Definition len (h : store) (r : ref) : res nat :=
  l ← load h r; Ok (length l).

(** [r.copy()] *)
Definition copy (h : store) (r : ref) : res (ref * store) :=
  l ← load h r;
  let r' := fresh (dom h) in
  Ok (r', <[r':=l]> h).

(** [r[k]] *)
Definition getitem (h : store) (r : ref) (k : Z) : res Z :=
  l ← load h r; py_get l k.

(** [r[k] = x] *)
Definition setitem (h : store) (r : ref) (k : Z) (x : Z) : res store :=
  l ← load h r;
  l' ← py_set l k x;
  Ok (<[r:=l']> h).

Definition swap_at_ref (h : store) (current_solution : ref) (i j : nat)
    : res (ref * store) :=
  '(neighbor, h) ← copy h current_solution;
  x ← getitem h neighbor (Z.of_nat j);
  y ← getitem h neighbor (Z.of_nat i);
  h ← setitem h neighbor (Z.of_nat i) x;
  h ← setitem h neighbor (Z.of_nat j) y;
  Ok (neighbor, h).

Definition get_neighbors_ref (h : store) (current_solution : ref)
    : res (list ref * store) :=
  n ← len h current_solution;
  for_each (fun '(neighbors, h) i =>
      m ← len h current_solution;
      for_each (fun '(neighbors, h) j =>
          '(neighbor, h) ← swap_at_ref h current_solution i j;
          Ok (neighbors ++ [neighbor], h))
        (range (i + 1) m) (neighbors, h))
    (range 0 n) ([], h).

(** The lists a sequence of references denotes in a store. *)
Definition deref (h : store) (rs : list ref) : list (option (list Z)) :=
  (fun r => h !! r) <$> rs.

(** ** Route length, as the specification words it *)

Section TourSpec.
Context {D : Type} `{!Num D}.

(** The entry in row [i] and column [j] of a table, if there is one. *)
Definition cell (M : list (list D)) (i j : nat) : option D :=
  row ← M !! i; row !! j.

(** An [N] by [N] table. *)
Definition table (N : nat) (M : list (list D)) : Prop :=
  length M = N ∧ Forall (fun row => length row = N) M.

(** A table that equals its transpose. *)
Definition symmetric (M : list (list D)) : Prop :=
  ∀ i j, cell M i j = cell M j i.

(** The distance between the cities [a] and [b]; the city with the
    identifier [c] has the rank [c - 1]. *)
Definition dist (M : list (list D)) (a b : Z) : D :=
  default zero (cell M (Z.to_nat (a - 1)) (Z.to_nat (b - 1))).

(** The pairs of cities at consecutive positions of a tour. *)
Fixpoint path (T : list Z) : list (Z * Z) :=
  match T with
  | a :: (b :: _) as T' => (a, b) :: path T'
  | _ => []
  end.

(** The distances between consecutive positions, summed from the left,
    plus the distance from the last city back to the first. *)
Definition route_length_spec (T : list Z) (M : list (list D)) : D :=
  match last T, head T with
  | Some z, Some a =>
      add (foldl add zero ((fun e => dist M e.1 e.2) <$> path T)) (dist M z a)
  | _, _ => zero
  end.
End TourSpec.

(** ** The distance table, as the specification words it *)

Section DistanceSpec.
Context {D : Type} `{!Num D}.

(** The [n] by [n] table whose entry [(a, b)] is [f a b]. *)
Definition mat (n : nat) (f : nat → nat → D) : list (list D) :=
  (fun a => f a <$> seq 0 n) <$> seq 0 n.

Definition coord (coords : list (D * D)) (i : nat) : D * D :=
  default (zero, zero) (coords !! i).

(** The entries once the distances [v i j] of the pairs [calls] are
    filled in, each at its place in the upper triangle and at the
    mirrored place. *)
Definition fill (v : nat → nat → D) (calls : list (nat * nat)) (a b : nat) : D :=
  if bool_decide ((a `min` b, a `max` b)%nat ∈ calls)
  then v (a `min` b)%nat (a `max` b)%nat
  else zero.

(** One call of [dist] for each of [pairs], in their order, each on the
    state the call before it left. *)
Definition call_all {S : Type} (dist : D * D → D * D → S → res (D * S))
    (coords : list (D * D)) (pairs : list (nat * nat)) (s : S) : res (list D * S) :=
  for_each (fun '(ds, s) '(i, j) =>
      '(d, s) ← dist (coord coords i) (coord coords j) s;
      Ok (ds ++ [d], s))
    pairs ([], s).

(** A callee that counts its calls. *)
Definition counted (f : D * D → D * D → res D) (n1 n2 : D * D) (k : nat)
    : res (D * nat) :=
  d ← f n1 n2; Ok (d, S k).
End DistanceSpec.

(** ** Search *)

Section Search.
Context {D : Type} `{!Num D}.
(** The generator behind [random.shuffle]: its states, and the shuffled
    list and next state for a state and a list. *)
Context {G : Type} (shuffle : G → list Z → list Z * G).

(** [random_solution(nodes_list)] *)
Definition random_solution (g : G) (nodes_list : gmap Z (D * D)) : list Z * G :=
  let cities := Z.of_nat <$> seq 1 (size nodes_list) in
  shuffle g cities.

(** [get_best_neighbor(neighbors, distance_matrix)] *)
Definition get_best_neighbor (neighbors : list (list Z)) (M : list (list D))
    : res (list Z * D) :=
  best_neighbor ← py_get neighbors 0;
  best_route_length ← route_length best_neighbor M;
  for_each (fun '(best_neighbor, best_route_length) neighbor =>
      current_route_length ← route_length neighbor M;
      if ltb current_route_length best_route_length
      then Ok (neighbor, current_route_length)
      else Ok (best_neighbor, best_route_length))
    neighbors (best_neighbor, best_route_length).
End Search.

(** *** [tsp.py]: one restart and one full climb per iteration *)

Module Tsp.
Section HillClimbing.
Context {D : Type} `{!Num D}.
Context {G : Type} (shuffle : G → list Z → list Z * G).

(** The variables that live across the iterations of [hill_climbing]. *)
Record state : Type := State {
  best_solution : option (list Z);
  best_route_lengths : list D;
  best_route_length : D;
  no_improvement_count : Z;
  gen : G;
}.

(** The [while flag] loop, cut off after [fuel] turns. *)
Fixpoint climb (fuel : nat) (M : list (list D))
    (current_solution : list Z) (current_route_length : D)
    (best_neighbor : list Z) (best_neighbor_length : D)
    (no_improvement_count : Z) : res (list Z * D * Z) :=
  match fuel with
  | O => Fuel
  | S fuel =>
      if ltb best_neighbor_length current_route_length then
        let current_route_length := best_neighbor_length in
        let current_solution := best_neighbor in
        neighbors ← get_neighbors current_solution;
        '(best_neighbor, best_neighbor_length) ← get_best_neighbor neighbors M;
        climb fuel M current_solution current_route_length
          best_neighbor best_neighbor_length 0
      else Ok (current_solution, current_route_length, no_improvement_count + 1)
  end.

(** The body of [for _ in range(iterations)]. *)
Definition iteration (fuel : nat) (city_list : gmap Z (D * D))
    (M : list (list D)) (restart_threshold : Z) (s : state) : res state :=
  '(current_solution, current_route_length, no_improvement_count, g) ←
    (if bool_decide (restart_threshold ≤ no_improvement_count s) then
       let '(current_solution, g) := random_solution shuffle (gen s) city_list in
       current_route_length ← route_length current_solution M;
       Ok (current_solution, current_route_length, 0, g)
     else
       let '(current_solution, g) := random_solution shuffle (gen s) city_list in
       current_route_length ← route_length current_solution M;
       Ok (current_solution, current_route_length, no_improvement_count s, g));
  neighbors ← get_neighbors current_solution;
  '(best_neighbor, best_neighbor_length) ← get_best_neighbor neighbors M;
  '(current_solution, current_route_length, no_improvement_count) ←
    climb fuel M current_solution current_route_length
      best_neighbor best_neighbor_length no_improvement_count;
  let '(best_route_length, best_solution) :=
    if ltb current_route_length (best_route_length s)
    then (current_route_length, Some current_solution)
    else (best_route_length s, best_solution s) in
  Ok {| best_solution := best_solution;
        best_route_lengths := best_route_lengths s ++ [best_route_length];
        best_route_length := best_route_length;
        no_improvement_count := no_improvement_count;
        gen := g |}.

Definition init (g : G) : state :=
  {| best_solution := None;
     best_route_lengths := [];
     best_route_length := inf;
     no_improvement_count := 0;
     gen := g |}.

(** [hill_climbing(city_list, distance_matrix, iterations, restart_threshold)];
    the last component is the generator state the call leaves behind. *)
Definition hill_climbing (fuel : nat) (g : G) (city_list : gmap Z (D * D))
    (M : list (list D)) (iterations restart_threshold : Z)
    : res (option (list Z) * D * list D * G) :=
  s ← for_each (fun s _ => iteration fuel city_list M restart_threshold s)
        (range 0 (Z.to_nat iterations)) (init g);
  Ok (best_solution s, best_route_length s, best_route_lengths s, gen s).
End HillClimbing.
End Tsp.

(** *** [tsp_hcs.py]: one move per iteration *)

Module TspHcs.
Section HillClimbing.
Context {D : Type} `{!Num D}.
Context {G : Type} (shuffle : G → list Z → list Z * G).

Record state : Type := State {
  best_solution : option (list Z);
  best_route_length : D;
  best_route_lengths : list D;
  no_improvement_count : Z;
  current_solution : list Z;
  current_route_length : D;
  gen : G;
}.

(** The body of [for _ in range(iterations)]. *)
Definition iteration (city_list : gmap Z (D * D)) (M : list (list D))
    (restart_threshold : Z) (s : state) : res state :=
  neighbors ← get_neighbors (current_solution s);
  '(best_neighbor, best_neighbor_length) ← get_best_neighbor neighbors M;
  let '(current_route_length, current_solution, no_improvement_count) :=
    if ltb best_neighbor_length (current_route_length s)
    then (best_neighbor_length, best_neighbor, 0)
    else (current_route_length s, current_solution s, no_improvement_count s + 1) in
  let '(best_route_length, best_solution) :=
    if ltb current_route_length (best_route_length s)
    then (current_route_length, Some current_solution)
    else (best_route_length s, best_solution s) in
  '(current_solution, current_route_length, no_improvement_count, g) ←
    (if bool_decide (restart_threshold ≤ no_improvement_count) then
       let '(current_solution, g) := random_solution shuffle (gen s) city_list in
       current_route_length ← route_length current_solution M;
       Ok (current_solution, current_route_length, 0, g)
     else Ok (current_solution, current_route_length, no_improvement_count, gen s));
  Ok {| best_solution := best_solution;
        best_route_length := best_route_length;
        best_route_lengths := best_route_lengths s ++ [best_route_length];
        no_improvement_count := no_improvement_count;
        current_solution := current_solution;
        current_route_length := current_route_length;
        gen := g |}.

(** The state on entry to the loop. *)
Definition init (g : G) (city_list : gmap Z (D * D)) (M : list (list D))
    : res state :=
  let '(current_solution, g) := random_solution shuffle g city_list in
  current_route_length ← route_length current_solution M;
  Ok {| best_solution := None;
        best_route_length := inf;
        best_route_lengths := [];
        no_improvement_count := 0;
        current_solution := current_solution;
        current_route_length := current_route_length;
        gen := g |}.

Definition hill_climbing (g : G) (city_list : gmap Z (D * D))
    (M : list (list D)) (iterations restart_threshold : Z)
    : res (option (list Z) * D * list D * G) :=
  s ← init g city_list M;
  s ← for_each (fun s _ => iteration city_list M restart_threshold s)
        (range 0 (Z.to_nat iterations)) s;
  Ok (best_solution s, best_route_length s, best_route_lengths s, gen s).
End HillClimbing.
End TspHcs.

(** ** Search, as the specification words it *)

(** A tour over [N] cities: a permutation of the identifiers [1..N]. *)
Definition tour (N : nat) (T : list Z) : Prop := T ≡ₚ Z.of_nat <$> seq 1 N.

Section TrajectorySpec.
Context {D : Type} `{!Num D}.

(** Each entry is equal to or strictly less than the entry before it. *)
Definition nonincreasing (l : list D) : Prop :=
  ∀ i a b, l !! i = Some a → l !! S i = Some b → b = a ∨ ltb b a = true.
End TrajectorySpec.

(** The stagnation counter after the move of one iteration: back to [0]
    when the best neighbour was adopted, one more otherwise. *)
Definition counter_after (improved : bool) (count : Z) : Z :=
  if improved then 0 else count + 1.

(** ** Reading the coordinate file *)

(** [c.isspace()] on ASCII. *)
Definition is_space (c : ascii) : bool :=
  let n := nat_of_ascii c in
  bool_decide (9 ≤ n ≤ 13 ∨ 28 ≤ n ≤ 32)%nat.

Fixpoint lstrip (cs : list ascii) : list ascii :=
  match cs with
  | c :: cs' => if is_space c then lstrip cs' else cs
  | [] => []
  end.

(** [s.strip()] *)
Definition strip (s : string) : string :=
  string_of_list_ascii
    (reverse (lstrip (reverse (lstrip (list_ascii_of_string s))))).

(** The fields of [cs]; [tok] holds the field being read, last character
    first. *)
Fixpoint split_go (cs : list ascii) (tok : list ascii) : list string :=
  match cs with
  | [] =>
      match tok with
      | [] => []
      | _ => [string_of_list_ascii (reverse tok)]
      end
  | c :: cs =>
      if is_space c then
        match tok with
        | [] => split_go cs []
        | _ => string_of_list_ascii (reverse tok) :: split_go cs []
        end
      else split_go cs (c :: tok)
  end.

(** [s.split()] *)
Definition split (s : string) : list string :=
  split_go (list_ascii_of_string s) [].

(** [line.startswith(p)] *)
Definition startswith (line p : string) : bool := String.prefix p line.

Section Reading.
Context {D : Type} `{!Num D}.
(** The builtins [int] and [float] on strings; [None] is [ValueError]. *)
Context (py_int : string → option Z) (py_float : string → option D).

(** [int(s)] and [float(s)] *)
Definition int_of (s : string) : res Z :=
  match py_int s with Some z => Ok z | None => Raise ValueError end.

Definition float_of (s : string) : res D :=
  match py_float s with Some x => Ok x | None => Raise ValueError end.

(** The body of [if flag:], up to the assignment to the dictionary. *)
Definition read_city (line : string) : res (Z * (D * D)) :=
  let temp := split (strip line) in
  t ← py_get temp 0;
  city_id ← int_of t;
  t ← py_get temp 1;
  x ← float_of t;
  t ← py_get temp 2;
  y ← float_of t;
  Ok (city_id, (x, y)).

(** The loop [for line in lines] of [read_tsp]. *)
Fixpoint read_lines (lines : list string) (flag : bool)
    (city_list : gmap Z (D * D)) : res (gmap Z (D * D)) :=
  match lines with
  | [] => Ok city_list
  | line :: lines =>
      if startswith line "NODE_COORD_SECTION" then read_lines lines true city_list
      else if startswith line "EOF" then Ok city_list
      else if flag then
        '(city_id, xy) ← read_city line;
        read_lines lines flag (<[city_id:=xy]> city_list)
      else read_lines lines flag city_list
  end.

(** [read_tsp(x)], on the lines [file.readlines()] returns for [x]. *)
Definition read_tsp (lines : list string) : res (gmap Z (D * D)) :=
  read_lines lines false ∅.
End Reading.

(** ** The program [tsp.py] *)

Section Main.
Context {D : Type} `{!Num D, !Metric D}.
Context (py_int : string → option Z) (py_float : string → option D).
Context {G : Type} (shuffle : G → list Z → list Z * G).

(** What a run leaves behind: the usage message, or the printed best
    length, the rows of [solution.csv] and the plotted series. *)
Inductive output : Type :=
  | Usage
  | Report (best_route_length : D) (solution : list Z) (plot : list D).

(** [d[k]] *)
Definition dict_get (d : gmap Z (D * D)) (k : Z) : res (D * D) :=
  match d !! k with Some v => Ok v | None => Raise KeyError end.

(** [sorted(d)] *)
Definition sorted_keys (d : gmap Z (D * D)) : list Z :=
  merge_sort Z.le (elements (dom d)).

(** [main()], for the arguments [argv], the lines [files x] of each file
    [x], and the generator state [g]. *)
Definition main (fuel : nat) (argv : list string) (files : string → list string)
    (g : G) : res output :=
  if bool_decide (length argv ≠ 2%nat) then Ok Usage else
  tsp_file ← py_get argv 1;
  city_list ← read_tsp py_int py_float (files tsp_file);
  coords_list ← for_each (fun coords city =>
                    c ← dict_get city_list city; Ok (coords ++ [c]))
                  (sorted_keys city_list) [];
  dist_matrix ← distance_matrix coords_list;
  '(best_solution, best_route_length, best_route_lengths, _) ←
    Tsp.hill_climbing shuffle fuel g city_list dist_matrix 1000 10;
  solution ← match best_solution with
             | Some cities => Ok cities
             | None => Raise TypeError
             end;
  Ok (Report best_route_length solution best_route_lengths).
End Main.

(** *** Plain decimal literals

    A fragment of what [int] and [float] read, for the concrete files
    below: an optional sign and decimal digits, with at most one point
    for [float].  The theorems take the two builtins as parameters; a
    literal outside the fragment (an exponent, [inf], [nan], underscores,
    surrounding blanks) is refused by these stand-ins though the builtins
    read it. *)

Definition digit (c : ascii) : option Z :=
  let n := nat_of_ascii c in
  if bool_decide (48 ≤ n ≤ 57)%nat then Some (Z.of_nat n - 48) else None.

Fixpoint digits (cs : list ascii) (acc : Z) : option Z :=
  match cs with
  | [] => Some acc
  | c :: cs => d ← digit c; digits cs (10 * acc + d)
  end.

Definition unsigned (cs : list ascii) : option Z :=
  match cs with [] => None | _ => digits cs 0 end.

Definition signed {A} (f : list ascii → option A) (neg : A → A) (s : string)
    : option A :=
  match list_ascii_of_string s with
  | "-"%char :: cs => neg <$> f cs
  | "+"%char :: cs => f cs
  | cs => f cs
  end.

Definition dec_int (s : string) : option Z := signed unsigned Z.opp s.

(** The digits before and after the point, as one number and a scale. *)
Fixpoint dec_fraction (cs : list ascii) (acc : Z) (scale : option Z)
    : option (Z * Z) :=
  match cs with
  | [] => Some (acc, default 1 scale)
  | c :: cs =>
      if bool_decide (c = "."%char) then
        match scale with
        | None => dec_fraction cs acc (Some 1)
        | Some _ => None
        end
      else
        d ← digit c;
        dec_fraction cs (10 * acc + d) ((fun k => 10 * k) <$> scale)
  end.

Definition float_of_Z (z : Z) : PrimFloat.float :=
  PrimFloat.of_uint63 (Uint63.of_Z z).

(** The digits [m] and the scale [k] are kept to [m < 2^53] and
    [k ≤ 10^18]: both are then binary64 numbers and their quotient is
    the literal's value rounded once, which is what [float] returns.
    Longer literals are outside the fragment. *)
Definition dec_float (s : string) : option PrimFloat.float :=
  signed (fun cs =>
      match cs with
      | [] | ["."%char] => None
      | _ => '(m, k) ← dec_fraction cs 0 None;
             if bool_decide (m < 2 ^ 53 ∧ k ≤ 10 ^ 18)
             then Some (PrimFloat.div (float_of_Z m) (float_of_Z k))
             else None
      end) PrimFloat.opp s.

(** A line of a file, with its newline. *)
Definition ln (s : string) : string := s +:+ String "010"%char EmptyString.

(** ** Auxiliary notions of the proofs *)

(** The references [rs] were allocated after [h0] and denote [nbs] in [h1],
    which still holds every object of [h0] as it was. *)
Definition tracks (h0 h1 : store) (rs : list ref) (nbs : list (list Z)) : Prop :=
  h0 ⊆ h1 ∧ NoDup rs ∧ Forall (fun r => r ∉ dom h0) rs ∧ deref h1 rs = Some <$> nbs.

Section Auxiliary.
Context {D : Type} `{!Num D}.
Context {G : Type} (shuffle : G → list Z → list Z * G).
Context (N : nat) (city_list : gmap Z (D * D)) (M : list (list D)).

(** The edge of the table the code reads for the cities [e.1], [e.2]. *)
Definition edge M (e : Z * Z) : res D := entry M (e.1 - 1) (e.2 - 1).

Definition add_edge M (acc : D) (e : Z * Z) : res D :=
  d ← edge M e; Ok (add acc d).

(** The value of an edge, [zero] standing in where the code raises. *)
Definition edge_or M (e : Z * Z) : D :=
  match edge M e with Ok d => d | _ => zero end.

(** The state [TspHcs.iteration] moves to, given the best neighbour. *)
Definition hcs_next (restart_threshold : Z) (s : TspHcs.state) (bn : list Z)
    : TspHcs.state :=
  let bnl := route_length_spec bn M in
  let improved := ltb bnl (TspHcs.current_route_length s) in
  let count := if improved then 0 else TspHcs.no_improvement_count s + 1 in
  let cur := if improved then bn else TspHcs.current_solution s in
  let len := if improved then bnl else TspHcs.current_route_length s in
  let better := ltb len (TspHcs.best_route_length s) in
  let best := if better then len else TspHcs.best_route_length s in
  let restart := bool_decide (restart_threshold ≤ count) in
  let fresh := random_solution shuffle (TspHcs.gen s) city_list in
  {| TspHcs.best_solution := if better then Some cur else TspHcs.best_solution s;
     TspHcs.best_route_length := best;
     TspHcs.best_route_lengths := TspHcs.best_route_lengths s ++ [best];
     TspHcs.no_improvement_count := if restart then 0 else count;
     TspHcs.current_solution := if restart then fresh.1 else cur;
     TspHcs.current_route_length :=
       if restart then route_length_spec fresh.1 M else len;
     TspHcs.gen := if restart then fresh.2 else TspHcs.gen s |}.

(** The tours strictly shorter than [x]: the climb can only move among
    them, and each move leaves fewer. *)
Definition shorter (x : D) : list (list Z) :=
  filter (fun p => ltb (route_length_spec p M) x = true)
    (permutations (Z.of_nat <$> seq 1 N)).

(** What [hill_climbing] returns of a state: all but the counter. *)
Definition observe (s : Tsp.state) : option (list Z) * D * list D * G :=
  (Tsp.best_solution s, Tsp.best_route_length s, Tsp.best_route_lengths s, Tsp.gen s).

End Auxiliary.

(** Two outcomes of the same kind: two results that [R] relates, the
    same exception, or both cut off. *)
Definition res_rel {A B : Type} (R : A → B → Prop) (x : res A) (y : res B) : Prop :=
  match x, y with
  | Ok a, Ok b => R a b
  | Raise e, Raise e' => e = e'
  | Fuel, Fuel => True
  | _, _ => False
  end.

(** *** Instances for the examples *)

(** A generator that reverses the list and counts its calls. *)
Definition reverse_shuffle (g : nat) (l : list Z) : list Z * nat := (reverse l, S g).

Definition cities3 : gmap Z (xZ * xZ) :=
  <[1:=(Fin 0, Fin 0)]> (<[2:=(Fin 3, Fin 0)]> (<[3:=(Fin 0, Fin 4)]> ∅)).

Definition table3 : list (list xZ) :=
  [[Fin 0; Fin 3; Fin 4]; [Fin 3; Fin 0; Fin 5]; [Fin 4; Fin 5; Fin 0]].


(** ** Random search and the program [tsp_hcs.py] *)

Section RandomSearch.
Context {D : Type} `{!Num D}.
Context {G : Type} (shuffle : G → list Z → list Z * G).

(** [random_search(city_list, distance_matrix, iterations)]; the last
    component is the generator state the call leaves behind. *)
Definition random_search (g : G) (city_list : gmap Z (D * D))
    (M : list (list D)) (iterations : Z) : res (D * list D * G) :=
  for_each (fun '(best_route_length, best_route_lengths, g) _ =>
      let '(current_solution, g) := random_solution shuffle g city_list in
      current_route_length ← route_length current_solution M;
      let best_route_length :=
        if ltb current_route_length best_route_length
        then current_route_length else best_route_length in
      Ok (best_route_length, best_route_lengths ++ [best_route_length], g))
    (range 0 (Z.to_nat iterations)) (inf, [], g).
End RandomSearch.

(** The results of consecutive calls of [call], each on the generator
    state the call before it returned: from [g] the calls return [rs],
    in this order, and leave [g']. *)
Inductive chained {G R : Type} (call : G → res (R * G)) : G → list R → G → Prop :=
  | chained_nil g : chained call g [] g
  | chained_cons g r g1 rs g2 :
      call g = Ok (r, g1) → chained call g1 rs g2 → chained call g (r :: rs) g2.

Module TspHcsMain.
Section Main.
Context {D : Type} `{!Num D, !Metric D}.
Context (py_int : string → option Z) (py_float : string → option D).
Context {G : Type} (shuffle : G → list Z → list Z * G).
(** [np.mean(rows, axis=0)] *)
Context (np_mean : list (list D) → list D).

(** What a run leaves behind: the usage message, or the printed best
    length, the rows of [solution.csv] and the two plotted series. *)
Inductive output : Type :=
  | Usage
  | Report (best_route_length : D) (solution : list Z)
      (average_hc_route_lengths average_random_route_lengths : list D).

(** The loop [for i in range(runs)] over [hill_climbing]. *)
Definition climb_runs (runs iterations : Z) (city_list : gmap Z (D * D))
    (dist_matrix : list (list D)) (g : G)
    : res (list (list D) * option (list Z) * D * G) :=
  for_each (fun '(hill_climb_lengths, best_solution, best_route_length, g) _ =>
      '(solution, route_length, route_lengths, g) ←
        TspHcs.hill_climbing shuffle g city_list dist_matrix iterations 10;
      let hill_climb_lengths := hill_climb_lengths ++ [route_lengths] in
      if ltb route_length best_route_length
      then Ok (hill_climb_lengths, solution, route_length, g)
      else Ok (hill_climb_lengths, best_solution, best_route_length, g))
    (range 0 (Z.to_nat runs)) ([], None, inf, g).

(** The loop [for i in range(runs)] over [random_search]. *)
Definition search_runs (runs iterations : Z) (city_list : gmap Z (D * D))
    (dist_matrix : list (list D)) (g : G) : res (list (list D) * G) :=
  for_each (fun '(random_route_lengths, g) _ =>
      '(_, best_route_lengths, g) ←
        random_search shuffle g city_list dist_matrix iterations;
      Ok (random_route_lengths ++ [best_route_lengths], g))
    (range 0 (Z.to_nat runs)) ([], g).

(** [main()] of [tsp_hcs.py]. *)
Definition main (argv : list string) (files : string → list string) (g : G)
    : res output :=
  if bool_decide (length argv ≠ 2%nat) then Ok Usage else
  tsp_file ← py_get argv 1;
  city_list ← read_tsp py_int py_float (files tsp_file);
  coords_list ← for_each (fun coords city =>
                    c ← dict_get city_list city; Ok (coords ++ [c]))
                  (sorted_keys city_list) [];
  dist_matrix ← distance_matrix coords_list;
  let iterations := 100 in
  let runs := 10 in
  '(hill_climb_lengths, best_solution, best_route_length, g) ←
    climb_runs runs iterations city_list dist_matrix g;
  solution ← match best_solution with
             | Some cities => Ok cities
             | None => Raise TypeError
             end;
  let average_hc_route_lengths := np_mean hill_climb_lengths in
  '(random_route_lengths, _) ←
    search_runs runs iterations city_list dist_matrix g;
  let average_random_route_lengths := np_mean random_route_lengths in
  Ok (Report best_route_length solution
        average_hc_route_lengths average_random_route_lengths).
End Main.
End TspHcsMain.

(** ** Further notions of the proofs *)

(** A line that neither opens the section nor ends the file. *)
Definition plain (line : string) : Prop :=
  startswith line "NODE_COORD_SECTION" = false ∧ startswith line "EOF" = false.

Section Further.
Context {D : Type} `{!Num D}.

(** The city an identifier in [1 - N .. N] stands for: Python reads a
    negative index from the end. *)
Definition wrap_id (N : nat) (c : Z) : Z :=
  if bool_decide (c ≤ 0) then c + Z.of_nat N else c.

(** The swap neighbours of a tour. *)
Definition neighbors_of (T : list Z) : list (list Z) :=
  swapped T <$> position_pairs (length T).

(** No swap makes the tour strictly shorter. *)
Definition local_optimum (M : list (list D)) (T : list Z) : Prop :=
  ∀ nb, nb ∈ neighbors_of T →
    ltb (route_length_spec nb M) (route_length_spec T M) = false.

(** The length the code computes for a tour, [zero] where it raises. *)
Definition length_or (M : list (list D)) (T : list Z) : D :=
  match route_length T M with Ok d => d | _ => zero end.
End Further.

Section TspStates.
Context {D : Type} `{!Num D}.
Context {G : Type} (shuffle : G → list Z → list Z * G).
Context (N : nat) (M : list (list D)).

(** The state [Tsp.iteration] moves to, given the local optimum [T] the
    climb ends in. *)
Definition tsp_next (s : Tsp.state) (T : list Z) (count : Z) : Tsp.state :=
  let better := ltb (route_length_spec T M) (Tsp.best_route_length s) in
  let best := if better then route_length_spec T M else Tsp.best_route_length s in
  {| Tsp.best_solution := if better then Some T else Tsp.best_solution s;
     Tsp.best_route_lengths := Tsp.best_route_lengths s ++ [best];
     Tsp.best_route_length := best;
     Tsp.no_improvement_count := count;
     Tsp.gen := (shuffle (Tsp.gen s) (Z.of_nat <$> seq 1 N)).2 |}.

(** What holds of the best tour recorded so far. *)
Definition tsp_best (s : @Tsp.state D G) : Prop :=
  (Tsp.best_solution s = None ∧ Tsp.best_route_length s = inf) ∨
  (∃ T, Tsp.best_solution s = Some T ∧ tour N T ∧ local_optimum M T ∧
        route_length T M = Ok (Tsp.best_route_length s)).

End TspStates.

Section HcsStates.
Context {D : Type} `{!Num D}.
Context {G : Type}.
Context (N : nat) (M : list (list D)).

(** What holds of the best tour [tsp_hcs.py] has recorded so far. *)
Definition hcs_best (s : @TspHcs.state D G) : Prop :=
  (TspHcs.best_solution s = None ∧ TspHcs.best_route_length s = inf) ∨
  (∃ T, TspHcs.best_solution s = Some T ∧ tour N T ∧
        route_length T M = Ok (TspHcs.best_route_length s)).

(** A best length is the initial infinity or the length of a tour. *)
Definition tour_length_or_inf (x : D) : Prop :=
  x = inf ∨ ∃ T, tour N T ∧ route_length T M = Ok x.
End HcsStates.

(** *** Further instances for the examples *)

(** Three cities whose identifiers are not their ranks. *)
Definition triangle_file : list string :=
  [ln "NAME: triangle"; ln "NODE_COORD_SECTION"; ln "30 0 4"; ln "10 0 0";
   ln "20 3 0"; ln "EOF"].

Definition triangle_cities : gmap Z (float * float) :=
  <[20:=(3, 0)%float]> (<[10:=(0, 0)%float]> (<[30:=(0, 4)%float]> ∅)).

(** Its table: the sides 3, 4 and 5. *)
Definition triangle_table : list (list float) :=
  [[0; 3; 4]; [3; 0; 5]; [4; 5; 0]]%float.

(** One city. *)
Definition point_file : list string :=
  [ln "NODE_COORD_SECTION"; ln "7 1 1"; ln "EOF"].
(** * Properties *)

(** ** Results and loops *)

Lemma bind_Ok {A B} (f : A → res B) (a : A) : (Ok a ≫= f) = f a.
Proof. reflexivity. Qed.

Lemma bind_Raise {A B} (f : A → res B) (e : exn) : (Raise e ≫= f) = Raise e.
Proof. reflexivity. Qed.

Lemma bind_Ok_inv {A B} (f : A → res B) (m : res A) (b : B) :
  (m ≫= f) = Ok b → ∃ a, m = Ok a ∧ f a = Ok b.
Proof. destruct m; [eauto | discriminate..]. Qed.

Lemma for_each_app {A B} (f : B → A → res B) l1 l2 b :
  for_each f (l1 ++ l2) b = (for_each f l1 b ≫= for_each f l2).
Proof.
  revert b. induction l1 as [|x l1 IH]; intros b; simpl; [done|].
  destruct (f b x) as [b'| |]; simpl; auto.
Qed.

(** A loop whose turns each append the items [G x] builds [l ≫= G]. *)
Lemma for_each_collect {A B} (F : list B → A → res (list B)) (G : A → list B) l acc :
  (∀ x acc', x ∈ l → F acc' x = Ok (acc' ++ G x)) →
  for_each F l acc = Ok (acc ++ (l ≫= G)).
Proof.
  revert acc. induction l as [|x l IH]; intros acc HF; csimpl.
  - by rewrite app_nil_r.
  - rewrite HF by left. simpl. rewrite IH, app_assoc; [done|].
    intros; apply HF. by right.
Qed.

Lemma for_each_append {A B} (g : A → res B) (h : A → B) l acc :
  (∀ x, x ∈ l → g x = Ok (h x)) →
  for_each (fun nb x => y ← g x; Ok (nb ++ [y])) l acc = Ok (acc ++ (h <$> l)).
Proof.
  intros Hg. rewrite (for_each_collect _ (fun x => [h x])).
  - f_equal.
  - intros x acc' Hx. by rewrite Hg.
Qed.

(** ** Indexing *)

Lemma py_norm_nat n (i : nat) : (i < n)%nat → py_norm n (Z.of_nat i) = Some i.
Proof.
  intros Hi. unfold py_norm.
  rewrite (bool_decide_eq_false_2 (Z.of_nat i < 0)) by lia.
  rewrite bool_decide_eq_true_2 by lia. by rewrite Nat2Z.id.
Qed.

Lemma py_at_lookup {A} (l : list A) i x : l !! i = Some x → py_at l i = Ok x.
Proof.
  intros Hx. unfold py_at, py_get.
  rewrite py_norm_nat by (by eapply lookup_lt_Some). by rewrite Hx.
Qed.

Lemma py_set_nat {A} (l : list A) i x :
  (i < length l)%nat → py_set l (Z.of_nat i) x = Ok (<[i:=x]> l).
Proof. intros Hi. unfold py_set. by rewrite py_norm_nat. Qed.

Lemma elem_of_range a b k : k ∈ range a b ↔ (a ≤ k < b)%nat.
Proof. unfold range. rewrite elem_of_seq. lia. Qed.

(** ** Neighbours *)

Lemma swap_at_swapped T i j :
  (i < length T)%nat → (j < length T)%nat → swap_at T i j = Ok (swapped T (i, j)).
Proof.
  intros Hi Hj. unfold swap_at, swapped; simpl.
  destruct (lookup_lt_is_Some_2 T i Hi) as [x Hx].
  destruct (lookup_lt_is_Some_2 T j Hj) as [y Hy].
  rewrite (py_at_lookup _ _ _ Hx), (py_at_lookup _ _ _ Hy), Hx, Hy. simpl.
  rewrite py_set_nat by done. simpl.
  by rewrite py_set_nat by (by rewrite length_insert).
Qed.

Lemma get_neighbors_swapped T :
  get_neighbors T = Ok (swapped T <$> position_pairs (length T)).
Proof.
  unfold get_neighbors, position_pairs.
  rewrite (for_each_collect _ (fun i => swapped T <$> (pair i <$> range (i + 1) (length T)))).
  - simpl. f_equal. generalize (range 0 (length T)). intros l.
    induction l as [|i l IH]; csimpl; [done|]. by rewrite fmap_app, IH.
  - intros i acc Hi%elem_of_range.
    rewrite (for_each_append _ (fun j => swapped T (i, j))).
    + by rewrite <-list_fmap_compose.
    + intros j Hj%elem_of_range. apply swap_at_swapped; lia.
Qed.

Lemma elem_of_position_pairs n i j :
  (i, j) ∈ position_pairs n ↔ (i < j < n)%nat.
Proof.
  unfold position_pairs. rewrite list_elem_of_bind. split.
  - intros (i' & Hj & Hi'). apply list_elem_of_fmap in Hj as (j' & [= -> ->] & Hj').
    apply elem_of_range in Hj'. lia.
  - intros H. exists i. split.
    + apply list_elem_of_fmap. exists j. split; [done|]. apply elem_of_range. lia.
    + apply elem_of_range. lia.
Qed.

Lemma NoDup_position_pairs n : NoDup (position_pairs n).
Proof.
  unfold position_pairs. apply NoDup_bind.
  - intros i1 i2 [i j] _ _ H1 H2.
    apply list_elem_of_fmap in H1 as (? & [= -> ->] & _).
    by apply list_elem_of_fmap in H2 as (? & [= -> ->] & _).
  - intros i _. apply NoDup_fmap_2; [|apply NoDup_seq]. by intros ?? [=].
  - apply NoDup_seq.
Qed.

Lemma length_pairs_from a k :
  (2 * length (seq a k ≫= fun i => pair i <$> range (i + 1) (a + k)) = k * (k - 1))%nat.
Proof.
  revert a. induction k as [|k IH]; intros a; [done|].
  change (seq a (S k)) with (a :: seq (S a) k).
  rewrite bind_cons, length_app, length_fmap. unfold range at 1. rewrite length_seq.
  replace (a + S k)%nat with (S a + k)%nat by lia.
  specialize (IH (S a)). revert IH.
  generalize (length (seq (S a) k ≫= fun i => pair i <$> range (i + 1) (S a + k))).
  intros L IH. replace (S a + k - (a + 1))%nat with k by lia.
  replace (S k - 1)%nat with k by lia. destruct k; [lia|].
  replace (S k - 1)%nat with k in IH by lia. nia.
Qed.

Lemma length_position_pairs n : length (position_pairs n) = (n * (n - 1) / 2)%nat.
Proof.
  pose proof (length_pairs_from 0 n) as H. unfold position_pairs.
  replace (range 0 n) with (seq 0 n) by (unfold range; f_equal; lia).
  change (0 + n)%nat with n in H.
  rewrite <-H, Nat.mul_comm, Nat.div_mul; done.
Qed.

(** Reading a swapped tour at [k] reads the tour at the transposed place. *)
Lemma lookup_swapped T i j k :
  (i < length T)%nat → (j < length T)%nat →
  swapped T (i, j) !! k = T !! transpose i j k.
Proof.
  intros Hi Hj. unfold swapped, transpose; simpl.
  destruct (lookup_lt_is_Some_2 T i Hi) as [x Hx].
  destruct (lookup_lt_is_Some_2 T j Hj) as [y Hy].
  rewrite Hx, Hy. repeat case_decide; subst.
  - destruct (decide (i = j)) as [->|].
    + rewrite list_lookup_insert_eq by (by rewrite length_insert). congruence.
    + rewrite list_lookup_insert_ne, list_lookup_insert_eq by done. done.
  - rewrite list_lookup_insert_eq by (by rewrite length_insert). done.
  - by rewrite !list_lookup_insert_ne by done.
Qed.

Lemma length_swapped T p : length (swapped T p) = length T.
Proof. unfold swapped. repeat case_match; by rewrite ?length_insert. Qed.

Lemma swapped_inj T p q :
  NoDup T → p ∈ position_pairs (length T) → q ∈ position_pairs (length T) →
  swapped T p = swapped T q → p = q.
Proof.
  destruct p as [i j], q as [i' j'].
  intros HT Hp%elem_of_position_pairs Hq%elem_of_position_pairs Heq.
  assert (∀ k, (k < length T)%nat → transpose i j k = transpose i' j' k) as Htr.
  { intros k Hk.
    destruct (lookup_lt_is_Some_2 T (transpose i j k)) as [x Hx].
    { unfold transpose. repeat case_decide; lia. }
    eapply NoDup_lookup; [done..|].
    rewrite <-lookup_swapped, <-Heq, lookup_swapped by lia. done. }
  pose proof (Htr i) as Hi. pose proof (Htr j) as Hj.
  unfold transpose in Hi, Hj. repeat case_decide; f_equal; lia.
Qed.

Lemma swapped_neq T p : NoDup T → p ∈ position_pairs (length T) → swapped T p ≠ T.
Proof.
  destruct p as [i j]. intros HT Hp%elem_of_position_pairs Heq.
  destruct (lookup_lt_is_Some_2 T j) as [x Hx]; [lia|].
  assert (i = j); [|lia].
  eapply NoDup_lookup; [done| |done].
  rewrite <-Heq, lookup_swapped by lia. unfold transpose. by rewrite decide_True.
Qed.

(** ** Loops with an invariant *)

Lemma for_each_invariant_from {A B} (I : list A → B → Prop) (f : B → A → res B) pre l b :
  I pre b →
  (∀ l1 x l2 b1, pre ++ l = l1 ++ x :: l2 → I l1 b1 →
     ∃ b2, f b1 x = Ok b2 ∧ I (l1 ++ [x]) b2) →
  ∃ b', for_each f l b = Ok b' ∧ I (pre ++ l) b'.
Proof.
  revert pre b. induction l as [|x l IH]; intros pre b Hb Hstep; simpl.
  - rewrite app_nil_r. eauto.
  - destruct (Hstep pre x l b eq_refl Hb) as (b2 & -> & Hb2). simpl.
    rewrite (cons_middle x pre l), app_assoc.
    apply IH; [done|]. intros l1 y l2 b1 Heq. apply (Hstep l1 y l2).
    by rewrite <-Heq, <-app_assoc.
Qed.

Lemma for_each_invariant {A B} (I : list A → B → Prop) (f : B → A → res B) l b :
  I [] b →
  (∀ l1 x l2 b1, l = l1 ++ x :: l2 → I l1 b1 →
     ∃ b2, f b1 x = Ok b2 ∧ I (l1 ++ [x]) b2) →
  ∃ b', for_each f l b = Ok b' ∧ I l b'.
Proof. intros H0 Hstep. exact (for_each_invariant_from I f [] l b H0 Hstep). Qed.

(** ** Neighbours in the store *)

Lemma swap_at_ref_spec (h : store) r T i j :
  h !! r = Some T → (i < length T)%nat → (j < length T)%nat →
  ∃ r', (r' ∉ dom h) ∧
    swap_at_ref h r i j = Ok (r', <[r':=swapped T (i, j)]> h).
Proof.
  intros Hr Hi Hj. exists (fresh (dom h)). split; [apply is_fresh|].
  destruct (lookup_lt_is_Some_2 T i Hi) as [x Hx].
  destruct (lookup_lt_is_Some_2 T j Hj) as [y Hy].
  unfold swap_at_ref, copy, getitem, setitem, load, swapped. simpl.
  rewrite Hr, Hx, Hy. simpl. rewrite !lookup_insert_eq. simpl.
  fold (py_at T j) (py_at T i).
  rewrite (py_at_lookup _ _ _ Hx), (py_at_lookup _ _ _ Hy). simpl.
  rewrite py_set_nat by done. simpl. rewrite lookup_insert_eq. simpl.
  rewrite py_set_nat by (by rewrite length_insert). simpl.
  by rewrite !insert_insert_eq.
Qed.

Lemma tracks_snoc h0 h1 rs nbs r' nb :
  tracks h0 h1 rs nbs → r' ∉ dom h1 →
  tracks h0 (<[r':=nb]> h1) (rs ++ [r']) (nbs ++ [nb]).
Proof.
  intros (Hsub & Hnd & Hfresh & Hd) Hr'.
  assert (h1 !! r' = None) as Hnone by by apply not_elem_of_dom.
  assert (r' ∉ rs) as Hnotin.
  { intros Hin. apply list_elem_of_lookup in Hin as [k Hk].
    apply (f_equal (fun l => l !! k)) in Hd. unfold deref in Hd.
    rewrite !list_lookup_fmap, Hk in Hd. simpl in Hd.
    rewrite Hnone in Hd. by destruct (nbs !! k). }
  split_and!.
  - etrans; [done|]. by apply insert_subseteq.
  - apply NoDup_app. split_and!; [done| |apply NoDup_singleton].
    intros x Hx ->%list_elem_of_singleton. done.
  - apply Forall_app. split; [done|]. apply Forall_singleton.
    intros Hin. apply Hr'. apply elem_of_dom. apply elem_of_dom in Hin as [v Hv].
    exists v. by eapply lookup_weaken.
  - unfold deref in *. rewrite !fmap_app. simpl. rewrite lookup_insert_eq.
    f_equal. rewrite <-Hd. apply list_fmap_ext. intros k r Hk.
    rewrite lookup_insert_ne; [done|]. intros <-. apply Hnotin.
    by eapply list_elem_of_lookup_2.
Qed.

Lemma get_neighbors_ref_spec (h : store) r T :
  h !! r = Some T →
  ∃ rs h', get_neighbors_ref h r = Ok (rs, h') ∧
    tracks h h' rs (swapped T <$> position_pairs (length T)).
Proof.
  intros Hr. unfold get_neighbors_ref, len, load. rewrite Hr. simpl.
  set (G := fun i : nat => pair i <$> range (i + 1) (length T)).
  destruct (for_each_invariant
    (fun done '(rs, h1) => tracks h h1 rs (swapped T <$> (done ≫= G)))
    (fun '(neighbors, h) i =>
      m ← (l ← match h !! r with Some l => Ok l | None => Raise TypeError end;
           Ok (length l));
      for_each (fun '(neighbors, h) j =>
          '(neighbor, h) ← swap_at_ref h r i j;
          Ok (neighbors ++ [neighbor], h))
        (range (i + 1) m) (neighbors, h))
    (range 0 (length T)) ([], h)) as ([rs h'] & Hrun & Hinv).
  - split_and!; [done|constructor|constructor|done].
  - intros l1 i l2 [rs h1] Hl Htr.
    assert (i ∈ range 0 (length T)) as Hi%elem_of_range.
    { rewrite Hl. apply elem_of_app. right. left. }
    assert (h1 !! r = Some T) as Hr1.
    { apply (lookup_weaken h h1 r T Hr). apply Htr. }
    rewrite Hr1. simpl.
    destruct (for_each_invariant
      (fun done '(rs', h2) =>
         tracks h h2 rs' ((swapped T <$> (l1 ≫= G)) ++ (swapped T <$> (pair i <$> done))))
      (fun '(neighbors, h) j =>
          '(neighbor, h) ← swap_at_ref h r i j;
          Ok (neighbors ++ [neighbor], h))
      (range (i + 1) (length T)) (rs, h1)) as ([rs2 h2] & Hrun2 & Hinv2).
    + simpl. by rewrite app_nil_r.
    + intros j1 j j2 [rs' h'] Hj Htr'.
      assert (j ∈ range (i + 1) (length T)) as Hj'%elem_of_range.
      { rewrite Hj. apply elem_of_app. right. left. }
      assert (h' !! r = Some T) as Hr'.
      { apply (lookup_weaken h h' r T Hr). apply Htr'. }
      destruct (swap_at_ref_spec h' r T i j Hr') as (r' & Hfresh & ->); [lia..|].
      simpl. eexists (_, _). split; [done|].
      rewrite !fmap_app, app_assoc. simpl. by apply tracks_snoc.
    + exists (rs2, h2). split; [done|].
      rewrite bind_app, fmap_app. csimpl. by rewrite app_nil_r.
  - exists rs, h'. split; [done|]. done.
Qed.

(** ** Tours as permutations *)

Lemma tour_NoDup N (T : list Z) : T ≡ₚ Z.of_nat <$> seq 1 N → NoDup T.
Proof.
  intros ->. apply NoDup_fmap_2; [|apply NoDup_seq]. intros ???. lia.
Qed.

Lemma tour_length N (T : list Z) : T ≡ₚ Z.of_nat <$> seq 1 N → length T = N.
Proof. intros ->. by rewrite length_fmap, length_seq. Qed.

(** C1. For a tour [T] that is a permutation of [1..N], [get_neighbors]
    returns the tours [swapped T (i, j)], one for each position pair
    [i < j < N] and in that order: [N * (N - 1) / 2] pairwise distinct
    tours, none of them [T]; each agrees with [T] everywhere but at [i]
    and [j], where the two (different) cities are exchanged; for [N = 1]
    no tour is returned.  Run over a store of list objects, the function
    leaves the argument and every other existing object as it was and
    returns freshly allocated, pairwise different objects holding these
    tours. *)
Theorem get_neighbors_correct (N : nat) (T : list Z) :
  T ≡ₚ Z.of_nat <$> seq 1 N →
  ∃ neighbors,
    get_neighbors T = Ok neighbors ∧
    neighbors = swapped T <$> position_pairs N ∧
    (∀ i j, (i, j) ∈ position_pairs N ↔ (i < j < N)%nat) ∧
    NoDup (position_pairs N) ∧
    (∀ i j, (i < j < N)%nat →
       length (swapped T (i, j)) = N ∧
       swapped T (i, j) !! i = T !! j ∧
       swapped T (i, j) !! j = T !! i ∧
       T !! i ≠ T !! j ∧
       ∀ k, k ≠ i → k ≠ j → swapped T (i, j) !! k = T !! k) ∧
    length neighbors = (N * (N - 1) / 2)%nat ∧
    NoDup neighbors ∧
    (T ∉ neighbors) ∧
    (N = 1%nat → neighbors = []) ∧
    (∀ (h : store) r, h !! r = Some T →
       ∃ rs h', get_neighbors_ref h r = Ok (rs, h') ∧
         h' !! r = Some T ∧
         h ⊆ h' ∧
         NoDup rs ∧
         Forall (fun r' => r' ∉ dom h) rs ∧
         deref h' rs = Some <$> neighbors).
Proof.
  intros HT. pose proof (tour_NoDup _ _ HT) as Hnd.
  pose proof (tour_length _ _ HT) as Hlen.
  exists (swapped T <$> position_pairs N). split_and!.
  - by rewrite get_neighbors_swapped, Hlen.
  - done.
  - apply elem_of_position_pairs.
  - apply NoDup_position_pairs.
  - intros i j Hij. split_and!.
    + by rewrite length_swapped.
    + rewrite lookup_swapped by lia. unfold transpose. by rewrite decide_True.
    + rewrite lookup_swapped by lia. unfold transpose.
      rewrite decide_False, decide_True by lia. done.
    + destruct (lookup_lt_is_Some_2 T i) as [x Hx]; [lia|].
      rewrite Hx. intros Hj. pose proof (NoDup_lookup _ _ _ _ Hnd Hx (eq_sym Hj)). lia.
    + intros k Hki Hkj. rewrite lookup_swapped by lia. unfold transpose.
      by rewrite !decide_False.
  - by rewrite length_fmap, length_position_pairs.
  - apply NoDup_fmap_2_strong; [|apply NoDup_position_pairs].
    intros p q Hp Hq. apply swapped_inj; by rewrite ?Hlen.
  - intros (p & Hp & Hin)%list_elem_of_fmap.
    eapply swapped_neq; [done| |done]. by rewrite Hlen.
  - by intros ->.
  - intros h r Hr. destruct (get_neighbors_ref_spec h r T Hr) as (rs & h' & Hrun & Htr).
    rewrite Hlen in Htr. destruct Htr as (Hsub & Hrs & Hfresh & Hd).
    exists rs, h'. split_and!; try done. by eapply lookup_weaken.
Qed.

Lemma get_neighbors_correct_witness :
  ∃ neighbors,
    get_neighbors [2; 3; 1] = Ok neighbors ∧
    neighbors = swapped [2; 3; 1] <$> position_pairs 3 ∧
    (∀ i j, (i, j) ∈ position_pairs 3 ↔ (i < j < 3)%nat) ∧
    NoDup (position_pairs 3) ∧
    (∀ i j, (i < j < 3)%nat →
       length (swapped [2; 3; 1] (i, j)) = 3%nat ∧
       swapped [2; 3; 1] (i, j) !! i = [2; 3; 1] !! j ∧
       swapped [2; 3; 1] (i, j) !! j = [2; 3; 1] !! i ∧
       [2; 3; 1] !! i ≠ [2; 3; 1] !! j ∧
       ∀ k, k ≠ i → k ≠ j → swapped [2; 3; 1] (i, j) !! k = [2; 3; 1] !! k) ∧
    length neighbors = (3 * (3 - 1) / 2)%nat ∧
    NoDup neighbors ∧
    ([2; 3; 1] ∉ neighbors) ∧
    (3%nat = 1%nat → neighbors = []) ∧
    (∀ (h : store) r, h !! r = Some [2; 3; 1] →
       ∃ rs h', get_neighbors_ref h r = Ok (rs, h') ∧
         h' !! r = Some [2; 3; 1] ∧
         h ⊆ h' ∧
         NoDup rs ∧
         Forall (fun r' => r' ∉ dom h) rs ∧
         deref h' rs = Some <$> neighbors).
Proof.
  apply (get_neighbors_correct 3 [2; 3; 1]). simpl.
  apply (perm_trans (l' := [2; 1; 3])); [apply perm_skip, perm_swap | apply perm_swap].
Defined.

(** ** Route length *)

Lemma for_each_fmap {A B C} (f : B → A → res B) (g : C → A) l b :
  for_each f (g <$> l) b = for_each (fun b x => f b (g x)) l b.
Proof.
  revert b. induction l as [|x l IH]; intros b; simpl; [done|].
  destruct (f b (g x)); simpl; auto.
Qed.

Lemma for_each_seq_lookup {V B} (vs : list V) (f : B → nat → res B)
    (g : B → V → res B) k :
  (∀ i v b, vs !! i = Some v → f b (k + i)%nat = g b v) →
  ∀ b, for_each f (seq k (length vs)) b = for_each g vs b.
Proof.
  revert k. induction vs as [|v vs IH]; intros k Hfg b; simpl; [done|].
  rewrite <-(Hfg 0%nat v b eq_refl), Nat.add_0_r.
  destruct (f b k) as [b'| |]; simpl; [|done..].
  apply IH. intros i v' b'' Hi. rewrite <-(Hfg (S i) v' b'' Hi). f_equal. lia.
Qed.

Lemma py_norm_nonneg n k : 0 ≤ k < Z.of_nat n → py_norm n k = Some (Z.to_nat k).
Proof.
  intros Hk. unfold py_norm.
  rewrite (bool_decide_eq_false_2 (k < 0)) by lia.
  by rewrite bool_decide_eq_true_2 by lia.
Qed.

Lemma py_get_last {A} (l : list A) x : last l = Some x → py_get l (-1) = Ok x.
Proof.
  intros Hx. unfold py_get, py_norm.
  assert (0 < length l)%nat by (destruct l; [done|simpl; lia]).
  rewrite (bool_decide_eq_true_2 (-1 < 0)) by lia.
  rewrite bool_decide_eq_true_2 by lia.
  rewrite last_lookup in Hx.
  replace (Z.to_nat (-1 + Z.of_nat (length l))) with (pred (length l)) by lia.
  by rewrite Hx.
Qed.

Lemma py_get_head {A} (l : list A) x : head l = Some x → py_get l 0 = Ok x.
Proof. intros Hx. rewrite head_lookup in Hx. by apply (py_at_lookup l 0). Qed.

Lemma py_get_nil {A} k : py_get (@nil A) k = Raise IndexError.
Proof.
  unfold py_get, py_norm. simpl.
  repeat case_bool_decide; (done || lia).
Qed.

Section TourFacts.
Context {D : Type} `{!Num D}.
Implicit Types (M : list (list D)) (T : list Z).

Lemma path_lookup T i a b :
  path T !! i = Some (a, b) → T !! i = Some a ∧ T !! S i = Some b.
Proof.
  revert i. induction T as [|x T IH]; intros i; [done|].
  destruct T as [|y T]; [done|]. destruct i as [|i].
  - by intros [= -> ->].
  - intros Hi. by apply IH in Hi.
Qed.

Lemma length_path T : length (path T) = (length T - 1)%nat.
Proof.
  induction T as [|x T IH]; [done|]. destruct T as [|y T]; [done|].
  change (length (path (x :: y :: T))) with (S (length (path (y :: T)))).
  rewrite IH. simpl. lia.
Qed.

(** The loop of [route_length] walks the consecutive pairs, and the
    function as a whole the closed path. *)
Lemma route_length_edges T M :
  route_length T M =
    match last T, head T with
    | Some z, Some a => for_each (add_edge M) (path T ++ [(z, a)]) zero
    | _, _ => Raise IndexError
    end.
Proof.
  unfold route_length.
  rewrite <-length_path. unfold range. rewrite Nat.sub_0_r.
  rewrite (for_each_seq_lookup (path T) _ (add_edge M)).
  2:{ intros i [a b] acc [Ha Hb]%path_lookup. simpl.
      rewrite (py_at_lookup _ _ _ Ha).
      replace (i + 1)%nat with (S i) by lia.
      by rewrite (py_at_lookup _ _ _ Hb). }
  destruct (last T) as [z|] eqn:Hz.
  - destruct (head T) as [a|] eqn:Ha; [|by destruct T].
    rewrite for_each_app, (py_get_last _ _ Hz), (py_get_head _ _ Ha).
    destruct (for_each (add_edge M) (path T) zero); simpl; [|done..].
    unfold add_edge, edge. simpl. by destruct (entry M (z - 1) (a - 1)).
  - by apply last_None in Hz as ->.
Qed.

Lemma entry_dist N M a b :
  table N M → 1 ≤ a ≤ Z.of_nat N → 1 ≤ b ≤ Z.of_nat N →
  entry M (a - 1) (b - 1) = Ok (dist M a b).
Proof.
  intros [HN Hrows] Ha Hb. unfold entry, dist, cell, py_get.
  rewrite py_norm_nonneg by lia.
  destruct (lookup_lt_is_Some_2 M (Z.to_nat (a - 1))) as [row Hrow]; [lia|].
  rewrite Hrow. simpl.
  pose proof (Forall_lookup_1 _ _ _ _ Hrows Hrow) as Hlen. simpl in Hlen.
  rewrite py_norm_nonneg by lia.
  destruct (lookup_lt_is_Some_2 row (Z.to_nat (b - 1))) as [d Hd]; [lia|].
  by rewrite Hd.
Qed.

Lemma for_each_add_edge N M (es : list (Z * Z)) acc :
  table N M →
  Forall (fun e => 1 ≤ e.1 ≤ Z.of_nat N ∧ 1 ≤ e.2 ≤ Z.of_nat N) es →
  for_each (add_edge M) es acc
    = Ok (foldl add acc ((fun e => dist M e.1 e.2) <$> es)).
Proof.
  intros HM Hes. revert acc. induction Hes as [|e es [H1 H2] _ IH]; intros acc.
  - done.
  - cbn [for_each fmap list_fmap].
    assert (add_edge M acc e = Ok (add acc (dist M e.1 e.2))) as ->.
    { unfold add_edge, edge. by rewrite (entry_dist N M e.1 e.2 HM H1 H2). }
    apply IH.
Qed.

Lemma path_Forall (P : Z → Prop) T :
  Forall P T → Forall (fun e => P e.1 ∧ P e.2) (path T).
Proof.
  induction T as [|x T IH]; intros HT; [constructor|].
  destruct T as [|y T]; [constructor|].
  apply Forall_cons in HT as [Hx HT]. pose proof HT as [Hy _]%Forall_cons.
  change (path (x :: y :: T)) with ((x, y) :: path (y :: T)).
  constructor; [done|]. by apply IH.
Qed.
End TourFacts.

Lemma route_length_spec_ok {D : Type} `{!Num D} (N : nat)
    (M : list (list D)) (T : list Z) :
  table N M → T ≠ [] → Forall (fun c => 1 ≤ c ≤ Z.of_nat N) T →
  route_length T M = Ok (route_length_spec T M).
Proof.
  intros HM Hne HT. rewrite route_length_edges. unfold route_length_spec.
  destruct (last T) as [z|] eqn:Hz; [|by apply last_None in Hz].
  destruct (head T) as [a|] eqn:Ha; [|by destruct T].
  assert (1 ≤ z ≤ Z.of_nat N) as Hz'.
  { eapply (proj1 (Forall_forall _ _) HT), last_Some_elem_of, Hz. }
  assert (1 ≤ a ≤ Z.of_nat N) as Ha'.
  { eapply (proj1 (Forall_forall _ _) HT), head_Some_elem_of, Ha. }
  rewrite (for_each_add_edge N M _ _ HM).
  2:{ apply Forall_app. split; [|by apply Forall_singleton].
      by apply (path_Forall (fun c => 1 ≤ c ≤ Z.of_nat N)). }
  by rewrite fmap_app, foldl_app.
Qed.

(** C3. On an [N] by [N] table and a non-empty tour of cities from
    [1..N], [route_length] returns the distances between consecutive
    positions summed up, plus the distance from the last city back to the
    first; the result is a function of the tour and the table; for a
    single city whose diagonal entry is zero the result is zero. *)
Theorem route_length_correct {D : Type} `{!Num D} (N : nat)
    (M : list (list D)) (T : list Z) :
  table N M → T ≠ [] → Forall (fun c => 1 ≤ c ≤ Z.of_nat N) T →
  route_length T M = Ok (route_length_spec T M) ∧
  (∀ r1 r2, route_length T M = r1 → route_length T M = r2 → r1 = r2) ∧
  (∀ c, T = [c] → dist M c c = zero → add zero zero = zero →
     route_length T M = Ok zero).
Proof.
  intros HM Hne HT. split_and!.
  - by apply (route_length_spec_ok N).
  - intros r1 r2 <- <-. reflexivity.
  - intros c -> Hc H0. rewrite (route_length_spec_ok N) by done.
    unfold route_length_spec. cbn [last head path fmap list_fmap foldl].
    cbn [fst snd]. by rewrite Hc, H0.
Qed.

Lemma route_length_correct_witness :
  route_length [1] [[0%float]] = Ok 0%float ∧
  route_length [1; 2; 3] [[0; 3; 4]; [3; 0; 5]; [4; 5; 0]]%float = Ok 12%float.
Proof.
  split.
  - refine (proj2 (proj2 (route_length_correct 1 [[0%float]] [1] _ _ _))
      1 eq_refl eq_refl eq_refl).
    + split; [reflexivity|]. repeat constructor.
    + discriminate.
    + repeat constructor; done.
  - refine (proj1 (route_length_correct 3
      [[0; 3; 4]; [3; 0; 5]; [4; 5; 0]]%float [1; 2; 3] _ _ _)).
    + split; [reflexivity|]. repeat constructor.
    + discriminate.
    + repeat constructor; done.
Defined.

(** ** Reversing a tour *)

Lemma py_norm_lt n k i : py_norm n k = Some i → (i < n)%nat.
Proof. unfold py_norm. repeat case_bool_decide; intros [= <-]; lia. Qed.

Section Reversal.
Context {D : Type} `{!Num D}.
Implicit Types (M : list (list D)) (T : list Z).

Hypothesis add_assoc : ∀ a b c : D, add a (add b c) = add (add a b) c.
Hypothesis add_comm : ∀ a b : D, add a b = add b a.

Lemma foldl_add_perm (l1 l2 : list D) :
  l1 ≡ₚ l2 → ∀ acc, foldl add acc l1 = foldl add acc l2.
Proof.
  induction 1 as [|x l1 l2 _ IH|x y l|l1 l2 l3 _ IH1 _ IH2]; intros acc; simpl.
  - done.
  - apply IH.
  - f_equal. by rewrite <-!add_assoc, (add_comm x y).
  - by rewrite IH1.
Qed.

Lemma path_snoc T a b : path (T ++ [a; b]) = path (T ++ [a]) ++ [(a, b)].
Proof.
  induction T as [|x T IH]; [done|]. destruct T as [|y T]; [done|].
  change (path ((x :: y :: T) ++ [a; b])) with ((x, y) :: path ((y :: T) ++ [a; b])).
  by rewrite IH.
Qed.

Lemma path_reverse T : path (reverse T) = reverse (prod_swap <$> path T).
Proof.
  induction T as [|x T IH]; [done|]. destruct T as [|y T]; [done|].
  change (path (x :: y :: T)) with ((x, y) :: path (y :: T)).
  rewrite fmap_cons, !reverse_cons, <-IH, reverse_cons, <-app_assoc. simpl.
  apply path_snoc.
Qed.

Lemma entry_outcome M a b :
  (∃ d, entry M a b = Ok d) ∨ entry M a b = Raise IndexError.
Proof.
  unfold entry, py_get. destruct (py_norm (length M) a) as [i|]; [|by right].
  destruct (M !! i) as [row|]; [|by right]. simpl.
  destruct (py_norm (length row) b) as [j|]; [|by right].
  destruct (row !! j) as [d|]; [left; by exists d|by right].
Qed.

Lemma entry_symmetric N M a b :
  table N M → symmetric M → entry M a b = entry M b a.
Proof.
  intros [HN Hrows] Hsym. unfold entry, py_get. rewrite HN.
  assert (∀ i, (i < N)%nat → ∃ row, M !! i = Some row ∧ length row = N) as Hrow.
  { intros i Hi. destruct (lookup_lt_is_Some_2 M i) as [row Hr]; [lia|].
    exists row. split; [done|]. by apply (Forall_lookup_1 _ _ _ _ Hrows Hr). }
  destruct (py_norm N a) as [i|] eqn:Ha, (py_norm N b) as [j|] eqn:Hb.
  - destruct (Hrow i (py_norm_lt _ _ _ Ha)) as (ri & Hri & Hli).
    destruct (Hrow j (py_norm_lt _ _ _ Hb)) as (rj & Hrj & Hlj).
    rewrite Hri, Hrj. simpl. rewrite Hli, Hlj, Ha, Hb.
    pose proof (Hsym i j) as Hij. unfold cell in Hij. rewrite Hri, Hrj in Hij.
    simpl in Hij. by rewrite Hij.
  - destruct (Hrow i (py_norm_lt _ _ _ Ha)) as (ri & Hri & Hli).
    rewrite Hri. simpl. by rewrite Hli, Hb.
  - destruct (Hrow j (py_norm_lt _ _ _ Hb)) as (rj & Hrj & Hlj).
    rewrite Hrj. simpl. by rewrite Hlj, Ha.
  - done.
Qed.

Lemma for_each_add_edge_cases M es acc :
  (Forall (fun e => edge M e = Ok (edge_or M e)) es
     ∧ for_each (add_edge M) es acc = Ok (foldl add acc (edge_or M <$> es)))
  ∨ (Exists (fun e => edge M e = Raise IndexError) es
     ∧ for_each (add_edge M) es acc = Raise IndexError).
Proof.
  revert acc. induction es as [|e es IH]; intros acc.
  - left. by split.
  - cbn [for_each].
    destruct (entry_outcome M (e.1 - 1) (e.2 - 1)) as [[d Hd]|Hd].
    + assert (edge M e = Ok (edge_or M e)) as He.
      { unfold edge_or, edge. by rewrite Hd. }
      assert (add_edge M acc e = Ok (add acc (edge_or M e))) as ->.
      { unfold add_edge. by rewrite He. }
      simpl. destruct (IH (add acc (edge_or M e))) as [[Hall ->]|[Hex ->]].
      * left. split; [by constructor|done].
      * right. split; [by apply Exists_cons_tl|done].
    + assert (add_edge M acc e = Raise IndexError) as ->.
      { unfold add_edge, edge. by rewrite Hd. }
      right. split; [|done]. by apply Exists_cons_hd.
Qed.

Lemma for_each_add_edge_perm M es1 es2 acc :
  es1 ≡ₚ es2 → for_each (add_edge M) es1 acc = for_each (add_edge M) es2 acc.
Proof.
  intros Hp.
  destruct (for_each_add_edge_cases M es1 acc) as [[H1 ->]|[H1 ->]],
    (for_each_add_edge_cases M es2 acc) as [[H2 ->]|[H2 ->]].
  - f_equal. apply foldl_add_perm. by rewrite Hp.
  - rewrite <-Hp in H2. apply Exists_exists in H2 as (e & He & Hr).
    rewrite (proj1 (Forall_forall _ _) H1 e He) in Hr. discriminate.
  - rewrite Hp in H1. apply Exists_exists in H1 as (e & He & Hr).
    rewrite (proj1 (Forall_forall _ _) H2 e He) in Hr. discriminate.
  - done.
Qed.

Lemma for_each_add_edge_swap N M es acc :
  table N M → symmetric M →
  for_each (add_edge M) (prod_swap <$> es) acc = for_each (add_edge M) es acc.
Proof.
  intros HM Hsym. revert acc. induction es as [|e es IH]; intros acc; [done|].
  cbn [fmap list_fmap for_each].
  assert (add_edge M acc (prod_swap e) = add_edge M acc e) as ->.
  { unfold add_edge, edge. destruct e as [a b]. simpl.
    by rewrite (entry_symmetric N M (b - 1) (a - 1)). }
  destruct (add_edge M acc e); simpl; [apply IH|done..].
Qed.

End Reversal.

(** C5 (amended). Where the addition of lengths is associative and
    commutative (exact arithmetic), [route_length] gives the same result
    on a tour and on its reversal, for every symmetric [N] by [N] table
    and every list of identifiers; if one of the two raises [IndexError]
    so does the other.  (With binary64 entries the two calls add the same
    edges in a different order and the sums may differ in the last
    place.) *)
Theorem route_length_reverse {D : Type} `{!Num D} (N : nat)
    (M : list (list D)) (T : list Z) :
  (∀ a b c : D, add a (add b c) = add (add a b) c) →
  (∀ a b : D, add a b = add b a) →
  table N M → symmetric M →
  route_length (reverse T) M = route_length T M.
Proof.
  intros Hassoc Hcomm HM Hsym.
  rewrite !route_length_edges, last_reverse, head_reverse.
  destruct (head T) as [a|] eqn:Ha; [|by destruct T].
  destruct (last T) as [z|] eqn:Hz; [|by apply last_None in Hz as ->].
  rewrite path_reverse.
  change [(a, z)] with (prod_swap <$> [(z, a)]).
  rewrite <-fmap_reverse, <-fmap_app, (for_each_add_edge_swap N) by done.
  apply for_each_add_edge_perm; [done..|].
  by rewrite reverse_Permutation.
Qed.

Lemma xZ_add_assoc (a b c : xZ) : add a (add b c) = add (add a b) c.
Proof. destruct a, b, c; simpl; f_equal; lia. Qed.

Lemma xZ_add_comm (a b : xZ) : add a b = add b a.
Proof. destruct a, b; simpl; f_equal; lia. Qed.

Lemma route_length_reverse_witness :
  route_length (reverse [1; 2; 3; 4])
    [[Fin 0; Fin 3; Fin 4; Fin 6]; [Fin 3; Fin 0; Fin 5; Fin 2];
     [Fin 4; Fin 5; Fin 0; Fin 7]; [Fin 6; Fin 2; Fin 7; Fin 0]]
  = route_length [1; 2; 3; 4]
    [[Fin 0; Fin 3; Fin 4; Fin 6]; [Fin 3; Fin 0; Fin 5; Fin 2];
     [Fin 4; Fin 5; Fin 0; Fin 7]; [Fin 6; Fin 2; Fin 7; Fin 0]].
Proof.
  apply (route_length_reverse 4).
  - apply xZ_add_assoc.
  - apply xZ_add_comm.
  - split; [reflexivity|]. repeat constructor.
  - intros [|[|[|[|i]]]] [|[|[|[|j]]]]; reflexivity.
Defined.

(** C5, as stated, fails on binary64 tables.  The table of the four
    cities (0,0), (1,1), (2,3), (5,1) is symmetric; the tour 1 2 3 4 has
    length 12.354852328929658 and its reversal 12.35485232892966. *)
Lemma route_length_reverse_float_counterexample :
  ∃ (M : list (list float)) (a b : float),
    distance_matrix [(0, 0); (1, 1); (2, 3); (5, 1)]%float = Ok M ∧
    table 4 M ∧ symmetric M ∧
    route_length [1; 2; 3; 4] M = Ok a ∧
    route_length (reverse [1; 2; 3; 4]) M = Ok b ∧
    PrimFloat.ltb a b = true ∧
    route_length (reverse [1; 2; 3; 4]) M ≠ route_length [1; 2; 3; 4] M.
Proof.
  eexists _, _, _. split_and!.
  - vm_compute. reflexivity.
  - split; [reflexivity|]. repeat constructor.
  - intros [|[|[|[|i]]]] [|[|[|[|j]]]]; reflexivity.
  - vm_compute. reflexivity.
  - vm_compute. reflexivity.
  - vm_compute. reflexivity.
  - intros Heq.
    apply (f_equal (fun r => match r with
                             | Ok x => PrimFloat.ltb x 0x1.8b5af3457531cp+3%float
                             | _ => false
                             end)) in Heq.
    vm_compute in Heq. discriminate.
Qed.

(** ** The distance table *)

Lemma insert_fmap_seq {A} (g : nat → A) n i y :
  <[i:=y]> (g <$> seq 0 n) = (fun k => if decide (k = i) then y else g k) <$> seq 0 n.
Proof.
  apply list_eq. intros k. rewrite list_lookup_insert, !list_lookup_fmap.
  rewrite length_fmap, length_seq.
  destruct (decide (k < n)%nat) as [Hk|Hk].
  - rewrite lookup_seq_lt by done. simpl. repeat case_decide; (done || lia).
  - rewrite lookup_seq_ge by lia. simpl. case_decide; [lia|done].
Qed.

(** Two loops over the same items whose turns agree step by step end in
    outcomes of the same kind. *)
Lemma for_each_sim {A B C} (R : B → C → Prop) (f : B → A → res B)
    (g : C → A → res C) l b c :
  R b c →
  (∀ x b c, x ∈ l → R b c → res_rel R (f b x) (g c x)) →
  res_rel R (for_each f l b) (for_each g l c).
Proof.
  revert b c. induction l as [|x l IH]; intros b c Hbc Hstep; simpl; [done|].
  pose proof (Hstep x b c ltac:(left) Hbc) as Hx. unfold res_rel in Hx.
  destruct (f b x) as [b'|e|], (g c x) as [c'|e'|]; simpl; try done.
  apply IH; [done|]. intros y b1 c1 Hy. apply Hstep. by right.
Qed.

(** A loop over the items that nested loops visit. *)
Lemma for_each_bind_list {A B C} (f : B → A → res B) (G : C → list A) l b :
  for_each f (l ≫= G) b = for_each (fun b x => for_each f (G x) b) l b.
Proof.
  revert b. induction l as [|x l IH]; intros b; csimpl; [done|].
  rewrite for_each_app. destruct (for_each f (G x) b); simpl; auto.
Qed.

Section DistanceFacts.
Context {D : Type} `{!Num D}.
Implicit Types (M : list (list D)) (coords : list (D * D)) (f : nat → nat → D).

Lemma mat_ext n (f g : nat → nat → D) :
  (∀ a b, (a < n)%nat → (b < n)%nat → f a b = g a b) → mat n f = mat n g.
Proof.
  intros Hfg. unfold mat. apply list_fmap_ext. intros ? a [-> Ha]%lookup_seq.
  apply list_fmap_ext. intros ? b [-> Hb]%lookup_seq. by apply Hfg.
Qed.

Lemma cell_mat n f a b :
  (a < n)%nat → (b < n)%nat → cell (mat n f) a b = Some (f a b).
Proof.
  intros Ha Hb. unfold cell, mat.
  rewrite list_lookup_fmap, lookup_seq_lt by done. simpl.
  by rewrite list_lookup_fmap, lookup_seq_lt by done.
Qed.

Lemma table_mat n f : table n (mat n f).
Proof.
  split.
  - unfold mat. by rewrite length_fmap, length_seq.
  - apply Forall_forall. intros row (a & -> & _)%list_elem_of_fmap.
    by rewrite length_fmap, length_seq.
Qed.

Lemma mat_zero n : replicate n (replicate n zero) = mat n (fun _ _ => zero).
Proof.
  assert (∀ (A : Type) (x : A) k m, replicate m x = (fun _ => x) <$> seq k m) as Hrep.
  { intros A x k m. revert k. induction m as [|m IH]; intros k; simpl; [done|].
    by rewrite <-IH. }
  unfold mat. rewrite (Hrep _ _ 0%nat n). apply list_fmap_ext. intros _ a _.
  apply Hrep.
Qed.

Lemma set_entry_mat n f i j x :
  (i < n)%nat → (j < n)%nat →
  set_entry (mat n f) i j x
    = Ok (mat n (fun a b => if decide (a = i ∧ b = j) then x else f a b)).
Proof.
  intros Hi Hj. unfold set_entry.
  rewrite (py_at_lookup _ _ (f i <$> seq 0 n)).
  2:{ unfold mat. by rewrite list_lookup_fmap, lookup_seq_lt by done. }
  simpl. rewrite py_set_nat by (by rewrite length_fmap, length_seq). simpl.
  rewrite py_set_nat by (unfold mat; by rewrite length_fmap, length_seq).
  f_equal. unfold mat. rewrite !insert_fmap_seq.
  apply list_fmap_ext. intros a a' [Ha' Ha]%lookup_seq. subst a'. simpl.
  case_decide as Hai.
  - subst a. apply list_fmap_ext. intros b b' [Hb' Hb]%lookup_seq. subst b'. simpl.
    destruct (decide (b = j)) as [->|Hbj].
    + by rewrite !decide_True.
    + rewrite !decide_False; [done|intros [? ?]; congruence..].
  - apply list_fmap_ext. intros b b' [Hb' Hb]%lookup_seq. subst b'. simpl.
    rewrite decide_False; [done|intros [? ?]; congruence].
Qed.

(** One turn of the inner loop: the pair [(i, j)] is filled in. *)
Lemma fill_step n (v : nat → nat → D) calls i j :
  (i < j < n)%nat →
  mat n (fun a b =>
      if decide (a = j ∧ b = i)
      then v i j
      else if decide (a = i ∧ b = j)
           then v i j
           else fill v calls a b)
  = mat n (fill v (calls ++ [(i, j)])).
Proof.
  intros Hij. apply mat_ext. intros a b Ha Hb. unfold fill.
  destruct (decide (a = j ∧ b = i)) as [[-> ->]|Hji].
  { rewrite bool_decide_eq_true_2.
    - by rewrite Nat.min_r, Nat.max_l by lia.
    - rewrite Nat.min_r, Nat.max_l by lia. apply elem_of_app. right. left. }
  destruct (decide (a = i ∧ b = j)) as [[-> ->]|Hij'].
  { rewrite bool_decide_eq_true_2.
    - by rewrite Nat.min_l, Nat.max_r by lia.
    - rewrite Nat.min_l, Nat.max_r by lia. apply elem_of_app. right. left. }
  assert (bool_decide ((a `min` b, a `max` b)%nat ∈ calls ++ [(i, j)])
          = bool_decide ((a `min` b, a `max` b)%nat ∈ calls)) as ->; [|done].
  apply bool_decide_ext. rewrite elem_of_app, list_elem_of_singleton.
  split; [|by left]. intros [?|[= Hmin Hmax]]; [done|]. exfalso. lia.
Qed.

Lemma fill_pairs n (v : nat → nat → D) a b :
  (a < b < n)%nat →
  fill v (position_pairs n) a b = v a b ∧ fill v (position_pairs n) b a = v a b.
Proof.
  intros Hab. unfold fill.
  rewrite (Nat.min_l a b), (Nat.max_r a b), (Nat.min_r b a), (Nat.max_l b a) by lia.
  rewrite bool_decide_eq_true_2; [done|]. by apply elem_of_position_pairs.
Qed.

Lemma coord_lookup coords i :
  (i < length coords)%nat → coords !! i = Some (coord coords i).
Proof.
  intros Hi. unfold coord.
  by destruct (lookup_lt_is_Some_2 coords i Hi) as [c ->].
Qed.

Section Callee.
Context {S : Type} (dist : D * D → D * D → S → res (D * S)).

(** The loops with a callee that returns [v i j] for the pair [(i, j)]
    and moves its state by [t]. *)
Lemma distance_matrix_with_run coords (v : nat → nat → D) (t : S → S) s :
  (∀ i j s, (i < j < length coords)%nat →
     dist (coord coords i) (coord coords j) s = Ok (v i j, t s)) →
  distance_matrix_with dist coords s
    = Ok (mat (length coords) (fill v (position_pairs (length coords))),
          Nat.iter (length (position_pairs (length coords))) t s).
Proof.
  intros Hdist. unfold distance_matrix_with. set (n := length coords).
  set (G := fun i : nat => pair i <$> range (i + 1) n).
  rewrite mat_zero.
  set (inner := fun (i : nat) '(matrix, s) (j : nat) =>
        ci ← py_at coords i;
        cj ← py_at coords j;
        '(distance, s) ← dist ci cj s;
        matrix ← set_entry matrix i j distance;
        matrix ← set_entry matrix j i distance;
        Ok (matrix, s)).
  destruct (for_each_invariant
    (fun done '(M, s') =>
       M = mat n (fill v (done ≫= G)) ∧ s' = Nat.iter (length (done ≫= G)) t s)
    (fun '(matrix, s) i => for_each (inner i) (range (i + 1) n) (matrix, s))
    (range 0 n) (mat n (fun _ _ => zero), s)) as ([M s'] & Hrun & -> & ->).
  - split; [|done]. apply mat_ext. intros a b _ _. unfold fill.
    rewrite bool_decide_eq_false_2; [done|]. apply not_elem_of_nil.
  - intros l1 i l2 [M s1] Hl [-> ->].
    assert (i ∈ range 0 n) as Hi%elem_of_range.
    { rewrite Hl. apply elem_of_app. right. left. }
    destruct (for_each_invariant
      (fun done '(M', s2) =>
         M' = mat n (fill v ((l1 ≫= G) ++ (pair i <$> done))) ∧
         s2 = Nat.iter (length ((l1 ≫= G) ++ (pair i <$> done))) t s)
      (inner i) (range (i + 1) n)
      (mat n (fill v (l1 ≫= G)), Nat.iter (length (l1 ≫= G)) t s))
      as ([M2 s2] & Hrun2 & HM2 & Hs2).
    + simpl. by rewrite app_nil_r.
    + intros j1 j j2 [M' s'] Hj [-> ->].
      assert (j ∈ range (i + 1) n) as Hj'%elem_of_range.
      { rewrite Hj. apply elem_of_app. right. left. }
      unfold inner.
      rewrite (py_at_lookup _ _ _ (coord_lookup coords i ltac:(lia))).
      rewrite (py_at_lookup _ _ _ (coord_lookup coords j ltac:(lia))).
      rewrite !bind_Ok, Hdist by (unfold n in *; lia). rewrite bind_Ok.
      rewrite set_entry_mat by lia. rewrite bind_Ok.
      rewrite set_entry_mat by lia. rewrite bind_Ok.
      eexists (_, _). split; [done|]. rewrite fmap_app, app_assoc. split.
      * apply fill_step. lia.
      * rewrite (length_app _ (pair i <$> [j])). simpl.
        by rewrite Nat.add_comm.
    + exists (M2, s2). split; [done|]. rewrite bind_app. csimpl.
      by rewrite app_nil_r.
  - exact Hrun.
Qed.

(** The loops call [dist] as one loop over the position pairs does: the
    two end in the same state of the callee, or in the same exception. *)
Lemma distance_matrix_with_calls coords s :
  res_rel (fun '(M, s1) '(_, s2) => s1 = s2 ∧ ∃ f, M = mat (length coords) f)
    (distance_matrix_with dist coords s)
    (call_all dist coords (position_pairs (length coords)) s).
Proof.
  unfold distance_matrix_with, call_all, position_pairs. set (n := length coords).
  rewrite mat_zero, for_each_bind_list.
  apply for_each_sim; [split; [done|by eexists]|].
  intros i [M s1] [ds s2] Hi%elem_of_range [-> (f & ->)].
  rewrite for_each_fmap.
  apply for_each_sim; [split; [done|by eexists]|].
  intros j [M s1] [ds' s2'] Hj%elem_of_range [-> (f' & ->)].
  rewrite (py_at_lookup _ _ _ (coord_lookup coords i ltac:(lia))).
  rewrite (py_at_lookup _ _ _ (coord_lookup coords j ltac:(lia))).
  rewrite !bind_Ok.
  destruct (dist (coord coords i) (coord coords j) s2') as [[d s3]|e|]; [|done..].
  rewrite !bind_Ok, set_entry_mat by lia. rewrite bind_Ok.
  rewrite set_entry_mat by lia. rewrite bind_Ok.
  split; [done|]. by eexists.
Qed.

Lemma distance_matrix_with_state coords s :
  snd <$> distance_matrix_with dist coords s
  = snd <$> call_all dist coords (position_pairs (length coords)) s.
Proof.
  pose proof (distance_matrix_with_calls coords s) as Hrel. unfold res_rel in Hrel.
  destruct (distance_matrix_with dist coords s) as [[M s1]|e|],
    (call_all dist coords (position_pairs (length coords)) s) as [[ds s2]|e'|];
    simpl; try done.
  - by destruct Hrel as [-> _].
  - by subst.
Qed.
End Callee.
End DistanceFacts.

Lemma cell_mat_None {D : Type} n (f : nat → nat → D) a b :
  (n ≤ a)%nat ∨ (n ≤ b)%nat → cell (mat n f) a b = None.
Proof.
  intros Hab. unfold cell, mat. rewrite list_lookup_fmap.
  destruct (decide (a < n)%nat) as [Ha|Ha].
  - rewrite lookup_seq_lt by done. simpl.
    rewrite list_lookup_fmap, lookup_seq_ge by lia. done.
  - by rewrite lookup_seq_ge by lia.
Qed.

Section Euclid.
Context {D : Type} `{!Num D, !Metric D}.
Implicit Types (coords : list (D * D)).

(** The two outcomes of [euclidean_distance]. *)
Lemma euclidean_distance_cases (p q : D * D) :
  (∃ dx dy, pow2 (sub p.1 q.1) = Some dx ∧ pow2 (sub p.2 q.2) = Some dy ∧
     euclidean_distance p q = Ok (sqrt (add dx dy))) ∨
  ((pow2 (sub p.1 q.1) = None ∨ pow2 (sub p.2 q.2) = None) ∧
     euclidean_distance p q = Raise OverflowError).
Proof.
  unfold euclidean_distance, py_pow2.
  destruct (pow2 (sub p.1 q.1)) as [dx|]; [|right; auto].
  destruct (pow2 (sub p.2 q.2)) as [dy|]; [left; eauto|right; auto].
Qed.

(** The table is returned by the first component of the run. *)
Lemma distance_matrix_Ok coords M :
  distance_matrix coords = Ok M ↔
  distance_matrix_with (pure_call euclidean_distance) coords tt = Ok (M, tt).
Proof.
  unfold distance_matrix.
  destruct (distance_matrix_with _ coords tt) as [[M' []]|e|]; simpl;
    split; intros Heq; (done || congruence).
Qed.

Lemma distance_matrix_Ok_table coords M :
  distance_matrix coords = Ok M → table (length coords) M.
Proof.
  intros HM%distance_matrix_Ok.
  pose proof (distance_matrix_with_calls (pure_call euclidean_distance) coords tt)
    as Hrel.
  rewrite HM in Hrel. unfold res_rel in Hrel.
  destruct (call_all _ coords _ tt) as [[ds s2]|e|]; [|done..].
  destruct Hrel as [_ (f & ->)]. apply table_mat.
Qed.

(** Nothing is computed for fewer than two coordinates. *)
Lemma distance_matrix_small coords :
  (length coords ≤ 1)%nat →
  ∃ M, distance_matrix coords = Ok M ∧ table (length coords) M.
Proof.
  intros Hlen. destruct coords as [|c [|c' coords]]; simpl in Hlen; [| |lia].
  - exists []. split; [reflexivity|]. by split.
  - exists [[zero]]. split; [reflexivity|]. split; [done|]. by repeat constructor.
Qed.

(** A call that overflows ends the loop over the pairs. *)
Lemma call_all_overflow coords pairs acc :
  (∃ i j, (i, j) ∈ pairs ∧
     euclidean_distance (coord coords i) (coord coords j) = Raise OverflowError) →
  for_each (fun '(ds, s) '(i, j) =>
      '(d, s) ← pure_call euclidean_distance (coord coords i) (coord coords j) s;
      Ok (ds ++ [d], s))
    pairs acc = Raise OverflowError.
Proof.
  revert acc. induction pairs as [|[i0 j0] pairs IH]; intros [ds s] (i & j & Hin & Hraise).
  { by apply elem_of_nil in Hin. }
  cbn [for_each]. cbv beta iota.
  change (pure_call euclidean_distance (coord coords i0) (coord coords j0) s)
    with (d ← euclidean_distance (coord coords i0) (coord coords j0); Ok (d, s)).
  destruct (euclidean_distance_cases (coord coords i0) (coord coords j0))
    as [(dx & dy & _ & _ & Hok)|[_ Hov]].
  - rewrite Hok, !bind_Ok. apply IH. exists i, j. split; [|done].
    apply elem_of_cons in Hin as [[= -> ->]|Hin]; [congruence|done].
  - by rewrite Hov.
Qed.

Lemma distance_matrix_raises coords :
  (∃ i j, (i < j < length coords)%nat ∧
     euclidean_distance (coord coords i) (coord coords j) = Raise OverflowError) →
  distance_matrix coords = Raise OverflowError.
Proof.
  intros (i & j & Hij & Hraise).
  pose proof (distance_matrix_with_calls (pure_call euclidean_distance) coords tt)
    as Hrel.
  unfold call_all in Hrel. rewrite call_all_overflow in Hrel.
  2:{ exists i, j. split; [by apply elem_of_position_pairs|done]. }
  unfold distance_matrix, res_rel in *.
  destruct (distance_matrix_with _ coords tt) as [[M s1]|e|]; [done| |done].
  by subst e.
Qed.
End Euclid.

(** C4 (amended). [distance_matrix] on [N] coordinates.  Where no squared
    coordinate difference overflows, it returns an [N] by [N] table: for
    [i < j] the entries [(i, j)] and [(j, i)] are both the square root
    of the sum of the squared differences of the coordinates [i] and
    [j], the diagonal is zero and the table equals its transpose; where
    [(a - b) ** 2] and [(b - a) ** 2] agree on the coordinates, every
    entry [(i, j)] with [i ≠ j] is that value for [i] and [j] in this
    order.  Where a squared difference overflows, [OverflowError] is
    raised and no table is returned.  Whatever [euclidean_distance]
    does, it is called as by one loop over the position pairs [i < j],
    in lexicographic order, once for each, [N * (N - 1) / 2] times in
    all: a callee that counts its calls ends at that number.  No
    coordinates give the empty table, not an error. *)
Theorem distance_matrix_correct {D : Type} `{!Num D, !Metric D}
    (coords : list (D * D)) :
  ((∀ i j ci cj, (i < j)%nat → coords !! i = Some ci → coords !! j = Some cj →
      is_Some (pow2 (sub ci.1 cj.1)) ∧ is_Some (pow2 (sub ci.2 cj.2))) →
   ∃ M,
     distance_matrix coords = Ok M ∧
     table (length coords) M ∧
     (∀ i j ci cj, (i < j)%nat → coords !! i = Some ci → coords !! j = Some cj →
        ∃ dx dy, pow2 (sub ci.1 cj.1) = Some dx ∧ pow2 (sub ci.2 cj.2) = Some dy ∧
          cell M i j = Some (sqrt (add dx dy)) ∧
          cell M j i = Some (sqrt (add dx dy))) ∧
     ((∀ i j ci cj, coords !! i = Some ci → coords !! j = Some cj →
         pow2 (sub ci.1 cj.1) = pow2 (sub cj.1 ci.1) ∧
         pow2 (sub ci.2 cj.2) = pow2 (sub cj.2 ci.2)) →
      ∀ i j ci cj, i ≠ j → coords !! i = Some ci → coords !! j = Some cj →
        ∃ dx dy, pow2 (sub ci.1 cj.1) = Some dx ∧ pow2 (sub ci.2 cj.2) = Some dy ∧
          cell M i j = Some (sqrt (add dx dy))) ∧
     (∀ i, (i < length coords)%nat → cell M i i = Some zero) ∧
     symmetric M ∧
     distance_matrix_with (counted euclidean_distance) coords 0%nat
       = Ok (M, (length coords * (length coords - 1) / 2)%nat)) ∧
  ((∃ i j ci cj, (i < j)%nat ∧ coords !! i = Some ci ∧ coords !! j = Some cj ∧
      (pow2 (sub ci.1 cj.1) = None ∨ pow2 (sub ci.2 cj.2) = None)) →
   distance_matrix coords = Raise OverflowError) ∧
  (∀ (S : Type) (dist : D * D → D * D → S → res (D * S)) (s : S),
     snd <$> distance_matrix_with dist coords s
     = snd <$> call_all dist coords (position_pairs (length coords)) s) ∧
  length (position_pairs (length coords))
    = (length coords * (length coords - 1) / 2)%nat ∧
  (∀ i j, (i, j) ∈ position_pairs (length coords) ↔ (i < j < length coords)%nat) ∧
  distance_matrix (D:=D) [] = Ok [].
Proof.
  set (n := length coords). split_and!.
  - intros Hsome.
    set (v := fun i j : nat =>
           match euclidean_distance (coord coords i) (coord coords j) with
           | Ok d => d
           | _ => zero
           end).
    assert (∀ i j, (i < j < n)%nat →
      ∃ dx dy, pow2 (sub (coord coords i).1 (coord coords j).1) = Some dx ∧
        pow2 (sub (coord coords i).2 (coord coords j).2) = Some dy ∧
        euclidean_distance (coord coords i) (coord coords j) = Ok (v i j) ∧
        v i j = sqrt (add dx dy)) as Hv.
    { intros i j Hij.
      destruct (Hsome i j (coord coords i) (coord coords j)) as [[dx Hdx] [dy Hdy]];
        [lia|apply coord_lookup; unfold n in *; lia..|].
      exists dx, dy. unfold v, euclidean_distance, py_pow2. by rewrite Hdx, Hdy. }
    assert (∀ i j ci cj, (i < j)%nat → coords !! i = Some ci → coords !! j = Some cj →
      (i < j < n)%nat ∧ coord coords i = ci ∧ coord coords j = cj) as Hat.
    { intros i j ci cj Hij Hi Hj. pose proof (lookup_lt_Some _ _ _ Hj).
      unfold coord. rewrite Hi, Hj. split; [unfold n; lia|done]. }
    exists (mat n (fill v (position_pairs n))). split_and!.
    + apply distance_matrix_Ok.
      rewrite (distance_matrix_with_run _ coords v id).
      * do 2 f_equal. by destruct (Nat.iter _ id tt).
      * intros i j [] Hij. destruct (Hv i j Hij) as (dx & dy & _ & _ & Heq & _).
        unfold pure_call. by rewrite Heq.
    + apply table_mat.
    + intros i j ci cj Hij Hi Hj.
      destruct (Hat i j ci cj Hij Hi Hj) as (Hn & <- & <-).
      destruct (Hv i j Hn) as (dx & dy & Hdx & Hdy & _ & Hval).
      exists dx, dy. split_and!; [done..| |]; rewrite cell_mat by lia; f_equal;
        rewrite <-Hval; by apply fill_pairs.
    + intros Hsq i j ci cj Hne Hi Hj.
      destruct (decide (i < j)%nat) as [Hij|Hij].
      * destruct (Hat i j ci cj Hij Hi Hj) as (Hn & <- & <-).
        destruct (Hv i j Hn) as (dx & dy & Hdx & Hdy & _ & Hval).
        exists dx, dy. split_and!; [done..|]. rewrite cell_mat by lia. f_equal.
        rewrite <-Hval. by apply fill_pairs.
      * destruct (Hat j i cj ci ltac:(lia) Hj Hi) as (Hn & <- & <-).
        destruct (Hv j i Hn) as (dx & dy & Hdx & Hdy & _ & Hval).
        destruct (Hsq i j _ _ Hi Hj) as [Hx Hy].
        exists dx, dy. split_and!; [congruence..|]. rewrite cell_mat by lia. f_equal.
        rewrite <-Hval. by apply fill_pairs.
    + intros i Hi. rewrite cell_mat by done. f_equal. unfold fill.
      rewrite bool_decide_eq_false_2; [done|].
      intros Hin%elem_of_position_pairs. lia.
    + intros i j. destruct (decide (i < n ∧ j < n)%nat) as [[Hi Hj]|Hout].
      * rewrite !cell_mat by done. f_equal. unfold fill.
        by rewrite (Nat.min_comm j i), (Nat.max_comm j i).
      * rewrite !cell_mat_None by lia. done.
    + rewrite (distance_matrix_with_run _ coords v S).
      * do 2 f_equal. fold n. rewrite length_position_pairs.
        generalize (n * (n - 1) / 2)%nat. intros k. induction k; simpl; congruence.
      * intros i j k Hij. destruct (Hv i j Hij) as (dx & dy & _ & _ & Heq & _).
        unfold counted. by rewrite Heq.
  - intros (i & j & ci & cj & Hij & Hi & Hj & Hnone).
    pose proof (lookup_lt_Some _ _ _ Hj).
    apply distance_matrix_raises. exists i, j. split; [lia|].
    unfold coord. rewrite Hi, Hj. simpl.
    destruct (euclidean_distance_cases ci cj) as [(dx & dy & Hdx & Hdy & _)|[_ ?]];
      [|done].
    destruct Hnone; congruence.
  - intros S dist s. apply distance_matrix_with_state.
  - apply length_position_pairs.
  - intros i j. apply elem_of_position_pairs.
  - reflexivity.
Qed.

Lemma distance_matrix_correct_witness :
  ∃ M, distance_matrix [(0, 0); (3, 0); (0, 4)]%float = Ok M ∧
       table 3 M ∧ symmetric M ∧ cell M 1 2 = Some 5%float ∧
       distance_matrix_with (counted euclidean_distance)
         [(0, 0); (3, 0); (0, 4)]%float 0%nat = Ok (M, 3%nat).
Proof.
  destruct (proj1 (distance_matrix_correct [(0, 0); (3, 0); (0, 4)]%float))
    as (M & Hrun & Htab & Hcell & _ & _ & Hsym & Hcount).
  { intros [|[|[|i]]] [|[|[|j]]] ci cj Hij Hi Hj; try lia; try discriminate;
      apply (inj Some) in Hi, Hj; subst ci cj; split; eexists; vm_compute;
      reflexivity. }
  destruct (Hcell 1%nat 2%nat (3, 0)%float (0, 4)%float ltac:(lia) eq_refl eq_refl)
    as (dx & dy & Hdx & Hdy & H12 & _).
  apply (inj Some) in Hdx, Hdy. subst dx dy.
  exists M. split_and!; [exact Hrun|exact Htab|exact Hsym|exact H12|exact Hcount].
Defined.

(** C4, as stated, fails where a square leaves the binary64 range: for
    the coordinates (0, 0) and (1e200, 0) the call raises
    [OverflowError] and returns no table. *)
Lemma distance_matrix_overflow_counterexample :
  distance_matrix [(0, 0); (0x1.4e718d7d7625ap+664, 0)]%float = Raise OverflowError ∧
  pow2 (sub 0 0x1.4e718d7d7625ap+664)%float = None.
Proof. split; vm_compute; reflexivity. Qed.

(** ** Tours and their neighbours *)

Lemma tour_ids N T : tour N T → Forall (fun c => 1 ≤ c ≤ Z.of_nat N) T.
Proof.
  intros HT. apply Forall_forall. intros c Hc. rewrite HT in Hc.
  apply list_elem_of_fmap in Hc as (k & -> & Hk%elem_of_seq). lia.
Qed.

Lemma tour_nonempty N T : tour N T → (1 ≤ N)%nat → T ≠ [].
Proof.
  intros HT HN ->. apply tour_length in HT. simpl in HT. lia.
Qed.

Lemma route_length_tour {D : Type} `{!Num D} N (M : list (list D)) T :
  table N M → (1 ≤ N)%nat → tour N T →
  route_length T M = Ok (route_length_spec T M).
Proof.
  intros HM HN HT. apply (route_length_spec_ok N); [done| |by apply tour_ids].
  by eapply tour_nonempty.
Qed.

Lemma transpose_involutive i j k : transpose i j (transpose i j k) = k.
Proof. unfold transpose. repeat case_decide; congruence. Qed.

Lemma transpose_lt i j k n :
  (i < n)%nat → (j < n)%nat → (k < n)%nat → (transpose i j k < n)%nat.
Proof. unfold transpose. repeat case_decide; lia. Qed.

Lemma swapped_tour N T p : tour N T → p ∈ position_pairs N → tour N (swapped T p).
Proof.
  destruct p as [i j]. intros HT Hp%elem_of_position_pairs.
  pose proof (tour_NoDup _ _ HT) as Hnd. pose proof (tour_length _ _ HT) as Hlen.
  unfold tour. rewrite <-HT. apply NoDup_Permutation; [|done|].
  - apply NoDup_alt. intros a b x Ha Hb.
    pose proof (lookup_lt_Some _ _ _ Ha) as Hla.
    pose proof (lookup_lt_Some _ _ _ Hb) as Hlb.
    rewrite length_swapped in Hla, Hlb.
    rewrite lookup_swapped in Ha, Hb by lia.
    pose proof (NoDup_lookup _ _ _ _ Hnd Ha Hb) as Heq.
    by rewrite <-(transpose_involutive i j a), Heq, transpose_involutive.
  - intros x. rewrite !list_elem_of_lookup. split; intros [k Hk].
    + pose proof (lookup_lt_Some _ _ _ Hk) as Hlk. rewrite length_swapped in Hlk.
      rewrite lookup_swapped in Hk by lia. eauto.
    + exists (transpose i j k). pose proof (lookup_lt_Some _ _ _ Hk) as Hlk.
      by rewrite lookup_swapped, transpose_involutive by lia.
Qed.

Lemma get_neighbors_tour N T :
  tour N T → (2 ≤ N)%nat →
  ∃ neighbors, get_neighbors T = Ok neighbors ∧ neighbors ≠ [] ∧
    Forall (tour N) neighbors.
Proof.
  intros HT HN. pose proof (tour_length _ _ HT) as Hlen.
  exists (swapped T <$> position_pairs N). split_and!.
  - by rewrite get_neighbors_swapped, Hlen.
  - intros Hnil%fmap_nil_inv.
    assert ((0, 1)%nat ∈ position_pairs N) as Hin by (apply elem_of_position_pairs; lia).
    rewrite Hnil in Hin. by apply not_elem_of_nil in Hin.
  - apply Forall_forall. intros nb (p & -> & Hp)%list_elem_of_fmap.
    by apply swapped_tour.
Qed.

Section SearchFacts.
Context {D : Type} `{!Num D}.
Implicit Types (M : list (list D)) (T : list Z).

(** On neighbours whose length the table gives, [get_best_neighbor]
    returns one of them together with its length. *)
Lemma get_best_neighbor_ok neighbors M (rl : list Z → D) :
  neighbors ≠ [] →
  Forall (fun nb => route_length nb M = Ok (rl nb)) neighbors →
  ∃ bn, get_best_neighbor neighbors M = Ok (bn, rl bn) ∧ bn ∈ neighbors.
Proof.
  intros Hne Hall. unfold get_best_neighbor.
  destruct neighbors as [|nb0 neighbors'] eqn:Hnbs; [done|].
  rewrite <-Hnbs in *.
  assert (py_get neighbors 0 = Ok nb0) as -> by (by rewrite Hnbs).
  assert (nb0 ∈ neighbors) as Hnb0 by (rewrite Hnbs; left).
  rewrite bind_Ok, (proj1 (Forall_forall _ _) Hall nb0 Hnb0), bind_Ok.
  destruct (for_each_invariant
    (fun _ '(bn, bl) => bl = rl bn ∧ bn ∈ neighbors)
    (fun '(best_neighbor, best_route_length) neighbor =>
      current_route_length ← route_length neighbor M;
      if ltb current_route_length best_route_length
      then Ok (neighbor, current_route_length)
      else Ok (best_neighbor, best_route_length))
    neighbors (nb0, rl nb0)) as ([bn bl] & Hrun & -> & Hbn).
  - done.
  - intros l1 nb l2 [bn bl] Hl [-> Hbn].
    assert (nb ∈ neighbors) as Hnb.
    { rewrite Hl. apply elem_of_app. right. left. }
    rewrite (proj1 (Forall_forall _ _) Hall nb Hnb). simpl.
    destruct (ltb (rl nb) (rl bn)); eexists (_, _); (split; [done|]); done.
  - exists bn. by rewrite Hrun.
Qed.

Lemma get_best_neighbor_nil M : get_best_neighbor [] M = Raise IndexError.
Proof. reflexivity. Qed.

(** Appending a best-so-far length that did not increase. *)
Lemma nonincreasing_snoc (traj : list D) best best' :
  nonincreasing traj → default inf (last traj) = best →
  best' = best ∨ ltb best' best = true →
  nonincreasing (traj ++ [best']) ∧ default inf (last (traj ++ [best'])) = best'.
Proof.
  intros Hmono Hlast Hstep. split; [|by rewrite last_snoc].
  intros i a b Ha Hb.
  destruct (decide (S i < length traj)%nat) as [Hi|Hi].
  - rewrite lookup_app_l in Ha, Hb by lia. by eapply Hmono.
  - assert (S i = length traj) as Hi'.
    { apply lookup_lt_Some in Hb. rewrite length_app in Hb. simpl in Hb. lia. }
    rewrite lookup_app_l in Ha by lia.
    rewrite lookup_app_r, Hi', Nat.sub_diag in Hb by lia. simpl in Hb.
    injection Hb as <-.
    rewrite last_lookup in Hlast.
    replace (pred (length traj)) with i in Hlast by lia.
    rewrite Ha in Hlast. simpl in Hlast. by subst.
Qed.
End SearchFacts.

(** ** The loop of [tsp_hcs.py] *)

Section HcsFacts.
Context {D : Type} `{!Num D}.
Context {G : Type} (shuffle : G → list Z → list Z * G).
Context (N : nat) (city_list : gmap Z (D * D)) (M : list (list D)).

Hypothesis shuffle_perm : ∀ g l, (shuffle g l).1 ≡ₚ l.
Hypothesis size_city_list : size city_list = N.
Hypothesis table_M : table N M.

Lemma random_solution_tour g : tour N (random_solution shuffle g city_list).1.
Proof. unfold random_solution, tour. by rewrite shuffle_perm, size_city_list. Qed.

Lemma hcs_iteration_run restart_threshold (s : TspHcs.state) :
  (2 ≤ N)%nat → tour N (TspHcs.current_solution s) →
  ∃ neighbors bn,
    get_neighbors (TspHcs.current_solution s) = Ok neighbors ∧
    get_best_neighbor neighbors M = Ok (bn, route_length_spec bn M) ∧
    tour N bn ∧
    TspHcs.iteration shuffle city_list M restart_threshold s
      = Ok (hcs_next shuffle city_list M restart_threshold s bn).
Proof.
  intros HN Hcur.
  destruct (get_neighbors_tour N _ Hcur HN) as (neighbors & Hnbs & Hne & Htours).
  destruct (get_best_neighbor_ok neighbors M (fun T => route_length_spec T M) Hne)
    as (bn & Hbest & Hbn).
  { eapply Forall_impl; [exact Htours|]. intros T HT. simpl.
    apply (route_length_tour N); [done|lia|done]. }
  assert (tour N bn) as Hbn' by (by apply (proj1 (Forall_forall _ _) Htours)).
  exists neighbors, bn. split_and!; [done..|].
  unfold TspHcs.iteration, hcs_next. rewrite Hnbs, bind_Ok, Hbest, bind_Ok.
  destruct (ltb (route_length_spec bn M) (TspHcs.current_route_length s)) eqn:Himp;
    cbv zeta.
  - destruct (ltb (route_length_spec bn M) (TspHcs.best_route_length s));
      case_bool_decide; try done;
      destruct (random_solution shuffle (TspHcs.gen s) city_list) as [c g'] eqn:Hc;
      pose proof (random_solution_tour (TspHcs.gen s)) as Hct; rewrite Hc in Hct;
      simpl in Hct; rewrite (route_length_tour N M c table_M) by (done || lia); done.
  - destruct (ltb (TspHcs.current_route_length s) (TspHcs.best_route_length s));
      case_bool_decide; try done;
      destruct (random_solution shuffle (TspHcs.gen s) city_list) as [c g'] eqn:Hc;
      pose proof (random_solution_tour (TspHcs.gen s)) as Hct; rewrite Hc in Hct;
      simpl in Hct; rewrite (route_length_tour N M c table_M) by (done || lia); done.
Qed.

Lemma hcs_init_run g :
  (1 ≤ N)%nat →
  ∃ s, TspHcs.init shuffle g city_list M = Ok s ∧
    tour N (TspHcs.current_solution s) ∧
    route_length (TspHcs.current_solution s) M = Ok (TspHcs.current_route_length s) ∧
    TspHcs.no_improvement_count s = 0 ∧
    TspHcs.best_route_lengths s = [] ∧
    TspHcs.best_route_length s = inf.
Proof.
  intros HN. unfold TspHcs.init.
  destruct (random_solution shuffle g city_list) as [c g'] eqn:Hc.
  pose proof (random_solution_tour g) as Hct. rewrite Hc in Hct. simpl in Hct.
  rewrite (route_length_tour N M c table_M) by done. simpl.
  eexists. split; [done|]. simpl. split_and!; try done.
  by apply (route_length_tour N).
Qed.
End HcsFacts.

(** C6. One iteration of [tsp_hcs.py], entered with a tour as current
    solution, its length, and a counter below a positive threshold.  The
    best neighbour is adopted and the counter set to [0] when it is
    strictly shorter, otherwise the counter grows by one
    ([counter_after]).  If the counter has then reached the threshold
    the current solution becomes a freshly drawn random tour and the
    counter [0]; if it has not, no random tour is drawn and the current
    solution is the adopted or the kept one.  With a positive threshold
    the counter reaches it exactly when the iteration did not improve
    and the counter was one short of it.  The state left behind meets
    the entry conditions again, as does the state before the first
    iteration. *)
Theorem hcs_restart_discipline {D : Type} `{!Num D} {G : Type}
    (shuffle : G → list Z → list Z * G) (N : nat)
    (city_list : gmap Z (D * D)) (M : list (list D))
    (restart_threshold : Z) (s : TspHcs.state) :
  (∀ g l, (shuffle g l).1 ≡ₚ l) →
  size city_list = N → (2 ≤ N)%nat → table N M →
  tour N (TspHcs.current_solution s) →
  route_length (TspHcs.current_solution s) M = Ok (TspHcs.current_route_length s) →
  0 ≤ TspHcs.no_improvement_count s →
  (0 < restart_threshold → TspHcs.no_improvement_count s < restart_threshold) →
  ∃ neighbors bn bnl s',
    get_neighbors (TspHcs.current_solution s) = Ok neighbors ∧
    get_best_neighbor neighbors M = Ok (bn, bnl) ∧
    TspHcs.iteration shuffle city_list M restart_threshold s = Ok s' ∧
    (restart_threshold
       ≤ counter_after (ltb bnl (TspHcs.current_route_length s))
           (TspHcs.no_improvement_count s) →
     (TspHcs.current_solution s', TspHcs.gen s')
       = random_solution shuffle (TspHcs.gen s) city_list ∧
     TspHcs.no_improvement_count s' = 0) ∧
    (counter_after (ltb bnl (TspHcs.current_route_length s))
       (TspHcs.no_improvement_count s) < restart_threshold →
     TspHcs.gen s' = TspHcs.gen s ∧
     TspHcs.no_improvement_count s'
       = counter_after (ltb bnl (TspHcs.current_route_length s))
           (TspHcs.no_improvement_count s) ∧
     (TspHcs.current_solution s', TspHcs.current_route_length s')
       = if ltb bnl (TspHcs.current_route_length s) then (bn, bnl)
         else (TspHcs.current_solution s, TspHcs.current_route_length s)) ∧
    (0 < restart_threshold →
     (restart_threshold
        ≤ counter_after (ltb bnl (TspHcs.current_route_length s))
            (TspHcs.no_improvement_count s)
      ↔ ltb bnl (TspHcs.current_route_length s) = false ∧
        TspHcs.no_improvement_count s + 1 = restart_threshold)) ∧
    tour N (TspHcs.current_solution s') ∧
    route_length (TspHcs.current_solution s') M
      = Ok (TspHcs.current_route_length s') ∧
    0 ≤ TspHcs.no_improvement_count s' ∧
    (0 < restart_threshold → TspHcs.no_improvement_count s' < restart_threshold) ∧
    (∀ g, ∃ s0, TspHcs.init shuffle g city_list M = Ok s0 ∧
       tour N (TspHcs.current_solution s0) ∧
       route_length (TspHcs.current_solution s0) M
         = Ok (TspHcs.current_route_length s0) ∧
       TspHcs.no_improvement_count s0 = 0).
Proof.
  intros Hperm Hsize HN HM Hcur Hlen Hc0 Hc1.
  destruct (hcs_iteration_run shuffle N city_list M Hperm Hsize HM
              restart_threshold s HN Hcur) as (neighbors & bn & Hnbs & Hbest & Hbn & Hrun).
  exists neighbors, bn, (route_length_spec bn M), (hcs_next shuffle city_list M restart_threshold s bn).
  pose proof (random_solution_tour shuffle N city_list Hperm Hsize (TspHcs.gen s)) as Hfresh.
  assert (route_length bn M = Ok (route_length_spec bn M)) as Hbnl
    by (apply (route_length_tour N); [done|lia|done]).
  split_and!; try done.
  - unfold hcs_next, counter_after. simpl. intros Hreach.
    rewrite !bool_decide_eq_true_2 by done.
    by destruct (random_solution shuffle (TspHcs.gen s) city_list).
  - unfold hcs_next, counter_after. simpl. intros Hbelow.
    rewrite !bool_decide_eq_false_2 by lia.
    by destruct (ltb (route_length_spec bn M) (TspHcs.current_route_length s)).
  - unfold counter_after. intros Hpos.
    destruct (ltb (route_length_spec bn M) (TspHcs.current_route_length s)).
    + split; [lia|]. by intros [? _].
    + split; [|lia]. intros Hreach. split; [done|]. specialize (Hc1 Hpos). lia.
  - unfold hcs_next. simpl. case_bool_decide; [done|].
    by destruct (ltb (route_length_spec bn M) (TspHcs.current_route_length s)).
  - unfold hcs_next. simpl. case_bool_decide.
    + apply (route_length_tour N); [done|lia|done].
    + by destruct (ltb (route_length_spec bn M) (TspHcs.current_route_length s)).
  - unfold hcs_next. simpl. case_bool_decide; [done|].
    destruct (ltb (route_length_spec bn M) (TspHcs.current_route_length s)); lia.
  - unfold hcs_next. simpl. intros Hpos. case_bool_decide; [done|]. lia.
  - intros g. destruct (hcs_init_run shuffle N city_list M Hperm Hsize HM g)
      as (s0 & Hs0 & ? & ? & ? & _); [lia|]. by exists s0.
Qed.

(** ** The loop of [tsp.py] *)

Lemma length_filter_le {A} (P Q : A → Prop)
    `{!∀ x, Decision (P x)} `{!∀ x, Decision (Q x)} (l : list A) :
  (∀ y, y ∈ l → P y → Q y) → (length (filter P l) ≤ length (filter Q l))%nat.
Proof.
  induction l as [|a l IH]; intros HPQ; [done|].
  rewrite !filter_cons.
  assert (length (filter P l) ≤ length (filter Q l))%nat as Hle.
  { apply IH. intros y Hy. apply HPQ. by right. }
  destruct (decide (P a)) as [HP|HP].
  - rewrite decide_True by (apply HPQ; [left|done]). simpl. lia.
  - destruct (decide (Q a)); simpl; lia.
Qed.

Lemma length_filter_lt_strict {A} (P Q : A → Prop)
    `{!∀ x, Decision (P x)} `{!∀ x, Decision (Q x)} (l : list A) x :
  (∀ y, y ∈ l → P y → Q y) → x ∈ l → Q x → ¬ P x →
  (length (filter P l) < length (filter Q l))%nat.
Proof.
  intros HPQ Hx HQ HP.
  apply list_elem_of_split in Hx as (l1 & l2 & ->).
  rewrite !filter_app, !filter_cons.
  rewrite (decide_False (P:=P x)), (decide_True (P:=Q x)) by done.
  rewrite !length_app. simpl.
  assert (length (filter P l1) ≤ length (filter Q l1))%nat.
  { apply length_filter_le. intros y Hy. apply HPQ, elem_of_app. by left. }
  assert (length (filter P l2) ≤ length (filter Q l2))%nat.
  { apply length_filter_le. intros y Hy. apply HPQ, elem_of_app. right. by right. }
  lia.
Qed.

Section TspFacts.
Context {D : Type} `{!Num D}.
Context {G : Type} (shuffle : G → list Z → list Z * G).
Context (N : nat) (city_list : gmap Z (D * D)) (M : list (list D)).

Hypothesis shuffle_perm : ∀ g l, (shuffle g l).1 ≡ₚ l.
Hypothesis size_city_list : size city_list = N.
Hypothesis table_M : table N M.
Hypothesis two_cities : (2 ≤ N)%nat.
Hypothesis ltb_irrefl : ∀ a : D, ltb a a = false.
Hypothesis ltb_trans : ∀ a b c : D, ltb a b = true → ltb b c = true → ltb a c = true.

Lemma shorter_bound x :
  (length (shorter N M x) ≤ length (permutations (Z.of_nat <$> seq 1 N)))%nat.
Proof. apply length_filter. Qed.

Lemma shorter_decreases bn x :
  tour N bn → ltb (route_length_spec bn M) x = true →
  (length (shorter N M (route_length_spec bn M)) < length (shorter N M x))%nat.
Proof.
  intros Hbn Hlt. unfold shorter.
  apply (length_filter_lt_strict _ _ _ bn).
  - intros p _ Hp. by eapply ltb_trans.
  - apply permutations_Permutation. by symmetry.
  - done.
  - by rewrite ltb_irrefl.
Qed.

Lemma climb_terminates fuel cur cur_len bn count :
  tour N bn → (length (shorter N M cur_len) < fuel)%nat →
  ∃ cur' len' count',
    Tsp.climb fuel M cur cur_len bn (route_length_spec bn M) count
      = Ok (cur', len', count').
Proof.
  revert cur cur_len bn count.
  induction fuel as [|fuel IH]; intros cur cur_len bn count Hbn Hfuel; [lia|].
  cbn [Tsp.climb].
  destruct (ltb (route_length_spec bn M) cur_len) eqn:Hlt; [|eauto].
  destruct (get_neighbors_tour N _ Hbn two_cities) as (neighbors & Hnbs & Hne & Htours).
  destruct (get_best_neighbor_ok neighbors M (fun T => route_length_spec T M) Hne)
    as (bn' & Hbest & Hbn').
  { eapply Forall_impl; [exact Htours|]. intros T HT. simpl.
    apply (route_length_tour N); [done|lia|done]. }
  cbv zeta. rewrite Hnbs, bind_Ok, Hbest, bind_Ok. apply IH.
  - by apply (proj1 (Forall_forall _ _) Htours).
  - pose proof (shorter_decreases bn cur_len Hbn Hlt). lia.
Qed.

Lemma tsp_iteration_run fuel restart_threshold (s : Tsp.state) :
  (length (permutations (Z.of_nat <$> seq 1 N)) < fuel)%nat →
  ∃ s', Tsp.iteration shuffle fuel city_list M restart_threshold s = Ok s' ∧
    Tsp.best_route_lengths s'
      = Tsp.best_route_lengths s ++ [Tsp.best_route_length s'] ∧
    (Tsp.best_route_length s' = Tsp.best_route_length s
     ∨ ltb (Tsp.best_route_length s') (Tsp.best_route_length s) = true).
Proof.
  intros Hfuel. unfold Tsp.iteration.
  destruct (random_solution shuffle (Tsp.gen s) city_list) as [c g'] eqn:Hc.
  pose proof (random_solution_tour shuffle N city_list shuffle_perm
                size_city_list (Tsp.gen s)) as Hct.
  rewrite Hc in Hct. simpl in Hct.
  rewrite (route_length_tour N M c table_M) by (done || lia).
  destruct (get_neighbors_tour N _ Hct two_cities) as (neighbors & Hnbs & Hne & Htours).
  destruct (get_best_neighbor_ok neighbors M (fun T => route_length_spec T M) Hne)
    as (bn & Hbest & Hbn).
  { eapply Forall_impl; [exact Htours|]. intros T HT. simpl.
    apply (route_length_tour N); [done|lia|done]. }
  assert (tour N bn) as Hbn' by (by apply (proj1 (Forall_forall _ _) Htours)).
  assert (∀ count, ∃ cur' len' count',
    Tsp.climb fuel M c (route_length_spec c M) bn (route_length_spec bn M) count
      = Ok (cur', len', count')) as Hclimb.
  { intros count. apply climb_terminates; [done|].
    pose proof (shorter_bound (route_length_spec c M)). lia. }
  case_bool_decide; rewrite !bind_Ok, Hnbs, bind_Ok, Hbest, bind_Ok.
  - destruct (Hclimb 0) as (cur' & len' & count' & ->). rewrite bind_Ok.
    destruct (ltb len' (Tsp.best_route_length s)) eqn:Hlt;
      eexists; (split; [done|]); simpl; auto.
  - destruct (Hclimb (Tsp.no_improvement_count s)) as (cur' & len' & count' & ->).
    rewrite bind_Ok.
    destruct (ltb len' (Tsp.best_route_length s)) eqn:Hlt;
      eexists; (split; [done|]); simpl; auto.
Qed.
End TspFacts.

(** C2. With at least two cities, an [N] by [N] table and [k ≥ 0]
    iterations, both hill-climbing loops return, and the trajectory they
    return has exactly [k] entries, never increases from one entry to
    the next, and ends with the returned best length (for [k = 0] it is
    empty and the best length is the initial infinity).  The [while]
    loop of [tsp.py] needs at most as many turns as there are tours. *)
Theorem hill_climbing_trajectory {D : Type} `{!Num D} {G : Type}
    (shuffle : G → list Z → list Z * G) (g : G) (N : nat)
    (city_list : gmap Z (D * D)) (M : list (list D))
    (k restart_threshold : Z) (fuel : nat) :
  (∀ g l, (shuffle g l).1 ≡ₚ l) →
  (∀ a : D, ltb a a = false) →
  (∀ a b c : D, ltb a b = true → ltb b c = true → ltb a c = true) →
  size city_list = N → (2 ≤ N)%nat → table N M → 0 ≤ k →
  (length (permutations (Z.of_nat <$> seq 1 N)) < fuel)%nat →
  (∃ best_solution best_route_length best_route_lengths g',
     Tsp.hill_climbing shuffle fuel g city_list M k restart_threshold
       = Ok (best_solution, best_route_length, best_route_lengths, g') ∧
     Z.of_nat (length best_route_lengths) = k ∧
     nonincreasing best_route_lengths ∧
     default inf (last best_route_lengths) = best_route_length) ∧
  (∃ best_solution best_route_length best_route_lengths g',
     TspHcs.hill_climbing shuffle g city_list M k restart_threshold
       = Ok (best_solution, best_route_length, best_route_lengths, g') ∧
     Z.of_nat (length best_route_lengths) = k ∧
     nonincreasing best_route_lengths ∧
     default inf (last best_route_lengths) = best_route_length).
Proof.
  intros Hperm Hirr Htrans Hsize HN HM Hk Hfuel. split.
  - unfold Tsp.hill_climbing.
    destruct (for_each_invariant
      (fun (done : list nat) (s : Tsp.state) =>
         length (Tsp.best_route_lengths s) = length done ∧
         nonincreasing (Tsp.best_route_lengths s) ∧
         default inf (last (Tsp.best_route_lengths s)) = Tsp.best_route_length s)
      (fun s _ => Tsp.iteration shuffle fuel city_list M restart_threshold s)
      (range 0 (Z.to_nat k)) (Tsp.init g)) as (s & -> & Hlen & Hmono & Hlast).
    + split_and!; [done| |done]. intros i a b Ha. done.
    + intros l1 x l2 s _ (Hlen & Hmono & Hlast).
      destruct (tsp_iteration_run shuffle N city_list M Hperm Hsize HM HN
                  Hirr Htrans fuel restart_threshold s Hfuel)
        as (s' & Hrun & Htraj & Hstep).
      exists s'. split; [done|]. rewrite Htraj.
      destruct (nonincreasing_snoc _ _ _ Hmono Hlast Hstep) as [Hmono' Hlast'].
      split_and!; [|done..]. rewrite !length_app, Hlen. done.
    + rewrite bind_Ok. eexists _, _, _, _. split; [done|].
      split_and!; [|done..]. rewrite Hlen. unfold range.
      rewrite length_seq. lia.
  - unfold TspHcs.hill_climbing.
    destruct (hcs_init_run shuffle N city_list M Hperm Hsize HM g)
      as (s0 & -> & Hcur0 & _ & _ & Htraj0 & Hbest0); [lia|]. rewrite bind_Ok.
    destruct (for_each_invariant
      (fun (done : list nat) (s : TspHcs.state) =>
         tour N (TspHcs.current_solution s) ∧
         length (TspHcs.best_route_lengths s) = length done ∧
         nonincreasing (TspHcs.best_route_lengths s) ∧
         default inf (last (TspHcs.best_route_lengths s)) = TspHcs.best_route_length s)
      (fun s _ => TspHcs.iteration shuffle city_list M restart_threshold s)
      (range 0 (Z.to_nat k)) s0) as (s & -> & _ & Hlen & Hmono & Hlast).
    + rewrite Htraj0, Hbest0. split_and!; [done..| |done]. intros i a b Ha. done.
    + intros l1 x l2 s _ (Hcur & Hlen & Hmono & Hlast).
      destruct (hcs_iteration_run shuffle N city_list M Hperm Hsize HM
                  restart_threshold s HN Hcur) as (neighbors & bn & _ & _ & Hbn & Hrun).
      eexists. split; [exact Hrun|].
      assert (TspHcs.best_route_length (hcs_next shuffle city_list M restart_threshold s bn)
                = TspHcs.best_route_length s
              ∨ ltb (TspHcs.best_route_length
                       (hcs_next shuffle city_list M restart_threshold s bn))
                    (TspHcs.best_route_length s) = true) as Hstep.
      { unfold hcs_next. simpl.
        destruct (ltb (route_length_spec bn M) (TspHcs.current_route_length s));
          match goal with |- context [if ltb ?a ?b then _ else _] =>
            destruct (ltb a b) eqn:Hlt end; auto. }
      destruct (nonincreasing_snoc _ _ _ Hmono Hlast Hstep) as [Hmono' Hlast'].
      split_and!.
      * unfold hcs_next. simpl. case_bool_decide.
        -- by apply random_solution_tour.
        -- by destruct (ltb (route_length_spec bn M) (TspHcs.current_route_length s)).
      * unfold hcs_next at 1. cbn [TspHcs.best_route_lengths].
        rewrite !length_app, Hlen. done.
      * exact Hmono'.
      * exact Hlast'.
    + rewrite bind_Ok. eexists _, _, _, _. split; [done|].
      split_and!; [|done..]. rewrite Hlen. unfold range.
      rewrite length_seq. lia.
Qed.

(** *** The threshold of [tsp.py] *)

Section Threshold.
Context {D : Type} `{!Num D}.
Context {G : Type} (shuffle : G → list Z → list Z * G).
Context (fuel : nat) (city_list : gmap Z (D * D)) (M : list (list D)).

Lemma climb_counter cur len bn bnl c1 c2 :
  (fun r : list Z * D * Z => r.1) <$> Tsp.climb fuel M cur len bn bnl c1
  = (fun r : list Z * D * Z => r.1) <$> Tsp.climb fuel M cur len bn bnl c2.
Proof. destruct fuel; [done|]. simpl. by destruct (ltb bnl len). Qed.

Lemma iteration_counter t1 t2 (s1 s2 : Tsp.state) :
  observe s1 = observe s2 →
  observe <$> Tsp.iteration shuffle fuel city_list M t1 s1
  = observe <$> Tsp.iteration shuffle fuel city_list M t2 s2.
Proof.
  destruct s1 as [bs1 tr1 bl1 c1 g1], s2 as [bs2 tr2 bl2 c2 g2].
  unfold observe. simpl. intros [= -> -> -> ->].
  unfold Tsp.iteration. simpl.
  destruct (random_solution shuffle g2 city_list) as [c g'].
  assert (∀ len n1 n2,
    observe <$>
      (neighbors ← get_neighbors c;
       '(best_neighbor, best_neighbor_length) ← get_best_neighbor neighbors M;
       '(current_solution, current_route_length, no_improvement_count) ←
         Tsp.climb fuel M c len best_neighbor best_neighbor_length n1;
       let '(best_route_length, best_solution) :=
         if ltb current_route_length bl2
         then (current_route_length, Some current_solution)
         else (bl2, bs2) in
       Ok {| Tsp.best_solution := best_solution;
             Tsp.best_route_lengths := tr2 ++ [best_route_length];
             Tsp.best_route_length := best_route_length;
             Tsp.no_improvement_count := no_improvement_count;
             Tsp.gen := g' |})
    = observe <$>
      (neighbors ← get_neighbors c;
       '(best_neighbor, best_neighbor_length) ← get_best_neighbor neighbors M;
       '(current_solution, current_route_length, no_improvement_count) ←
         Tsp.climb fuel M c len best_neighbor best_neighbor_length n2;
       let '(best_route_length, best_solution) :=
         if ltb current_route_length bl2
         then (current_route_length, Some current_solution)
         else (bl2, bs2) in
       Ok {| Tsp.best_solution := best_solution;
             Tsp.best_route_lengths := tr2 ++ [best_route_length];
             Tsp.best_route_length := best_route_length;
             Tsp.no_improvement_count := no_improvement_count;
             Tsp.gen := g' |})) as Htail.
  { intros len n1 n2.
    destruct (get_neighbors c) as [neighbors| |]; [|done..]. simpl.
    destruct (get_best_neighbor neighbors M) as [[bn bnl]| |]; [|done..]. simpl.
    pose proof (climb_counter c len bn bnl n1 n2) as Hclimb.
    destruct (Tsp.climb fuel M c len bn bnl n1) as [[[cur1 l1] k1]| |],
      (Tsp.climb fuel M c len bn bnl n2) as [[[cur2 l2] k2]| |];
      simpl in Hclimb; try discriminate.
    - injection Hclimb as -> ->. simpl. by destruct (ltb l2 bl2).
    - by injection Hclimb as ->.
    - done. }
  destruct (route_length c M) as [len| |] eqn:Hlen.
  - repeat case_bool_decide; simpl; apply Htail.
  - by repeat case_bool_decide.
  - by repeat case_bool_decide.
Qed.

Lemma for_each_iteration_counter t1 t2 (l : list nat) (s1 s2 : Tsp.state) :
  observe s1 = observe s2 →
  observe <$> for_each (fun s _ => Tsp.iteration shuffle fuel city_list M t1 s) l s1
  = observe <$> for_each (fun s _ => Tsp.iteration shuffle fuel city_list M t2 s) l s2.
Proof.
  revert s1 s2. induction l as [|x l IH]; intros s1 s2 Hobs; simpl.
  - by rewrite Hobs.
  - pose proof (iteration_counter t1 t2 s1 s2 Hobs) as Hstep.
    destruct (Tsp.iteration shuffle fuel city_list M t1 s1) as [s1'| |],
      (Tsp.iteration shuffle fuel city_list M t2 s2) as [s2'| |];
      simpl in Hstep; try discriminate.
    + simpl. apply IH. unfold observe in *. congruence.
    + by injection Hstep as ->.
    + done.
Qed.
End Threshold.

(** C10. In [tsp.py] the value of [restart_threshold] has no effect on
    what [hill_climbing] returns: for the same generator state, cities,
    table and iteration count, any two thresholds give the same best
    tour, best length and trajectory (or the same exception), and leave
    the generator in the same state.  Both branches of the threshold
    test draw a random tour; they differ in the counter only, and the
    counter reaches nothing but this test. *)
Theorem restart_threshold_irrelevant {D : Type} `{!Num D} {G : Type}
    (shuffle : G → list Z → list Z * G) (fuel : nat) (g : G)
    (city_list : gmap Z (D * D)) (M : list (list D)) (k t1 t2 : Z) :
  Tsp.hill_climbing shuffle fuel g city_list M k t1
  = Tsp.hill_climbing shuffle fuel g city_list M k t2.
Proof.
  unfold Tsp.hill_climbing.
  pose proof (for_each_iteration_counter shuffle fuel city_list M t1 t2
                (range 0 (Z.to_nat k)) (Tsp.init g) (Tsp.init g) eq_refl) as Hrun.
  destruct (for_each (fun s _ => Tsp.iteration shuffle fuel city_list M t1 s)
              (range 0 (Z.to_nat k)) (Tsp.init g)) as [s1| |],
    (for_each (fun s _ => Tsp.iteration shuffle fuel city_list M t2 s)
       (range 0 (Z.to_nat k)) (Tsp.init g)) as [s2| |];
    simpl in Hrun; try discriminate.
  - unfold observe in Hrun. simpl. by injection Hrun as -> -> -> ->.
  - by injection Hrun as ->.
  - done.
Qed.

(** ** A single city *)

Lemma range_head n : (1 ≤ n)%nat → range 0 n = 0%nat :: range 1 n.
Proof.
  intros Hn. unfold range. destruct n as [|n]; [lia|].
  simpl. by rewrite Nat.sub_0_r.
Qed.

Lemma route_length_single {D : Type} `{!Num D} (M : list (list D)) :
  table 1 M → ∃ d, route_length [1] M = Ok d.
Proof.
  intros HM. exists (route_length_spec [1] M).
  apply (route_length_spec_ok 1); [done..|]. by repeat constructor.
Qed.

(** C9 fails on the code: with one city both loops raise [IndexError].
    [get_neighbors] returns the empty list and [get_best_neighbor] reads
    [neighbors[0]] of it in the first iteration. *)
Theorem single_city_index_error {D : Type} `{!Num D} {G : Type}
    (shuffle : G → list Z → list Z * G) (fuel : nat) (g : G)
    (city_list : gmap Z (D * D)) (M : list (list D)) (k restart_threshold : Z) :
  (∀ g l, (shuffle g l).1 ≡ₚ l) →
  size city_list = 1%nat → table 1 M → 1 ≤ k →
  get_neighbors [1] = Ok [] ∧
  get_best_neighbor [] M = Raise IndexError ∧
  Tsp.hill_climbing shuffle fuel g city_list M k restart_threshold
    = Raise IndexError ∧
  TspHcs.hill_climbing shuffle g city_list M k restart_threshold
    = Raise IndexError.
Proof.
  intros Hperm Hsize HM Hk.
  assert (∀ g, ∃ g', random_solution shuffle g city_list = ([1], g')) as Hdraw.
  { intros g0. unfold random_solution. rewrite Hsize.
    change (Z.of_nat <$> seq 1 1) with [1].
    pose proof (Hperm g0 [1]) as Hp. apply Permutation_singleton_r in Hp.
    destruct (shuffle g0 [1]) as [c g']. simpl in Hp. subst c. by exists g'. }
  destruct (route_length_single M HM) as [d Hd].
  split_and!; [done..| |].
  - unfold Tsp.hill_climbing. rewrite range_head by lia. cbn [for_each].
    assert (Tsp.iteration shuffle fuel city_list M restart_threshold (Tsp.init g)
            = Raise IndexError) as ->; [|done].
    unfold Tsp.iteration. destruct (Hdraw (Tsp.gen (Tsp.init g))) as [g' ->].
    rewrite Hd. by case_bool_decide.
  - unfold TspHcs.hill_climbing, TspHcs.init.
    destruct (Hdraw g) as [g' ->]. rewrite Hd, bind_Ok, range_head by lia.
    cbn [for_each]. by unfold TspHcs.iteration.
Qed.

Lemma reverse_shuffle_perm (g : nat) (l : list Z) : (reverse_shuffle g l).1 ≡ₚ l.
Proof. apply reverse_Permutation. Qed.

Lemma xZ_ltb_irrefl (a : xZ) : ltb a a = false.
Proof. destruct a; simpl; [|done]. apply bool_decide_eq_false_2. lia. Qed.

Lemma xZ_ltb_trans (a b c : xZ) : ltb a b = true → ltb b c = true → ltb a c = true.
Proof.
  destruct a, b, c; simpl; try done.
  rewrite !bool_decide_eq_true. lia.
Qed.

Lemma table3_table : table 3 table3.
Proof. split; [reflexivity|]. repeat constructor. Qed.

Lemma hill_climbing_trajectory_witness :
  ∃ r1 r2,
    Tsp.hill_climbing reverse_shuffle 7 0%nat cities3 table3 2 1 = Ok r1 ∧
    TspHcs.hill_climbing reverse_shuffle 0%nat cities3 table3 2 1 = Ok r2 ∧
    length r1.1.2 = 2%nat ∧ length r2.1.2 = 2%nat.
Proof.
  destruct (hill_climbing_trajectory reverse_shuffle 0%nat 3 cities3 table3 2 1 7
              reverse_shuffle_perm xZ_ltb_irrefl xZ_ltb_trans eq_refl
              ltac:(lia) table3_table ltac:(lia) ltac:(vm_compute; lia))
    as [(bs1 & bl1 & tr1 & g1 & Hr1 & Hl1 & _) (bs2 & bl2 & tr2 & g2 & Hr2 & Hl2 & _)].
  exists (bs1, bl1, tr1, g1), (bs2, bl2, tr2, g2).
  split; [exact Hr1|]. split; [exact Hr2|]. simpl. lia.
Defined.

Lemma hcs_restart_discipline_witness :
  ∃ s', TspHcs.iteration reverse_shuffle cities3 table3 1
          {| TspHcs.best_solution := None;
             TspHcs.best_route_length := PInf;
             TspHcs.best_route_lengths := [];
             TspHcs.no_improvement_count := 0;
             TspHcs.current_solution := [1; 2; 3];
             TspHcs.current_route_length := Fin 12;
             TspHcs.gen := 0%nat |} = Ok s' ∧
        TspHcs.no_improvement_count s' = 0 ∧
        TspHcs.current_solution s' = [3; 2; 1].
Proof.
  destruct (hcs_restart_discipline reverse_shuffle 3 cities3 table3 1
              {| TspHcs.best_solution := None;
                 TspHcs.best_route_length := PInf;
                 TspHcs.best_route_lengths := [];
                 TspHcs.no_improvement_count := 0;
                 TspHcs.current_solution := [1; 2; 3];
                 TspHcs.current_route_length := Fin 12;
                 TspHcs.gen := 0%nat |}
              reverse_shuffle_perm eq_refl ltac:(lia) table3_table
              ltac:(unfold tour; simpl; reflexivity) eq_refl
              ltac:(simpl; lia) ltac:(simpl; lia))
    as (neighbors & bn & bnl & s' & Hnbs & Hbest & Hrun & Hrestart & _).
  exists s'. split; [exact Hrun|].
  vm_compute in Hnbs. injection Hnbs as <-.
  vm_compute in Hbest. injection Hbest as <- <-.
  destruct Hrestart as [Hcur Hcount]; [vm_compute; discriminate|].
  split; [exact Hcount|]. by injection Hcur.
Defined.

Lemma single_city_index_error_witness :
  Tsp.hill_climbing (fun (g : unit) l => (l, g)) 0 tt {[1 := (0, 0)%float]}
    [[0%float]] 1000 10 = Raise IndexError ∧
  TspHcs.hill_climbing (fun (g : unit) l => (l, g)) tt {[1 := (0, 0)%float]}
    [[0%float]] 100 10 = Raise IndexError.
Proof.
  split.
  - refine (proj1 (proj2 (proj2 (single_city_index_error
      (fun (g : unit) l => (l, g)) 0 tt {[1 := (0, 0)%float]} [[0%float]] 1000 10
      _ _ _ _))));
      [intros; reflexivity | reflexivity
      | split; [reflexivity | repeat constructor] | lia].
  - refine (proj2 (proj2 (proj2 (single_city_index_error
      (fun (g : unit) l => (l, g)) 0 tt {[1 := (0, 0)%float]} [[0%float]] 100 10
      _ _ _ _))));
      [intros; reflexivity | reflexivity
      | split; [reflexivity | repeat constructor] | lia].
Defined.

(** ** Reading the coordinate file *)

Section ReadingFacts.
Context {D : Type} `{!Num D}.
Context (py_int : string → option Z) (py_float : string → option D).

Lemma py_get_exn {A} (l : list A) k e : py_get l k = Raise e → e = IndexError.
Proof.
  unfold py_get. destruct (py_norm (length l) k) as [i|]; [|congruence].
  destruct (l !! i); congruence.
Qed.

Lemma read_city_exn line e :
  read_city py_int py_float line = Raise e → e = IndexError ∨ e = ValueError.
Proof.
  unfold read_city, int_of, float_of. intros Hrun.
  repeat match type of Hrun with
  | (py_get ?l ?k ≫= _) = _ =>
      let H := fresh in
      destruct (py_get l k) eqn:H; simpl in Hrun;
      [|apply py_get_exn in H; left; congruence|discriminate]
  | (match ?o with Some _ => _ | None => _ end ≫= _) = _ =>
      destruct o; simpl in Hrun; [|right; congruence]
  end.
  discriminate.
Qed.

Lemma py_at_None {A} (l : list A) i : l !! i = None → py_at l i = Raise IndexError.
Proof.
  intros Hi. unfold py_at, py_get.
  destruct (py_norm (length l) (Z.of_nat i)) as [j|] eqn:Hj; [|done].
  unfold py_norm in Hj. repeat case_bool_decide; try done; try lia.
  injection Hj as <-. by rewrite Nat2Z.id, Hi.
Qed.

Lemma py_get_Fuel {A} (l : list A) k : py_get l k = Fuel → False.
Proof.
  unfold py_get. destruct (py_norm (length l) k) as [i|]; [|done].
  by destruct (l !! i).
Qed.

Lemma read_city_Fuel line : read_city py_int py_float line = Fuel → False.
Proof.
  unfold read_city, int_of, float_of. intros Hrun.
  destruct (py_get (split (strip line)) 0) as [t0| |] eqn:H0; simpl in Hrun;
    [|done|by apply py_get_Fuel in H0].
  destruct (py_int t0); simpl in Hrun; [|done].
  destruct (py_get (split (strip line)) 1) as [t1| |] eqn:H1; simpl in Hrun;
    [|done|by apply py_get_Fuel in H1].
  destruct (py_float t1); simpl in Hrun; [|done].
  destruct (py_get (split (strip line)) 2) as [t2| |] eqn:H2; simpl in Hrun;
    [|done|by apply py_get_Fuel in H2].
  by destruct (py_float t2).
Qed.

Lemma read_city_fields line r :
  read_city py_int py_float line = Ok r → (3 ≤ length (split (strip line)))%nat.
Proof.
  unfold read_city. intros Hrun.
  destruct (decide (3 ≤ length (split (strip line)))%nat) as [|Hshort]; [done|].
  exfalso.
  assert (py_get (split (strip line)) 2 = Raise IndexError) as H2.
  { apply (py_at_None _ 2). apply lookup_ge_None. lia. }
  rewrite H2 in Hrun.
  destruct (py_get (split (strip line)) 0) as [t0| |]; simpl in Hrun; [|done..].
  destruct (int_of py_int t0); simpl in Hrun; [|done..].
  destruct (py_get (split (strip line)) 1) as [t1| |]; simpl in Hrun; [|done..].
  by destruct (float_of py_float t1).
Qed.

Lemma read_lines_exn lines flag m e :
  read_lines py_int py_float lines flag m = Raise e →
  e = IndexError ∨ e = ValueError.
Proof.
  revert flag m. induction lines as [|line lines IH]; intros flag m; simpl; [done|].
  destruct (startswith line "NODE_COORD_SECTION"); [apply IH|].
  destruct (startswith line "EOF"); [done|].
  destruct flag; [|apply IH].
  destruct (read_city py_int py_float line) as [[city_id xy]| |] eqn:Hcity; simpl.
  - apply IH.
  - intros [= <-]. by eapply read_city_exn.
  - done.
Qed.

Lemma read_lines_no_marker lines m :
  Forall (fun line => startswith line "NODE_COORD_SECTION" = false) lines →
  read_lines py_int py_float lines false m = Ok m.
Proof.
  induction 1 as [|line lines Hline _ IH]; simpl; [done|].
  rewrite Hline. by destruct (startswith line "EOF").
Qed.
End ReadingFacts.

(** C7 (amended). What [read_tsp] does with malformed input.  A file
    without a [NODE_COORD_SECTION] line is accepted and gives the empty
    dictionary.  Inside the section, a line whose first three fields are
    not an integer and two floats raises [ValueError], and a line of
    fewer than three fields raises [IndexError] or [ValueError].  Of two
    lines with the same identifier the later one replaces the earlier,
    without an error.  [ParseError] is never raised. *)
Theorem read_tsp_malformed {D : Type} `{!Num D}
    (py_int : string → option Z) (py_float : string → option D) :
  (∀ lines,
     Forall (fun line => startswith line "NODE_COORD_SECTION" = false) lines →
     read_tsp py_int py_float lines = Ok ∅) ∧
  (∀ line rest m t0 t1 t2 ts,
     startswith line "NODE_COORD_SECTION" = false →
     startswith line "EOF" = false →
     split (strip line) = t0 :: t1 :: t2 :: ts →
     py_int t0 = None ∨ py_float t1 = None ∨ py_float t2 = None →
     read_lines py_int py_float (line :: rest) true m = Raise ValueError) ∧
  (∀ line rest m,
     startswith line "NODE_COORD_SECTION" = false →
     startswith line "EOF" = false →
     (length (split (strip line)) < 3)%nat →
     read_lines py_int py_float (line :: rest) true m = Raise IndexError ∨
     read_lines py_int py_float (line :: rest) true m = Raise ValueError) ∧
  (∀ l1 l2 city_id xy1 xy2,
     startswith l1 "NODE_COORD_SECTION" = false → startswith l1 "EOF" = false →
     startswith l2 "NODE_COORD_SECTION" = false → startswith l2 "EOF" = false →
     read_city py_int py_float l1 = Ok (city_id, xy1) →
     read_city py_int py_float l2 = Ok (city_id, xy2) →
     read_tsp py_int py_float [ln "NODE_COORD_SECTION"; l1; l2]
       = Ok {[city_id := xy2]}) ∧
  (∀ lines, read_tsp py_int py_float lines = Raise ParseError → False).
Proof.
  split_and!.
  - intros lines Hlines. by apply read_lines_no_marker.
  - intros line rest m t0 t1 t2 ts Hm He Hsplit Hbad.
    cbn [read_lines]. rewrite Hm, He. unfold read_city. rewrite Hsplit.
    assert (py_get (t0 :: t1 :: t2 :: ts) 0 = Ok t0) as ->
      by exact (py_at_lookup (t0 :: t1 :: t2 :: ts) 0%nat t0 eq_refl).
    assert (py_get (t0 :: t1 :: t2 :: ts) 1 = Ok t1) as ->
      by exact (py_at_lookup (t0 :: t1 :: t2 :: ts) 1%nat t1 eq_refl).
    assert (py_get (t0 :: t1 :: t2 :: ts) 2 = Ok t2) as ->
      by exact (py_at_lookup (t0 :: t1 :: t2 :: ts) 2%nat t2 eq_refl).
    unfold int_of, float_of. simpl.
    destruct (py_int t0); simpl; [|done].
    destruct (py_float t1); simpl; [|done].
    destruct (py_float t2); simpl; [|done].
    by destruct Hbad as [|[|]].
  - intros line rest m Hm He Hshort.
    cbn [read_lines]. rewrite Hm, He.
    destruct (read_city py_int py_float line) as [[city_id xy]| |] eqn:Hcity.
    + apply read_city_fields in Hcity. lia.
    + simpl. apply read_city_exn in Hcity as [->| ->]; auto.
    + by apply read_city_Fuel in Hcity.
  - intros l1 l2 city_id xy1 xy2 Hm1 He1 Hm2 He2 Hc1 Hc2.
    unfold read_tsp. cbn [read_lines].
    change (startswith (ln "NODE_COORD_SECTION") "NODE_COORD_SECTION") with true.
    cbv iota. rewrite Hm1, He1, Hc1, Hm2, He2, Hc2. simpl.
    by rewrite insert_insert_eq.
  - intros lines Hrun. apply read_lines_exn in Hrun as [?|?]; discriminate.
Qed.

(** C7, as stated, fails: the first file has no marker and the second
    gives city 1 twice, and both are read without an error. *)
Lemma read_tsp_malformed_counterexample :
  read_tsp dec_int dec_float [ln "1 0.0 0.0"; ln "2 3.0 0.0"; ln "EOF"] = Ok ∅ ∧
  read_tsp dec_int dec_float
    [ln "NODE_COORD_SECTION"; ln "1 0.0 0.0"; ln "1 3.0 4.0"; ln "EOF"]
    = Ok {[1 := (3, 4)%float]} ∧
  read_tsp dec_int dec_float [ln "NODE_COORD_SECTION"; ln "1 0.0 x"; ln "EOF"]
    = Raise ValueError.
Proof. split_and!; vm_compute; reflexivity. Qed.

(** ** The program on an empty city set *)

(** C8 (amended). When no city is parsed, [main] of [tsp.py] fails with
    [IndexError]: nothing checks the city set, the distance table of no
    coordinates is the empty table, the random tour of the first
    iteration is empty, and [route_length] reads its last element. *)
Theorem main_empty_city_set {D : Type} `{!Num D, !Metric D}
    (py_int : string → option Z) (py_float : string → option D) {G : Type}
    (shuffle : G → list Z → list Z * G) (fuel : nat) (argv : list string)
    (files : string → list string) (g : G) (tsp_file : string) :
  (∀ g l, (shuffle g l).1 ≡ₚ l) →
  length argv = 2%nat → argv !! 1%nat = Some tsp_file →
  read_tsp py_int py_float (files tsp_file) = Ok ∅ →
  main py_int py_float shuffle fuel argv files g = Raise IndexError ∧
  distance_matrix (D:=D) [] = Ok [] ∧
  (random_solution shuffle g (∅ : gmap Z (D * D))).1 = [] ∧
  route_length [] ([] : list (list D)) = Raise IndexError.
Proof.
  intros Hperm Hargv Hfile Hread.
  assert (∀ g0, ∃ g', random_solution shuffle g0 (∅ : gmap Z (D * D)) = ([], g'))
    as Hdraw.
  { intros g0. unfold random_solution. rewrite map_size_empty.
    change (Z.of_nat <$> seq 1 0) with (@nil Z).
    pose proof (Hperm g0 []) as Hp. apply Permutation_nil_r in Hp.
    destruct (shuffle g0 []) as [c g']. simpl in Hp. subst c. by exists g'. }
  split_and!; [|done| |done].
  - unfold main. rewrite bool_decide_eq_false_2 by (intros Hne; by apply Hne).
    rewrite (py_at_lookup argv 1 tsp_file Hfile : py_get argv 1 = Ok tsp_file).
    rewrite bind_Ok, Hread, bind_Ok.
    assert (sorted_keys (∅ : gmap Z (D * D)) = []) as ->.
    { unfold sorted_keys. by rewrite dom_empty_L, elements_empty. }
    cbn [for_each]. rewrite bind_Ok.
    change (distance_matrix (D:=D) []) with (Ok (@nil (list D))).
    rewrite bind_Ok. unfold Tsp.hill_climbing. rewrite range_head by lia.
    cbn [for_each].
    assert (Tsp.iteration shuffle fuel ∅ [] 10 (Tsp.init g) = Raise IndexError)
      as ->; [|done].
    unfold Tsp.iteration. destruct (Hdraw (Tsp.gen (Tsp.init g))) as [g' ->].
    by case_bool_decide.
  - by destruct (Hdraw g) as [g' ->].
Qed.

Lemma main_empty_city_set_witness :
  main dec_int dec_float (fun (g : unit) l => (l, g)) 0
    ["tsp.py"; "empty.tsp"]%string
    (fun _ => [ln "NAME: empty"; ln "NODE_COORD_SECTION"; ln "EOF"]) tt
  = Raise IndexError.
Proof.
  refine (proj1 (main_empty_city_set dec_int dec_float
    (fun (g : unit) l => (l, g)) 0 ["tsp.py"; "empty.tsp"]%string
    (fun _ => [ln "NAME: empty"; ln "NODE_COORD_SECTION"; ln "EOF"]) tt
    "empty.tsp" _ _ _ _));
    [intros; reflexivity | reflexivity | reflexivity | vm_compute; reflexivity].
Defined.

(** C8, as stated, fails: on a file with no city the exception that ends
    the program is [IndexError], raised inside the search. *)
Lemma main_empty_city_set_counterexample :
  read_tsp dec_int dec_float [ln "NODE_COORD_SECTION"; ln "EOF"] = Ok ∅ ∧
  main dec_int dec_float (fun (g : unit) l => (l, g)) 0
    ["tsp.py"; "empty.tsp"]%string
    (fun _ => [ln "NODE_COORD_SECTION"; ln "EOF"]) tt
  = Raise IndexError ∧
  IndexError ≠ InvalidInstanceError.
Proof. split_and!; [vm_compute; reflexivity..|discriminate]. Qed.

(** ** The scenarios of the specification *)

Example get_neighbors_three_cities :
  get_neighbors [1; 2; 3] = Ok [[2; 1; 3]; [3; 2; 1]; [1; 3; 2]].
Proof. reflexivity. Qed.

Example get_neighbors_single_city : get_neighbors [1] = Ok [].
Proof. reflexivity. Qed.

(** Four cities on the unit square: the perimeter is 4. *)
Example route_length_unit_square :
  (M ← distance_matrix [(0, 0); (0, 1); (1, 1); (1, 0)]%float;
   route_length [1; 2; 3; 4] M) = Ok 4%float.
Proof. vm_compute. reflexivity. Qed.

(** The 3-4-5 triangle, from the file to the table. *)
Example distance_matrix_triangle :
  (city_list ← read_tsp dec_int dec_float
     [ln "NODE_COORD_SECTION"; ln "1 0.0 0.0"; ln "2 3.0 0.0"; ln "3 0.0 4.0";
      ln "EOF"];
   coords_list ← for_each (fun coords city =>
                     c ← dict_get city_list city; Ok (coords ++ [c]))
                   (sorted_keys city_list) [];
   distance_matrix coords_list)
  = Ok [[0; 3; 4]; [3; 0; 5]; [4; 5; 0]]%float.
Proof. vm_compute. reflexivity. Qed.

(** * Further properties of the code *)

(** ** The best neighbour *)

Section BestNeighbor.
Context {D : Type} `{!Num D}.
Implicit Types (M : list (list D)).

Hypothesis ltb_irrefl : ∀ a : D, ltb a a = false.
Hypothesis ltb_trans : ∀ a b c : D, ltb a b = true → ltb b c = true → ltb a c = true.

Lemma ltb_not_below (x b b' : D) :
  ltb x b = false → ltb b' b = true → ltb x b' = false.
Proof.
  intros Hxb Hb'. destruct (ltb x b') eqn:Hx; [|done].
  by rewrite (ltb_trans x b' b Hx Hb') in Hxb.
Qed.

Lemma get_best_neighbor_min neighbors M (rl : list Z → D) :
  neighbors ≠ [] →
  Forall (fun nb => route_length nb M = Ok (rl nb)) neighbors →
  ∃ bn, get_best_neighbor neighbors M = Ok (bn, rl bn) ∧ bn ∈ neighbors ∧
    ∀ nb, nb ∈ neighbors → ltb (rl nb) (rl bn) = false.
Proof.
  intros Hne Hall. unfold get_best_neighbor.
  destruct neighbors as [|nb0 neighbors'] eqn:Hnbs; [done|].
  rewrite <-Hnbs in *.
  assert (py_get neighbors 0 = Ok nb0) as -> by (by rewrite Hnbs).
  assert (nb0 ∈ neighbors) as Hnb0 by (rewrite Hnbs; left).
  rewrite bind_Ok, (proj1 (Forall_forall _ _) Hall nb0 Hnb0), bind_Ok.
  destruct (for_each_invariant
    (fun done '(bn, bl) => bl = rl bn ∧ bn ∈ neighbors ∧
       ∀ nb, nb ∈ done → ltb (rl nb) (rl bn) = false)
    (fun '(best_neighbor, best_route_length) neighbor =>
      current_route_length ← route_length neighbor M;
      if ltb current_route_length best_route_length
      then Ok (neighbor, current_route_length)
      else Ok (best_neighbor, best_route_length))
    neighbors (nb0, rl nb0)) as ([bn bl] & Hrun & -> & Hbn & Hmin).
  - split_and!; [done..|]. intros nb Hnb. by apply not_elem_of_nil in Hnb.
  - intros l1 nb l2 [bn bl] Hl (-> & Hbn & Hmin).
    assert (nb ∈ neighbors) as Hnb.
    { rewrite Hl. apply elem_of_app. right. left. }
    rewrite (proj1 (Forall_forall _ _) Hall nb Hnb), bind_Ok.
    destruct (ltb (rl nb) (rl bn)) eqn:Hlt; eexists (_, _); (split; [done|]);
      (split_and!; [done..|]); intros x [Hx| ->%list_elem_of_singleton]%elem_of_app.
    + eapply ltb_not_below; [by apply Hmin|done].
    + apply ltb_irrefl.
    + by apply Hmin.
    + done.
  - exists bn. by rewrite Hrun.
Qed.
End BestNeighbor.

(** X1. [get_best_neighbor] on a non-empty list of neighbours whose
    lengths the table gives returns one of them with its length, and no
    neighbour of the list is strictly shorter; on the empty list it
    raises [IndexError]. *)
Theorem get_best_neighbor_minimal {D : Type} `{!Num D}
    (neighbors : list (list Z)) (M : list (list D)) :
  (∀ a : D, ltb a a = false) →
  (∀ a b c : D, ltb a b = true → ltb b c = true → ltb a c = true) →
  Forall (fun nb => ∃ d, route_length nb M = Ok d) neighbors →
  (neighbors = [] → get_best_neighbor neighbors M = Raise IndexError) ∧
  (neighbors ≠ [] →
   ∃ bn bl, get_best_neighbor neighbors M = Ok (bn, bl) ∧
     bn ∈ neighbors ∧ route_length bn M = Ok bl ∧
     ∀ nb d, nb ∈ neighbors → route_length nb M = Ok d → ltb d bl = false).
Proof.
  intros Hirr Htrans Hall. split; [by intros ->|]. intros Hne.
  destruct (get_best_neighbor_min Hirr Htrans neighbors M (length_or M) Hne)
    as (bn & Hrun & Hbn & Hmin).
  { eapply Forall_impl; [exact Hall|]. intros nb [d Hd]. unfold length_or.
    by rewrite Hd. }
  assert (∀ nb d, nb ∈ neighbors → route_length nb M = Ok d → length_or M nb = d)
    as Hlen.
  { intros nb d _ Hd. unfold length_or. by rewrite Hd. }
  destruct (proj1 (Forall_forall _ _) Hall bn Hbn) as [bl Hbl].
  exists bn, bl. rewrite Hrun, (Hlen bn bl Hbn Hbl). split_and!; try done.
  intros nb d Hnb Hd. rewrite <-(Hlen nb d Hnb Hd), <-(Hlen bn bl Hbn Hbl).
  by apply Hmin.
Qed.

Lemma get_best_neighbor_minimal_witness :
  ∃ bn bl, get_best_neighbor [[1; 2; 3]; [2; 1; 3]] table3 = Ok (bn, bl) ∧
    bn ∈ [[1; 2; 3]; [2; 1; 3]] ∧ route_length bn table3 = Ok bl.
Proof.
  destruct (get_best_neighbor_minimal [[1; 2; 3]; [2; 1; 3]] table3
              xZ_ltb_irrefl xZ_ltb_trans) as [_ Hmin].
  - repeat constructor; eexists; reflexivity.
  - destruct (Hmin ltac:(discriminate)) as (bn & bl & Hrun & Hbn & Hbl & _).
    exists bn, bl. split; [exact Hrun|]. split; [exact Hbn|exact Hbl].
Defined.

(** ** The neighbourhood *)

Lemma swapped_swapped (T : list Z) i j :
  (i < length T)%nat → (j < length T)%nat → swapped (swapped T (i, j)) (i, j) = T.
Proof.
  intros Hi Hj. apply list_eq. intros k.
  rewrite lookup_swapped by (by rewrite length_swapped).
  by rewrite lookup_swapped, transpose_involutive.
Qed.

Lemma swapped_Permutation (T : list Z) p : swapped T p ≡ₚ T.
Proof.
  unfold swapped. destruct (T !! p.1) as [x|] eqn:Hx; [|done].
  destruct (T !! p.2) as [y|] eqn:Hy; [|done].
  by apply Permutation_insert_swap.
Qed.

(** X2. For every list [T], also one with repeated cities:
    [get_neighbors] never raises, each neighbour is a rearrangement of
    [T] of the same length, and [T] is in turn among the neighbours of
    each of its neighbours (the swap that made it undoes it). *)
Theorem get_neighbors_symmetric (T : list Z) :
  ∃ neighbors, get_neighbors T = Ok neighbors ∧
    ∀ nb, nb ∈ neighbors →
      nb ≡ₚ T ∧ length nb = length T ∧
      ∃ back, get_neighbors nb = Ok back ∧ T ∈ back.
Proof.
  exists (neighbors_of T). split; [apply get_neighbors_swapped|].
  intros nb ([i j] & -> & Hp)%list_elem_of_fmap.
  pose proof Hp as Hij%elem_of_position_pairs.
  split_and!.
  - apply swapped_Permutation.
  - apply length_swapped.
  - exists (neighbors_of (swapped T (i, j))). split; [apply get_neighbors_swapped|].
    apply list_elem_of_fmap. exists (i, j). split.
    + symmetry. apply swapped_swapped; lia.
    + by rewrite length_swapped.
Qed.

(** ** The identifiers [route_length] accepts *)

Lemma py_norm_in n k :
  - Z.of_nat n ≤ k < Z.of_nat n →
  py_norm n k = Some (Z.to_nat (if bool_decide (k < 0) then k + Z.of_nat n else k)).
Proof.
  intros Hk. unfold py_norm. destruct (decide (k < 0)).
  - rewrite !(bool_decide_eq_true_2 (k < 0)) by done.
    by rewrite bool_decide_eq_true_2 by lia.
  - rewrite !(bool_decide_eq_false_2 (k < 0)) by done.
    by rewrite bool_decide_eq_true_2 by lia.
Qed.

Lemma py_norm_out n k : k < - Z.of_nat n ∨ Z.of_nat n ≤ k → py_norm n k = None.
Proof.
  intros Hk. unfold py_norm. destruct (decide (k < 0)).
  - rewrite !(bool_decide_eq_true_2 (k < 0)) by done.
    by rewrite bool_decide_eq_false_2 by lia.
  - rewrite !(bool_decide_eq_false_2 (k < 0)) by done.
    by rewrite bool_decide_eq_false_2 by lia.
Qed.

Section IndexFacts.
Context {D : Type} `{!Num D}.
Implicit Types (M : list (list D)) (T : list Z).

Lemma py_norm_wrap_id N c :
  1 - Z.of_nat N ≤ c ≤ Z.of_nat N →
  py_norm N (c - 1) = Some (Z.to_nat (wrap_id N c - 1)).
Proof.
  intros Hc. rewrite py_norm_in by lia. unfold wrap_id. f_equal. f_equal.
  repeat case_bool_decide; lia.
Qed.

Lemma edge_wrap N M e :
  table N M →
  1 - Z.of_nat N ≤ e.1 ≤ Z.of_nat N → 1 - Z.of_nat N ≤ e.2 ≤ Z.of_nat N →
  edge M e = Ok (dist M (wrap_id N e.1) (wrap_id N e.2)).
Proof.
  intros [HN Hrows] H1 H2. unfold edge, entry, dist, cell, py_get.
  rewrite HN, (py_norm_wrap_id N e.1 H1).
  assert (1 ≤ wrap_id N e.1 ≤ Z.of_nat N ∧ 1 ≤ wrap_id N e.2 ≤ Z.of_nat N) as [? ?].
  { unfold wrap_id. repeat case_bool_decide; lia. }
  destruct (lookup_lt_is_Some_2 M (Z.to_nat (wrap_id N e.1 - 1))) as [row Hrow]; [lia|].
  rewrite Hrow. simpl.
  pose proof (Forall_lookup_1 _ _ _ _ Hrows Hrow) as Hlen. simpl in Hlen.
  rewrite Hlen, (py_norm_wrap_id N e.2 H2).
  destruct (lookup_lt_is_Some_2 row (Z.to_nat (wrap_id N e.2 - 1))) as [d Hd]; [lia|].
  by rewrite Hd.
Qed.

Lemma edge_out N M e :
  table N M → e.1 < 1 - Z.of_nat N ∨ Z.of_nat N < e.1 →
  edge M e = Raise IndexError.
Proof.
  intros [HN _] H1. unfold edge, entry, py_get.
  by rewrite HN, py_norm_out by lia.
Qed.

Lemma for_each_add_edge_values M (v : Z * Z → D) es acc :
  Forall (fun e => edge M e = Ok (v e)) es →
  for_each (add_edge M) es acc = Ok (foldl add acc (v <$> es)).
Proof.
  intros Hes. revert acc. induction Hes as [|e es He _ IH]; intros acc; [done|].
  cbn [for_each fmap list_fmap foldl].
  assert (add_edge M acc e = Ok (add acc (v e))) as ->.
  { unfold add_edge. by rewrite He. }
  apply IH.
Qed.

Lemma path_fmap (f : Z → Z) T : path (f <$> T) = prod_map f f <$> path T.
Proof.
  induction T as [|x T IH]; [done|]. destruct T as [|y T]; [done|].
  change (path (f <$> x :: y :: T)) with ((f x, f y) :: path (f <$> y :: T)).
  by rewrite IH.
Qed.

Lemma closed_path_fst T z a :
  last T = Some z → (path T ++ [(z, a)]).*1 = T.
Proof.
  induction T as [|x T IH]; [done|]. destruct T as [|y T].
  - by intros [= ->].
  - intros Hz. rewrite last_cons_cons in Hz.
    change (path (x :: y :: T)) with ((x, y) :: path (y :: T)).
    cbn [app fmap list_fmap fst]. f_equal. by apply IH.
Qed.
End IndexFacts.

(** X3. [route_length] does not validate identifiers, it indexes with
    them.  On an [N] by [N] table it accepts a non-empty list exactly
    when every identifier lies in [1 - N .. N]; an identifier [c ≤ 0] is
    then read as the city [c + N], counted from the end as Python does
    for negative indices.  An identifier outside this range, and the
    empty list, raise [IndexError]. *)
Theorem route_length_index_bounds {D : Type} `{!Num D} (N : nat)
    (M : list (list D)) (T : list Z) :
  table N M → T ≠ [] →
  (Forall (fun c => 1 - Z.of_nat N ≤ c ≤ Z.of_nat N) T →
   route_length T M = Ok (route_length_spec (wrap_id N <$> T) M)) ∧
  (Exists (fun c => c < 1 - Z.of_nat N ∨ Z.of_nat N < c) T →
   route_length T M = Raise IndexError) ∧
  route_length [] M = Raise IndexError.
Proof.
  intros HM Hne. rewrite route_length_edges.
  destruct (last T) as [z|] eqn:Hz; [|by apply last_None in Hz].
  destruct (head T) as [a|] eqn:Ha; [|by destruct T].
  split_and!; [| |done].
  - intros HT.
    assert (1 - Z.of_nat N ≤ z ≤ Z.of_nat N) as Hz'.
    { eapply (proj1 (Forall_forall _ _) HT), last_Some_elem_of, Hz. }
    assert (1 - Z.of_nat N ≤ a ≤ Z.of_nat N) as Ha'.
    { eapply (proj1 (Forall_forall _ _) HT), head_Some_elem_of, Ha. }
    rewrite (for_each_add_edge_values M
               (fun e => dist M (wrap_id N e.1) (wrap_id N e.2))).
    2:{ apply Forall_app. split.
        - eapply Forall_impl;
            [exact (path_Forall (fun c => 1 - Z.of_nat N ≤ c ≤ Z.of_nat N) T HT)|].
          intros e [H1 H2]. by apply (edge_wrap N).
        - apply Forall_singleton. by apply (edge_wrap N). }
    assert (head (wrap_id N <$> T) = Some (wrap_id N a)) as Hhead.
    { destruct T; [done|]. by injection Ha as ->. }
    unfold route_length_spec. rewrite fmap_last, Hz, Hhead.
    cbn [fmap option_fmap option_map].
    by rewrite fmap_app, foldl_app, path_fmap, <-list_fmap_compose.
  - intros Hex. apply Exists_exists in Hex as (c & Hc & Hout).
    destruct (for_each_add_edge_cases M (path T ++ [(z, a)]) zero)
      as [[Hall _]|[_ ->]]; [|done].
    exfalso. rewrite <-(closed_path_fst T z a Hz) in Hc.
    apply list_elem_of_fmap in Hc as (e & -> & He).
    pose proof (proj1 (Forall_forall _ _) Hall e He) as Hok. simpl in Hok.
    by rewrite (edge_out N M e HM Hout) in Hok.
Qed.

Lemma route_length_index_bounds_witness :
  route_length [0; 1; 2] table3 = Ok (route_length_spec [3; 1; 2] table3) ∧
  route_length [1; 4; 2] table3 = Raise IndexError.
Proof.
  split.
  - refine (proj1 (route_length_index_bounds 3 table3 [0; 1; 2]
                     table3_table _) _); [discriminate|].
    repeat constructor; lia.
  - refine (proj1 (proj2 (route_length_index_bounds 3 table3 [1; 4; 2]
                     table3_table _)) _); [discriminate|].
    apply Exists_cons_tl, Exists_cons_hd. lia.
Defined.

(** ** Rotating a tour *)

Section Rotation.
Context {D : Type} `{!Num D}.
Implicit Types (M : list (list D)) (T : list Z).

Lemma path_app l1 l2 z a :
  last l1 = Some z → head l2 = Some a →
  path (l1 ++ l2) = path l1 ++ (z, a) :: path l2.
Proof.
  intros Hz Ha. induction l1 as [|x l1 IH]; [done|]. destruct l1 as [|y l1].
  - injection Hz as ->. destruct l2 as [|b l2]; [done|]. by injection Ha as ->.
  - rewrite last_cons_cons in Hz.
    change (path ((x :: y :: l1) ++ l2)) with ((x, y) :: path ((y :: l1) ++ l2)).
    by rewrite IH.
Qed.

Lemma last_app_Some (l1 l2 : list Z) z : last l2 = Some z → last (l1 ++ l2) = Some z.
Proof. intros Hz. rewrite last_app, Hz. done. Qed.

Lemma head_app_Some (l1 l2 : list Z) a : head l1 = Some a → head (l1 ++ l2) = Some a.
Proof. by destruct l1. Qed.
End Rotation.

(** X4. A tour is a cycle: where lengths add up exactly (addition
    associative and commutative), [route_length] gives the same result
    on [l2 ++ l1] as on [l1 ++ l2], that is on every rotation of a list,
    for every table; if one raises [IndexError] so does the other. *)
Theorem route_length_rotate {D : Type} `{!Num D} (M : list (list D))
    (l1 l2 : list Z) :
  (∀ a b c : D, add a (add b c) = add (add a b) c) →
  (∀ a b : D, add a b = add b a) →
  route_length (l2 ++ l1) M = route_length (l1 ++ l2) M.
Proof.
  intros Hassoc Hcomm.
  destruct l1 as [|x1 l1']; [by rewrite app_nil_r|].
  destruct l2 as [|x2 l2']; [by rewrite app_nil_r|].
  set (l1 := x1 :: l1'). set (l2 := x2 :: l2').
  destruct (last l1) as [z1|] eqn:Hz1; [|by apply last_None in Hz1].
  destruct (last l2) as [z2|] eqn:Hz2; [|by apply last_None in Hz2].
  rewrite !route_length_edges.
  rewrite (last_app_Some l2 l1 z1 Hz1), (last_app_Some l1 l2 z2 Hz2).
  rewrite (head_app_Some l2 l1 x2 eq_refl), (head_app_Some l1 l2 x1 eq_refl).
  rewrite (path_app l2 l1 z2 x1 Hz2 eq_refl), (path_app l1 l2 z1 x2 Hz1 eq_refl).
  apply for_each_add_edge_perm; [done..|].
  generalize (path l1) (path l2). intros A B.
  rewrite <-!Permutation_middle, !app_nil_r.
  rewrite Permutation_swap. by rewrite (Permutation_app_comm A B).
Qed.

Lemma route_length_rotate_witness :
  route_length ([3; 4] ++ [1; 2])
    [[Fin 0; Fin 3; Fin 4; Fin 6]; [Fin 3; Fin 0; Fin 5; Fin 2];
     [Fin 4; Fin 5; Fin 0; Fin 7]; [Fin 6; Fin 2; Fin 7; Fin 0]]
  = route_length ([1; 2] ++ [3; 4])
    [[Fin 0; Fin 3; Fin 4; Fin 6]; [Fin 3; Fin 0; Fin 5; Fin 2];
     [Fin 4; Fin 5; Fin 0; Fin 7]; [Fin 6; Fin 2; Fin 7; Fin 0]].
Proof. apply route_length_rotate; [apply xZ_add_assoc|apply xZ_add_comm]. Defined.

(** ** The section of the coordinate file *)

Section SectionFacts.
Context {D : Type} `{!Num D}.
Context (py_int : string → option Z) (py_float : string → option D).

Lemma read_lines_header header lines m :
  Forall plain header →
  read_lines py_int py_float (header ++ lines) false m
  = read_lines py_int py_float lines false m.
Proof.
  induction 1 as [|line header [Hm He] _ IH]; [done|].
  cbn [app read_lines]. by rewrite Hm, He.
Qed.

Lemma read_lines_data data parsed lines m :
  Forall2 (fun line p => plain line ∧ read_city py_int py_float line = Ok p)
    data parsed →
  read_lines py_int py_float (data ++ lines) true m
  = read_lines py_int py_float lines true
      (foldl (fun m p => <[p.1:=p.2]> m) m parsed).
Proof.
  intros Hdata. revert m.
  induction Hdata as [|line [city_id xy] data parsed [[Hm He] Hcity] _ IH];
    intros m; [done|].
  cbn [app read_lines foldl]. rewrite Hm, He, Hcity, bind_Ok. apply IH.
Qed.

Lemma foldl_insert_list_to_map (parsed : list (Z * (D * D))) :
  foldl (fun m p => <[p.1:=p.2]> m) (∅ : gmap Z (D * D)) parsed
  = list_to_map (reverse parsed).
Proof.
  induction parsed as [|[city_id xy] parsed IH] using rev_ind; [done|].
  by rewrite foldl_snoc, reverse_snoc, list_to_map_cons, IH.
Qed.
End SectionFacts.

(** X5. [read_tsp] reads exactly the lines between the first line that
    starts with [NODE_COORD_SECTION] and the next line that starts with
    [EOF] (or the end of the file).  Lines before the section and after
    the [EOF] line are never parsed, whatever they hold.  The result maps
    every identifier of the section to the coordinates of the last line
    that gives it. *)
Theorem read_tsp_section {D : Type} `{!Num D}
    (py_int : string → option Z) (py_float : string → option D)
    (header data rest : list string) (marker_line eof_line : string)
    (parsed : list (Z * (D * D))) :
  Forall plain header →
  startswith marker_line "NODE_COORD_SECTION" = true →
  Forall2 (fun line p => plain line ∧ read_city py_int py_float line = Ok p)
    data parsed →
  startswith eof_line "NODE_COORD_SECTION" = false →
  startswith eof_line "EOF" = true →
  read_tsp py_int py_float (header ++ marker_line :: data ++ eof_line :: rest)
    = Ok (list_to_map (reverse parsed)) ∧
  read_tsp py_int py_float (header ++ marker_line :: data)
    = Ok (list_to_map (reverse parsed)) ∧
  (∀ city_id xy, (city_id, xy) ∈ parsed →
     city_id ∈ dom (list_to_map (reverse parsed) : gmap Z (D * D))).
Proof.
  intros Hheader Hmarker Hdata Hm He. unfold read_tsp.
  rewrite !read_lines_header by done. cbn [read_lines]. rewrite Hmarker.
  split_and!.
  - rewrite (read_lines_data py_int py_float data parsed) by done.
    cbn [read_lines]. by rewrite Hm, He, foldl_insert_list_to_map.
  - rewrite <-(app_nil_r data).
    rewrite (read_lines_data py_int py_float data parsed) by done.
    cbn [read_lines]. by rewrite foldl_insert_list_to_map.
  - intros city_id xy Hin. rewrite dom_list_to_map_L.
    apply elem_of_list_to_set, list_elem_of_fmap. exists (city_id, xy).
    split; [done|]. by apply elem_of_reverse.
Qed.

Lemma read_tsp_section_witness :
  read_tsp dec_int dec_float
    ([ln "NAME: three"; ln "oops"] ++ ln "NODE_COORD_SECTION"
       :: [ln "1 0.0 0.0"; ln "2 3.0 0.0"; ln "1 0.0 4.0"] ++ ln "EOF"
       :: [ln "not a city"])
  = Ok (list_to_map
          (reverse [(1, (0, 0)%float); (2, (3, 0)%float); (1, (0, 4)%float)])).
Proof.
  refine (proj1 (read_tsp_section dec_int dec_float
    [ln "NAME: three"; ln "oops"]
    [ln "1 0.0 0.0"; ln "2 3.0 0.0"; ln "1 0.0 4.0"] [ln "not a city"]
    (ln "NODE_COORD_SECTION") (ln "EOF")
    [(1, (0, 0)%float); (2, (3, 0)%float); (1, (0, 4)%float)] _ _ _ _ _)).
  - repeat constructor.
  - reflexivity.
  - repeat constructor; vm_compute; reflexivity.
  - reflexivity.
  - reflexivity.
Defined.

(** X6. A line that starts with [EOF] ends the reading also before the
    section has begun: if it comes before any [NODE_COORD_SECTION] line
    the result is the empty dictionary, whatever follows. *)
Theorem read_tsp_early_eof {D : Type} `{!Num D}
    (py_int : string → option Z) (py_float : string → option D)
    (header rest : list string) (eof_line : string) :
  Forall plain header →
  startswith eof_line "NODE_COORD_SECTION" = false →
  startswith eof_line "EOF" = true →
  read_tsp py_int py_float (header ++ eof_line :: rest) = Ok ∅.
Proof.
  intros Hheader Hm He. unfold read_tsp.
  rewrite read_lines_header by done. cbn [read_lines]. by rewrite Hm, He.
Qed.

Lemma read_tsp_early_eof_witness :
  read_tsp dec_int dec_float
    ([ln "NAME: x"] ++ ln "EOF"
       :: [ln "NODE_COORD_SECTION"; ln "1 0.0 0.0"; ln "EOF"])
  = Ok ∅.
Proof.
  apply (read_tsp_early_eof dec_int dec_float [ln "NAME: x"]
           [ln "NODE_COORD_SECTION"; ln "1 0.0 0.0"; ln "EOF"] (ln "EOF")).
  - repeat constructor.
  - reflexivity.
  - reflexivity.
Defined.

(** ** Local optima *)

Section Optimum.
Context {D : Type} `{!Num D}.
Context {G : Type} (shuffle : G → list Z → list Z * G).
Context (N : nat) (city_list : gmap Z (D * D)) (M : list (list D)).

Hypothesis shuffle_perm : ∀ g l, (shuffle g l).1 ≡ₚ l.
Hypothesis size_city_list : size city_list = N.
Hypothesis table_M : table N M.
Hypothesis two_cities : (2 ≤ N)%nat.
Hypothesis ltb_irrefl : ∀ a : D, ltb a a = false.
Hypothesis ltb_trans : ∀ a b c : D, ltb a b = true → ltb b c = true → ltb a c = true.
(** The length of a tour compares like a number: what is not below it
    is not below anything it is not below. *)
Hypothesis ltb_neg_trans :
  ∀ T, tour N T → ∀ a c : D,
    ltb a (route_length_spec T M) = false → ltb (route_length_spec T M) c = false →
    ltb a c = false.

Lemma neighbors_of_tour T : tour N T → Forall (tour N) (neighbors_of T).
Proof.
  intros HT. apply Forall_forall. intros nb (p & -> & Hp)%list_elem_of_fmap.
  apply swapped_tour; [done|]. by rewrite <-(tour_length N T).
Qed.

Lemma neighbors_of_nonempty T : tour N T → neighbors_of T ≠ [].
Proof.
  intros HT Hnil%fmap_nil_inv. rewrite (tour_length N T HT) in Hnil.
  assert ((0, 1)%nat ∈ position_pairs N) as Hin by (apply elem_of_position_pairs; lia).
  rewrite Hnil in Hin. by apply not_elem_of_nil in Hin.
Qed.

Lemma best_neighbor_of T :
  tour N T →
  ∃ bn, get_best_neighbor (neighbors_of T) M = Ok (bn, route_length_spec bn M) ∧
    tour N bn ∧
    ∀ nb, nb ∈ neighbors_of T →
      ltb (route_length_spec nb M) (route_length_spec bn M) = false.
Proof.
  intros HT.
  destruct (get_best_neighbor_min ltb_irrefl ltb_trans (neighbors_of T) M
              (fun T => route_length_spec T M) (neighbors_of_nonempty T HT))
    as (bn & Hrun & Hbn & Hmin).
  { eapply Forall_impl; [exact (neighbors_of_tour T HT)|]. intros nb Hnb. simpl.
    apply (route_length_tour N); [done|lia|done]. }
  exists bn. split_and!; [done| |done].
  by apply (proj1 (Forall_forall _ _) (neighbors_of_tour T HT)).
Qed.

Lemma climb_optimum fuel cur bn count :
  tour N cur → tour N bn →
  (∀ nb, nb ∈ neighbors_of cur →
     ltb (route_length_spec nb M) (route_length_spec bn M) = false) →
  (length (shorter N M (route_length_spec cur M)) < fuel)%nat →
  ∃ cur' count',
    Tsp.climb fuel M cur (route_length_spec cur M) bn (route_length_spec bn M) count
      = Ok (cur', route_length_spec cur' M, count') ∧
    tour N cur' ∧ local_optimum M cur'.
Proof.
  revert cur bn count.
  induction fuel as [|fuel IH]; intros cur bn count Hcur Hbn Hmin Hfuel; [lia|].
  cbn [Tsp.climb].
  destruct (ltb (route_length_spec bn M) (route_length_spec cur M)) eqn:Hlt.
  - cbv zeta. rewrite get_neighbors_swapped. fold (neighbors_of bn). rewrite bind_Ok.
    destruct (best_neighbor_of bn Hbn) as (bn' & -> & Hbn' & Hmin').
    rewrite bind_Ok. apply IH; [done..|].
    pose proof (shorter_decreases N M ltb_irrefl ltb_trans bn _ Hbn Hlt). lia.
  - exists cur, (count + 1). split_and!; [done..|].
    intros nb Hnb. apply (ltb_neg_trans bn Hbn); [by apply Hmin|done].
Qed.

Lemma tsp_iteration_optimum fuel restart_threshold (s : Tsp.state) :
  (length (permutations (Z.of_nat <$> seq 1 N)) < fuel)%nat →
  ∃ T count, tour N T ∧ local_optimum M T ∧
    Tsp.iteration shuffle fuel city_list M restart_threshold s
      = Ok (tsp_next shuffle N M s T count).
Proof.
  intros Hfuel. unfold Tsp.iteration, random_solution. rewrite size_city_list.
  pose proof (shuffle_perm (Tsp.gen s) (Z.of_nat <$> seq 1 N)) as Hc.
  destruct (shuffle (Tsp.gen s) (Z.of_nat <$> seq 1 N)) as [c g'] eqn:Hdraw.
  simpl in Hc. fold (tour N c) in Hc.
  rewrite (route_length_tour N M c table_M) by (done || lia).
  destruct (best_neighbor_of c Hc) as (bn & Hbest & Hbn & Hmin).
  assert (∀ count, ∃ T count',
    Tsp.climb fuel M c (route_length_spec c M) bn (route_length_spec bn M) count
      = Ok (T, route_length_spec T M, count') ∧ tour N T ∧ local_optimum M T)
    as Hclimb.
  { intros count. apply climb_optimum; [done..|].
    pose proof (shorter_bound N M (route_length_spec c M)). lia. }
  unfold tsp_next. rewrite Hdraw. cbn [snd].
  case_bool_decide; rewrite !bind_Ok, get_neighbors_swapped; fold (neighbors_of c);
    rewrite bind_Ok, Hbest, bind_Ok.
  - destruct (Hclimb 0) as (T & count' & -> & HT & Hopt). rewrite bind_Ok.
    exists T, count'. split_and!; [done..|].
    by destruct (ltb (route_length_spec T M) (Tsp.best_route_length s)).
  - destruct (Hclimb (Tsp.no_improvement_count s)) as (T & count' & -> & HT & Hopt).
    rewrite bind_Ok. exists T, count'. split_and!; [done..|].
    by destruct (ltb (route_length_spec T M) (Tsp.best_route_length s)).
Qed.

Lemma tsp_run fuel restart_threshold g (n : nat) :
  (length (permutations (Z.of_nat <$> seq 1 N)) < fuel)%nat →
  ∃ s, for_each (fun s _ => Tsp.iteration shuffle fuel city_list M restart_threshold s)
         (range 0 n) (Tsp.init g) = Ok s ∧
    tsp_best N M s ∧
    length (Tsp.best_route_lengths s) = n ∧
    Tsp.gen s = Nat.iter n (fun g => (shuffle g (Z.of_nat <$> seq 1 N)).2) g ∧
    ((∀ T, tour N T → ltb (route_length_spec T M) inf = true) →
     (1 ≤ n)%nat → is_Some (Tsp.best_solution s)).
Proof.
  intros Hfuel.
  destruct (for_each_invariant
    (fun (done : list nat) (s : Tsp.state) =>
       tsp_best N M s ∧
       length (Tsp.best_route_lengths s) = length done ∧
       Tsp.gen s = Nat.iter (length done)
                     (fun g => (shuffle g (Z.of_nat <$> seq 1 N)).2) g ∧
       ((∀ T, tour N T → ltb (route_length_spec T M) inf = true) →
        done ≠ [] → is_Some (Tsp.best_solution s)))
    (fun s _ => Tsp.iteration shuffle fuel city_list M restart_threshold s)
    (range 0 n) (Tsp.init g)) as (s & Hrun & Hbest & Hlen & Hgen & Hsome).
  - split_and!; [by left|done..].
  - intros l1 x l2 s _ (Hbest & Hlen & Hgen & Hsome).
    destruct (tsp_iteration_optimum fuel restart_threshold s Hfuel)
      as (T & count & HT & Hopt & ->).
    eexists. split; [done|]. unfold tsp_next. cbn [Tsp.best_solution
      Tsp.best_route_lengths Tsp.best_route_length Tsp.gen].
    split_and!.
    + destruct (ltb (route_length_spec T M) (Tsp.best_route_length s)) eqn:Hlt.
      * right. exists T. split_and!; [done..|].
        apply (route_length_tour N); [done|lia|done].
      * exact Hbest.
    + rewrite !length_app, Hlen. done.
    + rewrite length_app, Nat.add_comm. simpl. by rewrite Hgen.
    + intros Hfin _.
      destruct (ltb (route_length_spec T M) (Tsp.best_route_length s)) eqn:Hlt;
        [done|].
      destruct Hbest as [[_ Hinf]|(T' & -> & _)]; [|done].
      rewrite Hinf, Hfin in Hlt; done.
  - exists s.
    assert (length (range 0 n) = n) as Hr by (unfold range; rewrite length_seq; lia).
    rewrite Hr in Hlen, Hgen. split_and!; [done..|].
    intros Hfin Hn. apply Hsome; [done|]. intros Hnil. rewrite Hnil in Hr.
    simpl in Hr. lia.
Qed.
End Optimum.

(** X7. [hill_climbing] of [tsp.py] on at least two cities, where [<] on
    lengths is a strict weak order (no NaN among them).  Every iteration
    shuffles once and climbs to a tour that no swap makes strictly
    shorter, so after [k] iterations the generator has advanced exactly
    [k] times, and the recorded best solution, if there is one, is a
    tour, a local optimum of the swap neighbourhood, and of the returned
    length.  There is one as soon as [k ≥ 1] and every tour is strictly
    shorter than the initial infinity; otherwise the result can be
    [None] with length [inf]. *)
Theorem tsp_hill_climbing_local_optimum {D : Type} `{!Num D} {G : Type}
    (shuffle : G → list Z → list Z * G) (g : G) (N : nat)
    (city_list : gmap Z (D * D)) (M : list (list D))
    (k restart_threshold : Z) (fuel : nat) :
  (∀ g l, (shuffle g l).1 ≡ₚ l) →
  (∀ a : D, ltb a a = false) →
  (∀ a b c : D, ltb a b = true → ltb b c = true → ltb a c = true) →
  (∀ a b c : D, ltb a b = false → ltb b c = false → ltb a c = false) →
  size city_list = N → (2 ≤ N)%nat → table N M →
  (length (permutations (Z.of_nat <$> seq 1 N)) < fuel)%nat →
  ∃ best_solution best_route_length best_route_lengths,
    Tsp.hill_climbing shuffle fuel g city_list M k restart_threshold
      = Ok (best_solution, best_route_length, best_route_lengths,
            Nat.iter (Z.to_nat k) (fun g => (shuffle g (Z.of_nat <$> seq 1 N)).2) g) ∧
    (best_solution = None → best_route_length = inf) ∧
    (∀ T, best_solution = Some T →
       tour N T ∧ route_length T M = Ok best_route_length ∧
       ∃ neighbors, get_neighbors T = Ok neighbors ∧
         ∀ nb, nb ∈ neighbors →
           ∃ d, route_length nb M = Ok d ∧ ltb d best_route_length = false) ∧
    ((∀ T, tour N T → ltb (route_length_spec T M) inf = true) → 1 ≤ k →
     is_Some best_solution).
Proof.
  intros Hperm Hirr Htrans Hneg Hsize HN HM Hfuel. unfold Tsp.hill_climbing.
  destruct (tsp_run shuffle N city_list M Hperm Hsize HM HN Hirr Htrans
              (fun T _ a c => Hneg a (route_length_spec T M) c)
              fuel restart_threshold g (Z.to_nat k) Hfuel)
    as (s & -> & Hbest & _ & Hgen & Hsome).
  rewrite bind_Ok, Hgen.
  exists (Tsp.best_solution s), (Tsp.best_route_length s), (Tsp.best_route_lengths s).
  split_and!; [done| | |].
  - intros Hnone. destruct Hbest as [[_ ?]|(T & HT & _)]; [done|congruence].
  - intros T HT. destruct Hbest as [[? _]|(T' & HT' & Htour & Hopt & Hlen)];
      [congruence|].
    assert (T' = T) as -> by congruence.
    pose proof (route_length_tour N M T HM ltac:(lia) Htour) as Hspec.
    assert (Tsp.best_route_length s = route_length_spec T M) as Hbl by congruence.
    split_and!; [done..|].
    exists (neighbors_of T). split; [apply get_neighbors_swapped|].
    intros nb Hnb. exists (route_length_spec nb M). split.
    + apply (route_length_tour N); [done|lia|].
      pose proof (tour_length N T Htour) as HlenT.
      apply list_elem_of_fmap in Hnb as (p & -> & Hp).
      apply swapped_tour; [done|]. by rewrite <-HlenT.
    + rewrite Hbl. by apply Hopt.
  - intros Hfin Hk. apply Hsome; [done|lia].
Qed.

Lemma xZ_ltb_neg_trans (a b c : xZ) :
  ltb a b = false → ltb b c = false → ltb a c = false.
Proof.
  destruct a, b, c; simpl; try done.
  rewrite !bool_decide_eq_false. lia.
Qed.

Lemma table3_finite T : tour 3 T → ltb (route_length_spec T table3) inf = true.
Proof.
  intros HT. unfold tour in HT. symmetry in HT.
  apply permutations_Permutation in HT. vm_compute in HT.
  repeat (apply elem_of_cons in HT as [->|HT]; [reflexivity|]).
  by apply not_elem_of_nil in HT.
Qed.

Lemma tsp_hill_climbing_local_optimum_witness :
  ∃ T bl traj g,
    Tsp.hill_climbing reverse_shuffle 7 0%nat cities3 table3 2 1
      = Ok (Some T, bl, traj, g) ∧ tour 3 T ∧ route_length T table3 = Ok bl.
Proof.
  destruct (tsp_hill_climbing_local_optimum reverse_shuffle 0%nat 3 cities3 table3
              2 1 7 reverse_shuffle_perm xZ_ltb_irrefl xZ_ltb_trans xZ_ltb_neg_trans
              eq_refl ltac:(lia) table3_table ltac:(vm_compute; lia))
    as (bs & bl & traj & Hrun & _ & Hsol & Hsome).
  destruct (Hsome table3_finite ltac:(lia)) as [T ->].
  destruct (Hsol T eq_refl) as (Htour & Hlen & _).
  eexists T, bl, traj, _. split; [exact Hrun|]. split; [exact Htour|exact Hlen].
Defined.

(** ** The best solution of [tsp_hcs.py] and random search *)

Section HcsRun.
Context {D : Type} `{!Num D}.
Context {G : Type} (shuffle : G → list Z → list Z * G).
Context (N : nat) (city_list : gmap Z (D * D)) (M : list (list D)).

Hypothesis shuffle_perm : ∀ g l, (shuffle g l).1 ≡ₚ l.
Hypothesis size_city_list : size city_list = N.
Hypothesis table_M : table N M.

Lemma hcs_init_state g :
  (1 ≤ N)%nat →
  ∃ c g', tour N c ∧
    TspHcs.init shuffle g city_list M
    = Ok {| TspHcs.best_solution := None;
            TspHcs.best_route_length := inf;
            TspHcs.best_route_lengths := [];
            TspHcs.no_improvement_count := 0;
            TspHcs.current_solution := c;
            TspHcs.current_route_length := route_length_spec c M;
            TspHcs.gen := g' |}.
Proof.
  intros HN. unfold TspHcs.init.
  pose proof (random_solution_tour shuffle N city_list shuffle_perm
                size_city_list g) as Hct.
  destruct (random_solution shuffle g city_list) as [c g']. simpl in Hct.
  exists c, g'. split; [done|].
  by rewrite (route_length_tour N M c table_M HN Hct).
Qed.

Lemma hcs_run restart_threshold g (n : nat) :
  (2 ≤ N)%nat →
  ∃ s0 s, TspHcs.init shuffle g city_list M = Ok s0 ∧
    for_each (fun s _ => TspHcs.iteration shuffle city_list M restart_threshold s)
      (range 0 n) s0 = Ok s ∧
    hcs_best N M s ∧
    length (TspHcs.best_route_lengths s) = n ∧
    Forall (tour_length_or_inf N M) (TspHcs.best_route_lengths s) ∧
    ((∀ T, tour N T → ltb (route_length_spec T M) inf = true) →
     (1 ≤ n)%nat → is_Some (TspHcs.best_solution s)).
Proof.
  intros HN.
  destruct (hcs_init_state g) as (c0 & g0 & Hcur0 & Hinit); [lia|].
  destruct (for_each_invariant
    (fun (done : list nat) (s : TspHcs.state) =>
       tour N (TspHcs.current_solution s) ∧
       route_length (TspHcs.current_solution s) M
         = Ok (TspHcs.current_route_length s) ∧
       hcs_best N M s ∧
       length (TspHcs.best_route_lengths s) = length done ∧
       Forall (tour_length_or_inf N M) (TspHcs.best_route_lengths s) ∧
       ((∀ T, tour N T → ltb (route_length_spec T M) inf = true) →
        done ≠ [] → is_Some (TspHcs.best_solution s)))
    (fun s _ => TspHcs.iteration shuffle city_list M restart_threshold s)
    (range 0 n)
    {| TspHcs.best_solution := None;
       TspHcs.best_route_length := inf;
       TspHcs.best_route_lengths := [];
       TspHcs.no_improvement_count := 0;
       TspHcs.current_solution := c0;
       TspHcs.current_route_length := route_length_spec c0 M;
       TspHcs.gen := g0 |}) as (s & Hrun & _ & _ & Hbest & Hlen & Hall & Hsome).
  - simpl. split_and!.
    + done.
    + apply (route_length_tour N); [done|lia|done].
    + by left.
    + done.
    + constructor.
    + done.
  - intros l1 x l2 s _ (Hcur & Hlen & Hbest & Htraj & Hall & Hsome).
    destruct (hcs_iteration_run shuffle N city_list M shuffle_perm size_city_list
                table_M restart_threshold s HN Hcur)
      as (neighbors & bn & _ & _ & Hbn & ->).
    eexists. split; [done|].
    pose proof (route_length_tour N M bn table_M ltac:(lia) Hbn) as Hbnl.
    pose proof (random_solution_tour shuffle N city_list shuffle_perm
                  size_city_list (TspHcs.gen s)) as Hfresh.
    assert (route_length_spec (TspHcs.current_solution s) M
              = TspHcs.current_route_length s) as Hspec.
    { pose proof (route_length_tour N M _ table_M ltac:(lia) Hcur). congruence. }
    unfold hcs_next. cbn [TspHcs.best_solution TspHcs.best_route_lengths
      TspHcs.best_route_length TspHcs.current_solution TspHcs.current_route_length].
    set (improved := ltb (route_length_spec bn M) (TspHcs.current_route_length s)).
    set (cur := if improved then bn else TspHcs.current_solution s).
    set (len := if improved then route_length_spec bn M
                else TspHcs.current_route_length s).
    assert (tour N cur ∧ route_length cur M = Ok len) as [Htc Hlc].
    { unfold cur, len. by destruct improved. }
    assert (len = route_length_spec cur M) as Hlen'.
    { pose proof (route_length_tour N M cur table_M ltac:(lia) Htc). congruence. }
    split_and!.
    + case_bool_decide; [done|exact Htc].
    + case_bool_decide; [|exact Hlc]. apply (route_length_tour N); [done|lia|done].
    + destruct (ltb len (TspHcs.best_route_length s)) eqn:Hlt; [|exact Hbest].
      right. by exists cur.
    + rewrite !length_app, Htraj. done.
    + apply Forall_app. split; [done|]. apply Forall_singleton.
      destruct (ltb len (TspHcs.best_route_length s)) eqn:Hlt.
      * right. by exists cur.
      * destruct Hbest as [[_ ->]|(T & _ & HT & HlT)]; [by left|right; by exists T].
    + intros Hfin _.
      destruct (ltb len (TspHcs.best_route_length s)) eqn:Hlt; [done|].
      destruct Hbest as [[_ Hinf]|(T' & -> & _)]; [|done].
      rewrite Hinf, Hlen', Hfin in Hlt; done.
  - eexists _, s. split; [exact Hinit|].
    assert (length (range 0 n) = n) as Hr by (unfold range; rewrite length_seq; lia).
    rewrite Hr in Hlen. split_and!; [done..|].
    intros Hfin Hn. apply Hsome; [done|]. intros Hnil. rewrite Hnil in Hr.
    simpl in Hr. lia.
Qed.

Lemma random_search_run g (n : nat) :
  (1 ≤ N)%nat →
  ∃ best traj,
    for_each (fun '(best_route_length, best_route_lengths, g) (_ : nat) =>
        let '(current_solution, g) := random_solution shuffle g city_list in
        current_route_length ← route_length current_solution M;
        let best_route_length :=
          if ltb current_route_length best_route_length
          then current_route_length else best_route_length in
        Ok (best_route_length, best_route_lengths ++ [best_route_length], g))
      (range 0 n) (inf, [], g)
    = Ok (best, traj, Nat.iter n (fun g => (shuffle g (Z.of_nat <$> seq 1 N)).2) g) ∧
    length traj = n ∧ nonincreasing traj ∧ default inf (last traj) = best ∧
    Forall (tour_length_or_inf N M) traj.
Proof.
  intros HN.
  destruct (for_each_invariant
    (fun (done : list nat) '(best, traj, g') =>
       length traj = length done ∧ nonincreasing traj ∧
       default inf (last traj) = best ∧
       Forall (tour_length_or_inf N M) traj ∧
       tour_length_or_inf N M best ∧
       g' = Nat.iter (length done)
              (fun g => (shuffle g (Z.of_nat <$> seq 1 N)).2) g)
    (fun '(best_route_length, best_route_lengths, g) (_ : nat) =>
        let '(current_solution, g) := random_solution shuffle g city_list in
        current_route_length ← route_length current_solution M;
        let best_route_length :=
          if ltb current_route_length best_route_length
          then current_route_length else best_route_length in
        Ok (best_route_length, best_route_lengths ++ [best_route_length], g))
    (range 0 n) (inf, [], g))
    as ([[best traj] g'] & Hrun & Hlen & Hmono & Hlast & Hall & _ & Hgen).
  - split_and!; [done| |done|constructor|by left|done]. by intros i a b Ha.
  - intros l1 x l2 [[best traj] g0] _ (Hlen & Hmono & Hlast & Hall & Hb & Hgen).
    pose proof (random_solution_tour shuffle N city_list shuffle_perm
                  size_city_list g0) as Hct.
    unfold random_solution in *. rewrite size_city_list in *.
    destruct (shuffle g0 (Z.of_nat <$> seq 1 N)) as [c g1] eqn:Hdraw. simpl in Hct.
    pose proof (route_length_tour N M c table_M HN Hct) as Hlc.
    rewrite Hlc, bind_Ok. cbv zeta. eexists (_, _, _). split; [done|].
    assert (tour_length_or_inf N M
              (if ltb (route_length_spec c M) best
               then route_length_spec c M else best)) as Hb'.
    { destruct (ltb (route_length_spec c M) best); [right; by exists c|done]. }
    destruct (nonincreasing_snoc traj best
                (if ltb (route_length_spec c M) best
                 then route_length_spec c M else best) Hmono Hlast) as [Hm' Hl'].
    { destruct (ltb (route_length_spec c M) best) eqn:Hlt; auto. }
    split_and!; [|done..| | |].
    + rewrite !length_app, Hlen. done.
    + apply Forall_app. split; [done|]. by apply Forall_singleton.
    + done.
    + rewrite length_app, Nat.add_comm. simpl. by rewrite <-Hgen, Hdraw.
  - assert (length (range 0 n) = n) as Hr by (unfold range; rewrite length_seq; lia).
    rewrite Hr in Hlen, Hgen. subst g'. by exists best, traj.
Qed.
End HcsRun.

(** X8. [hill_climbing] of [tsp_hcs.py] on at least two cities returns,
    and what it returns is consistent: a recorded best solution is a
    tour whose length is the returned best length, no solution goes with
    the length [inf], and every entry of the trajectory is [inf] or the
    length of a tour.  A solution is recorded as soon as [k ≥ 1] and
    every tour is strictly shorter than the initial infinity. *)
Theorem hcs_hill_climbing_best {D : Type} `{!Num D} {G : Type}
    (shuffle : G → list Z → list Z * G) (g : G) (N : nat)
    (city_list : gmap Z (D * D)) (M : list (list D))
    (k restart_threshold : Z) :
  (∀ g l, (shuffle g l).1 ≡ₚ l) →
  size city_list = N → (2 ≤ N)%nat → table N M →
  ∃ best_solution best_route_length best_route_lengths g',
    TspHcs.hill_climbing shuffle g city_list M k restart_threshold
      = Ok (best_solution, best_route_length, best_route_lengths, g') ∧
    (best_solution = None → best_route_length = inf) ∧
    (∀ T, best_solution = Some T →
       tour N T ∧ route_length T M = Ok best_route_length) ∧
    Forall (tour_length_or_inf N M) best_route_lengths ∧
    ((∀ T, tour N T → ltb (route_length_spec T M) inf = true) → 1 ≤ k →
     is_Some best_solution).
Proof.
  intros Hperm Hsize HN HM. unfold TspHcs.hill_climbing.
  destruct (hcs_run shuffle N city_list M Hperm Hsize HM restart_threshold g
              (Z.to_nat k) HN) as (s0 & s & -> & Hrun & Hbest & _ & Hall & Hsome).
  rewrite bind_Ok, Hrun, bind_Ok.
  exists (TspHcs.best_solution s), (TspHcs.best_route_length s),
    (TspHcs.best_route_lengths s), (TspHcs.gen s).
  split_and!; [done| | |done|].
  - intros Hnone. destruct Hbest as [[_ ?]|(T & HT & _)]; [done|congruence].
  - intros T HT. destruct Hbest as [[? _]|(T' & HT' & Htour & Hlen)]; [congruence|].
    by assert (T' = T) as -> by congruence.
  - intros Hfin Hk. apply Hsome; [done|lia].
Qed.

Lemma hcs_hill_climbing_best_witness :
  ∃ T bl traj g,
    TspHcs.hill_climbing reverse_shuffle 0%nat cities3 table3 2 1
      = Ok (Some T, bl, traj, g) ∧ tour 3 T ∧ route_length T table3 = Ok bl.
Proof.
  destruct (hcs_hill_climbing_best reverse_shuffle 0%nat 3 cities3 table3 2 1
              reverse_shuffle_perm eq_refl ltac:(lia) table3_table)
    as (bs & bl & traj & g' & Hrun & _ & Hsol & _ & Hsome).
  destruct (Hsome table3_finite ltac:(lia)) as [T ->].
  destruct (Hsol T eq_refl) as (Htour & Hlen).
  exists T, bl, traj, g'. split; [exact Hrun|]. split; [exact Htour|exact Hlen].
Defined.

(** X9. [random_search] on at least one city (a single city is enough,
    no neighbours are needed) returns a trajectory of exactly [k]
    entries that never increases and ends with the returned best length;
    every entry is [inf] or the length of a tour; the generator is
    advanced exactly [k] times. *)
Theorem random_search_trajectory {D : Type} `{!Num D} {G : Type}
    (shuffle : G → list Z → list Z * G) (g : G) (N : nat)
    (city_list : gmap Z (D * D)) (M : list (list D)) (k : Z) :
  (∀ g l, (shuffle g l).1 ≡ₚ l) →
  size city_list = N → (1 ≤ N)%nat → table N M → 0 ≤ k →
  ∃ best_route_length best_route_lengths,
    random_search shuffle g city_list M k
      = Ok (best_route_length, best_route_lengths,
            Nat.iter (Z.to_nat k) (fun g => (shuffle g (Z.of_nat <$> seq 1 N)).2) g) ∧
    Z.of_nat (length best_route_lengths) = k ∧
    nonincreasing best_route_lengths ∧
    default inf (last best_route_lengths) = best_route_length ∧
    Forall (tour_length_or_inf N M) best_route_lengths.
Proof.
  intros Hperm Hsize HN HM Hk. unfold random_search.
  destruct (random_search_run shuffle N city_list M Hperm Hsize HM g (Z.to_nat k) HN)
    as (best & traj & Hrun & Hlen & Hmono & Hlast & Hall).
  exists best, traj. split_and!; [exact Hrun| |done..]. lia.
Qed.

Lemma random_search_trajectory_witness :
  ∃ best traj g,
    random_search (fun (g : unit) l => (l, g)) tt {[1 := (0, 0)%float]}
      [[0%float]] 3 = Ok (best, traj, g) ∧ length traj = 3%nat.
Proof.
  destruct (random_search_trajectory (fun (g : unit) l => (l, g)) tt 1
              {[1 := (0, 0)%float]} [[0%float]] 3)
    as (best & traj & Hrun & Hlen & _).
  - intros; reflexivity.
  - reflexivity.
  - lia.
  - split; [reflexivity|]. repeat constructor.
  - lia.
  - eexists best, traj, _. split; [exact Hrun|]. lia.
Defined.

(** ** The programs *)

Section Programs.
Context {D : Type} `{!Num D}.

Lemma sorted_keys_spec (city_list : gmap Z (D * D)) :
  sorted_keys city_list ≡ₚ elements (dom city_list) ∧
  length (sorted_keys city_list) = size city_list ∧
  StronglySorted Z.le (sorted_keys city_list).
Proof.
  unfold sorted_keys. split_and!.
  - apply merge_sort_Permutation.
  - rewrite merge_sort_Permutation. by rewrite <-size_dom.
  - apply StronglySorted_merge_sort; apply _.
Qed.

(** The list comprehension over the sorted keys never meets a missing
    key. *)
Lemma coords_list_ok (city_list : gmap Z (D * D)) :
  ∃ coords_list,
    for_each (fun coords city => c ← dict_get city_list city; Ok (coords ++ [c]))
      (sorted_keys city_list) [] = Ok coords_list ∧
    length coords_list = size city_list ∧
    ∀ i city, sorted_keys city_list !! i = Some city →
      coords_list !! i = city_list !! city.
Proof.
  destruct (sorted_keys_spec city_list) as (Hperm & Hlen & _).
  exists ((fun city => default (zero, zero) (city_list !! city))
            <$> sorted_keys city_list).
  assert (∀ city, city ∈ sorted_keys city_list → is_Some (city_list !! city)) as Hin.
  { intros city Hc. rewrite Hperm in Hc. apply elem_of_elements in Hc.
    by apply elem_of_dom. }
  split_and!.
  - rewrite (for_each_append (dict_get city_list)
               (fun city => default (zero, zero) (city_list !! city))); [done|].
    intros city [c Hc]%Hin. unfold dict_get. by rewrite Hc.
  - by rewrite length_fmap.
  - intros i city Hi. rewrite list_lookup_fmap, Hi. simpl.
    destruct (Hin city) as [c ->]; [by eapply list_elem_of_lookup_2|done].
Qed.

End Programs.

(** ** Order on binary64

    [<] on floats is irreflexive and transitive, NaN included; around a
    number that is not NaN it is also negatively transitive. *)

Ltac sf_cases :=
  repeat match goal with
  | |- context [Z.compare ?a ?b] => destruct (Z.compare_spec a b); subst
  | H : context [Z.compare ?a ?b] |- _ => destruct (Z.compare_spec a b); subst
  | |- context [Pos.compare_cont Eq ?a ?b] =>
      change (Pos.compare_cont Eq a b) with (Pos.compare a b);
      destruct (Pos.compare_spec a b); subst
  | H : context [Pos.compare_cont Eq ?a ?b] |- _ =>
      change (Pos.compare_cont Eq a b) with (Pos.compare a b) in H;
      destruct (Pos.compare_spec a b); subst
  end.

Lemma SFltb_irrefl x : SFltb x x = false.
Proof.
  unfold SFltb, SFcompare. destruct x as [[]|[]| |[] m e]; try reflexivity;
    rewrite Z.compare_refl; change (Pos.compare_cont Eq m m) with (Pos.compare m m);
    rewrite Pos.compare_refl; reflexivity.
Qed.

Lemma SFltb_trans x y z : SFltb x y = true → SFltb y z = true → SFltb x z = true.
Proof.
  unfold SFltb, SFcompare.
  destruct x as [[]|[]| |[] m1 e1], y as [[]|[]| |[] m2 e2], z as [[]|[]| |[] m3 e3];
    try reflexivity; try discriminate; intros H1 H2;
    sf_cases; simpl in *; try reflexivity; try discriminate; try lia.
Qed.

Lemma SFltb_neg_trans x y z :
  y ≠ S754_nan → SFltb x y = false → SFltb y z = false → SFltb x z = false.
Proof.
  unfold SFltb, SFcompare. intros Hy.
  destruct x as [[]|[]| |[] m1 e1], y as [[]|[]| |[] m2 e2], z as [[]|[]| |[] m3 e3];
    try reflexivity; try discriminate; try congruence; intros H1 H2;
    sf_cases; simpl in *; try reflexivity; try discriminate; try lia.
Qed.

Lemma float_ltb_irrefl (a : float) : ltb a a = false.
Proof. unfold ltb; simpl. rewrite FloatAxioms.ltb_spec. apply SFltb_irrefl. Qed.

Lemma float_ltb_trans (a b c : float) :
  ltb a b = true → ltb b c = true → ltb a c = true.
Proof. unfold ltb; simpl. rewrite !FloatAxioms.ltb_spec. apply SFltb_trans. Qed.

Lemma float_ltb_neg_trans (a b c : float) :
  PrimFloat.is_nan b = false →
  ltb a b = false → ltb b c = false → ltb a c = false.
Proof.
  intros Hb. unfold ltb; simpl. rewrite !FloatAxioms.ltb_spec. apply SFltb_neg_trans.
  intros Hn. unfold PrimFloat.is_nan in Hb. rewrite FloatAxioms.eqb_spec, Hn in Hb. discriminate.
Qed.

(** Every tour of the triangle has a length below [inf] that is a
    number. *)
Lemma triangle_tours T :
  tour 3 T →
  ltb (route_length_spec T triangle_table) inf = true ∧
  PrimFloat.is_nan (route_length_spec T triangle_table) = false.
Proof.
  intros HT. unfold tour in HT. symmetry in HT.
  apply permutations_Permutation in HT. vm_compute in HT.
  repeat (apply elem_of_cons in HT as [->|HT]; [split; vm_compute; reflexivity|]).
  by apply not_elem_of_nil in HT.
Qed.

Lemma triangle_read : read_tsp dec_int dec_float triangle_file = Ok triangle_cities.
Proof. vm_compute. reflexivity. Qed.

Lemma triangle_coords (coords : list (float * float)) :
  length coords = size triangle_cities →
  (∀ i city, sorted_keys triangle_cities !! i = Some city →
     coords !! i = triangle_cities !! city) →
  coords = [(0, 0); (3, 0); (0, 4)]%float.
Proof.
  intros Hlen Hkeys.
  pose proof (Hkeys 0%nat 10 eq_refl) as H0.
  pose proof (Hkeys 1%nat 20 eq_refl) as H1.
  pose proof (Hkeys 2%nat 30 eq_refl) as H2.
  destruct coords as [|c0 [|c1 [|c2 [|c3 coords]]]]; try discriminate.
  vm_compute in H0, H1, H2.
  apply (inj Some) in H0, H1, H2. by subst.
Qed.

Lemma triangle_distance_matrix :
  distance_matrix [(0, 0); (3, 0); (0, 4)]%float = Ok triangle_table.
Proof. vm_compute. reflexivity. Qed.

(** X10. A run of [tsp.py] on a file with at least two cities.  The
    coordinates are taken in ascending order of the identifiers and no
    key is missed.  If [distance_matrix] raises, so does the program.  If
    it returns a table, the table has one row per city, and where every
    tour has a length that is a number below [inf], the program reports
    a tour of the ranks [1..N] in that order (not of the identifiers of
    the file), which no swap makes strictly shorter; the printed length
    is the length of that tour, and the plot has the 1000 entries of the
    default iteration count. *)
Theorem main_report {D : Type} `{!Num D, !Metric D}
    (py_int : string → option Z) (py_float : string → option D) {G : Type}
    (shuffle : G → list Z → list Z * G) (fuel : nat) (argv : list string)
    (files : string → list string) (g : G) (tsp_file : string)
    (city_list : gmap Z (D * D)) :
  (∀ g l, (shuffle g l).1 ≡ₚ l) →
  (∀ a : D, ltb a a = false) →
  (∀ a b c : D, ltb a b = true → ltb b c = true → ltb a c = true) →
  length argv = 2%nat → argv !! 1%nat = Some tsp_file →
  read_tsp py_int py_float (files tsp_file) = Ok city_list →
  (2 ≤ size city_list)%nat →
  (length (permutations (Z.of_nat <$> seq 1 (size city_list))) < fuel)%nat →
  ∃ coords_list,
    length coords_list = size city_list ∧
    StronglySorted Z.le (sorted_keys city_list) ∧
    (∀ i city, sorted_keys city_list !! i = Some city →
       coords_list !! i = city_list !! city) ∧
    (∀ e, distance_matrix coords_list = Raise e →
       main py_int py_float shuffle fuel argv files g = Raise e) ∧
    (∀ M, distance_matrix coords_list = Ok M →
       table (size city_list) M ∧
       ((∀ T, tour (size city_list) T →
           ltb (route_length_spec T M) inf = true ∧
           ∀ a c : D, ltb a (route_length_spec T M) = false →
             ltb (route_length_spec T M) c = false → ltb a c = false) →
        ∃ best_route_length solution plot,
          main py_int py_float shuffle fuel argv files g
            = Ok (Report best_route_length solution plot) ∧
          tour (size city_list) solution ∧
          route_length solution M = Ok best_route_length ∧
          local_optimum M solution ∧
          Z.of_nat (length plot) = 1000)).
Proof.
  intros Hperm Hirr Htrans Hargv Hfile Hread HN Hfuel.
  destruct (coords_list_ok city_list) as (coords & Hcoords & Hlen & Hkeys).
  exists coords. split_and!; [done|apply sorted_keys_spec|done| |].
  - intros e He. unfold main.
    rewrite bool_decide_eq_false_2 by (intros Hne; by apply Hne).
    rewrite (py_at_lookup argv 1 tsp_file Hfile : py_get argv 1 = Ok tsp_file).
    by rewrite bind_Ok, Hread, bind_Ok, Hcoords, bind_Ok, He.
  - intros M HM.
    pose proof (distance_matrix_Ok_table coords M HM) as Htab. rewrite Hlen in Htab.
    split; [done|]. intros Hnum.
    destruct (tsp_run shuffle (size city_list) city_list M Hperm eq_refl Htab HN
                Hirr Htrans (fun T HT => proj2 (Hnum T HT)) fuel 10 g
                (Z.to_nat 1000) Hfuel)
      as (s & Hrun & Hbest & Htraj & _ & Hsome).
    destruct (Hsome (fun T HT => proj1 (Hnum T HT)) ltac:(lia)) as [T HT].
    destruct Hbest as [[Hnone _]|(T' & HT' & Htour & Hopt & HlenT)]; [congruence|].
    assert (T' = T) as -> by congruence.
    exists (Tsp.best_route_length s), T, (Tsp.best_route_lengths s).
    split_and!; [|done..|lia].
    unfold main. rewrite bool_decide_eq_false_2 by (intros Hne; by apply Hne).
    rewrite (py_at_lookup argv 1 tsp_file Hfile : py_get argv 1 = Ok tsp_file).
    rewrite bind_Ok, Hread, bind_Ok, Hcoords, bind_Ok, HM, bind_Ok.
    unfold Tsp.hill_climbing. rewrite Hrun, !bind_Ok, HT. done.
Qed.

Lemma main_report_witness :
  ∃ best_route_length solution plot,
    main dec_int dec_float reverse_shuffle 7 ["tsp.py"; "triangle.tsp"]%string
      (fun _ => triangle_file) 0%nat
      = Ok (Report best_route_length solution plot) ∧
    tour 3 solution ∧ route_length solution triangle_table = Ok best_route_length ∧
    local_optimum triangle_table solution.
Proof.
  destruct (main_report dec_int dec_float reverse_shuffle 7
              ["tsp.py"; "triangle.tsp"]%string (fun _ => triangle_file) 0%nat
              "triangle.tsp" triangle_cities reverse_shuffle_perm float_ltb_irrefl
              float_ltb_trans eq_refl eq_refl triangle_read
              ltac:(vm_compute; lia) ltac:(vm_compute; lia))
    as (coords & Hlen & _ & Hkeys & _ & Hmain).
  rewrite (triangle_coords coords Hlen Hkeys) in Hmain.
  destruct (Hmain triangle_table triangle_distance_matrix) as [_ Hreport].
  destruct Hreport as (bl & T & plot & Hrun & Htour & Hbl & Hopt & _).
  { intros T HT. destruct (triangle_tours T HT) as [Hfin Hnan].
    split; [exact Hfin|]. intros a c. by apply float_ltb_neg_trans. }
  exists bl, T, plot. split_and!; [exact Hrun|exact Htour|exact Hbl|exact Hopt].
Defined.

(** ** One city, and the program [tsp_hcs.py] *)

Lemma chained_snoc {G R : Type} (call : G → res (R * G)) g rs g1 r g2 :
  chained call g rs g1 → call g1 = Ok (r, g2) → chained call g (rs ++ [r]) g2.
Proof.
  induction 1 as [g|g r0 g0 rs g1 Hcall0 Hrest IH]; intros Hcall; simpl.
  - econstructor; [exact Hcall|constructor].
  - econstructor; [exact Hcall0|by apply IH].
Qed.

Section Runs.
Context {D : Type} `{!Num D}.
Context {G : Type} (shuffle : G → list Z → list Z * G).
Context (N : nat) (city_list : gmap Z (D * D)) (M : list (list D)).

Hypothesis shuffle_perm : ∀ g l, (shuffle g l).1 ≡ₚ l.
Hypothesis size_city_list : size city_list = N.
Hypothesis table_M : table N M.

Lemma single_city_draw g :
  N = 1%nat → ∃ g', random_solution shuffle g city_list = ([1], g').
Proof.
  intros HN. unfold random_solution. rewrite size_city_list, HN.
  change (Z.of_nat <$> seq 1 1) with [1].
  pose proof (shuffle_perm g [1]) as Hp. apply Permutation_singleton_r in Hp.
  destruct (shuffle g [1]) as [c g']. simpl in Hp. subst c. by exists g'.
Qed.

Lemma single_city_length :
  N = 1%nat → route_length [1] M = Ok (route_length_spec [1] M).
Proof.
  intros HN. apply (route_length_tour N); [done|lia|].
  rewrite HN. unfold tour. simpl. reflexivity.
Qed.

Lemma tsp_single_city_raise fuel g k restart_threshold :
  N = 1%nat → 1 ≤ k →
  Tsp.hill_climbing shuffle fuel g city_list M k restart_threshold
    = Raise IndexError.
Proof.
  intros HN Hk. unfold Tsp.hill_climbing. rewrite range_head by lia.
  cbn [for_each].
  assert (Tsp.iteration shuffle fuel city_list M restart_threshold (Tsp.init g)
          = Raise IndexError) as ->; [|done].
  unfold Tsp.iteration.
  destruct (single_city_draw (Tsp.gen (Tsp.init g)) HN) as [g' ->].
  rewrite (single_city_length HN). by case_bool_decide.
Qed.

Lemma hcs_single_city_raise g k restart_threshold :
  N = 1%nat → 1 ≤ k →
  TspHcs.hill_climbing shuffle g city_list M k restart_threshold
    = Raise IndexError.
Proof.
  intros HN Hk. unfold TspHcs.hill_climbing, TspHcs.init.
  destruct (single_city_draw g HN) as [g' ->].
  rewrite (single_city_length HN).
  rewrite !bind_Ok, range_head by lia. cbn [for_each].
  by unfold TspHcs.iteration.
Qed.

(** One call of [hill_climbing] of [tsp_hcs.py] that records a tour. *)
Lemma hcs_hill_climbing_run g k restart_threshold :
  (2 ≤ N)%nat → 1 ≤ k →
  (∀ T, tour N T → ltb (route_length_spec T M) inf = true) →
  ∃ T traj g',
    TspHcs.hill_climbing shuffle g city_list M k restart_threshold
      = Ok (Some T, route_length_spec T M, traj, g') ∧
    tour N T ∧ length traj = Z.to_nat k.
Proof.
  intros HN Hk Hfin. unfold TspHcs.hill_climbing.
  destruct (hcs_run shuffle N city_list M shuffle_perm size_city_list table_M
              restart_threshold g (Z.to_nat k) HN)
    as (s0 & s & -> & Hrun & Hbest & Hlen & _ & Hsome).
  rewrite bind_Ok, Hrun, bind_Ok.
  destruct (Hsome Hfin ltac:(lia)) as [T HT].
  destruct Hbest as [[? _]|(T' & HT' & Htour & HlT)]; [congruence|].
  assert (T' = T) as -> by congruence.
  pose proof (route_length_tour N M T table_M ltac:(lia) Htour) as Hspec.
  exists T, (TspHcs.best_route_lengths s), (TspHcs.gen s).
  split_and!; [|done..]. rewrite HT. do 3 f_equal. congruence.
Qed.

(** The runs of [hill_climbing] in [main]: the rows are the trajectories
    the calls returned, in order, and the recorded tour is the one a
    call returned, with its length. *)
Lemma climb_runs_chain (runs k : nat) g :
  (2 ≤ N)%nat → (1 ≤ k)%nat → (1 ≤ runs)%nat →
  (∀ T, tour N T → ltb (route_length_spec T M) inf = true) →
  ∃ climbs T traj g',
    chained (fun g => TspHcs.hill_climbing shuffle g city_list M (Z.of_nat k) 10)
      g climbs g' ∧
    length climbs = runs ∧
    Forall (fun r => length r.2 = k) climbs ∧
    TspHcsMain.climb_runs shuffle (Z.of_nat runs) (Z.of_nat k) city_list M g
      = Ok ((fun r => r.2) <$> climbs, Some T, route_length_spec T M, g') ∧
    tour N T ∧ (Some T, route_length_spec T M, traj) ∈ climbs ∧
    ((∀ a : D, ltb a a = false) →
     (∀ a b c : D, ltb a b = true → ltb b c = true → ltb a c = true) →
     ∀ r, r ∈ climbs → ltb r.1.2 (route_length_spec T M) = false).
Proof.
  intros HN Hk Hruns Hfin. unfold TspHcsMain.climb_runs. rewrite Nat2Z.id.
  set (call := fun g => TspHcs.hill_climbing shuffle g city_list M (Z.of_nat k) 10).
  destruct (for_each_invariant
    (fun (done : list nat) '(rows, bs, bl, g') =>
       ∃ climbs, chained call g climbs g' ∧
         length climbs = length done ∧
         Forall (fun r => length r.2 = k) climbs ∧
         rows = (fun r => r.2) <$> climbs ∧
         ((done = [] ∧ bs = None ∧ bl = inf) ∨
          (∃ T traj, bs = Some T ∧ tour N T ∧ bl = route_length_spec T M ∧
             (Some T, route_length_spec T M, traj) ∈ climbs)) ∧
         ((∀ a : D, ltb a a = false) →
          (∀ a b c : D, ltb a b = true → ltb b c = true → ltb a c = true) →
          ∀ r, r ∈ climbs → ltb r.1.2 bl = false))
    (fun '(hill_climb_lengths, best_solution, best_route_length, g) (_ : nat) =>
      '(solution, route_length, route_lengths, g) ←
        TspHcs.hill_climbing shuffle g city_list M (Z.of_nat k) 10;
      let hill_climb_lengths := hill_climb_lengths ++ [route_lengths] in
      if ltb route_length best_route_length
      then Ok (hill_climb_lengths, solution, route_length, g)
      else Ok (hill_climb_lengths, best_solution, best_route_length, g))
    (range 0 runs) ([], None, inf, g))
    as ([[[rows bs] bl] g'] & Hrun & climbs & Hchain & Hlen & Hrows & -> & Hbest & Hmin).
  - exists []. split_and!; [constructor|done|constructor|done|by left|].
    intros _ _ r Hr. by apply elem_of_nil in Hr.
  - intros l1 x l2 [[[rows bs] bl] g0] _
      (climbs & Hchain & Hlen & Hrows & -> & Hbest & Hmin).
    destruct (hcs_hill_climbing_run g0 (Z.of_nat k) 10 HN ltac:(lia) Hfin)
      as (T & traj & g1 & Hcall & HT & Htraj).
    rewrite Hcall, bind_Ok. cbv zeta. rewrite Nat2Z.id in Htraj.
    set (r := (Some T, route_length_spec T M, traj)).
    assert (chained call g (climbs ++ [r]) g1 ∧
            length (climbs ++ [r]) = length (l1 ++ [x]) ∧
            Forall (fun r => length r.2 = k) (climbs ++ [r]) ∧
            ((fun r => r.2) <$> climbs) ++ [traj] = (fun r => r.2) <$> (climbs ++ [r]))
      as (Hchain' & Hlen' & Hrows' & Heq').
    { split_and!.
      - by apply (chained_snoc call g climbs g0).
      - rewrite !length_app, Hlen. done.
      - apply Forall_app. split; [done|]. by apply Forall_singleton.
      - by rewrite fmap_app. }
    destruct (ltb (route_length_spec T M) bl) eqn:Hlt; eexists (_, _, _, _);
      (split; [done|]); exists (climbs ++ [r]); (split_and!; [done..| |]).
    + right. exists T, traj. split_and!; [done..|].
      apply elem_of_app. right. by apply list_elem_of_singleton.
    + intros Hirr Htr r' [Hr'|Hr'%list_elem_of_singleton]%elem_of_app.
      * apply (ltb_not_below Htr _ bl); [by apply Hmin|done].
      * subst r'. apply Hirr.
    + destruct Hbest as [(_ & _ & ->)|(T0 & traj0 & -> & HT0 & -> & Hin)].
      { by rewrite Hfin in Hlt. }
      right. exists T0, traj0. split_and!; [done..|]. apply elem_of_app. by left.
    + intros Hirr Htr r' [Hr'|Hr'%list_elem_of_singleton]%elem_of_app.
      * by apply Hmin.
      * subst r'. exact Hlt.
  - assert (length (range 0 runs) = runs) as Hr
      by (unfold range; rewrite length_seq; lia).
    destruct Hbest as [(Hnil & _)|(T & traj & -> & HT & -> & Hin)].
    { rewrite Hnil in Hr. simpl in Hr. lia. }
    exists climbs, T, traj, g'. rewrite Hr in Hlen. by split_and!.
Qed.

(** The runs of [random_search] in [main]. *)
Lemma search_runs_chain (runs k : nat) g :
  (1 ≤ N)%nat →
  ∃ searches g',
    chained (fun g => random_search shuffle g city_list M (Z.of_nat k)) g searches g' ∧
    length searches = runs ∧
    Forall (fun r => length r.2 = k) searches ∧
    TspHcsMain.search_runs shuffle (Z.of_nat runs) (Z.of_nat k) city_list M g
      = Ok ((fun r => r.2) <$> searches, g').
Proof.
  intros HN. unfold TspHcsMain.search_runs. rewrite Nat2Z.id.
  set (call := fun g => random_search shuffle g city_list M (Z.of_nat k)).
  destruct (for_each_invariant
    (fun (done : list nat) '(rows, g') =>
       ∃ searches, chained call g searches g' ∧
         length searches = length done ∧
         Forall (fun r => length r.2 = k) searches ∧
         rows = (fun r => r.2) <$> searches)
    (fun '(random_route_lengths, g) (_ : nat) =>
      '(_, best_route_lengths, g) ←
        random_search shuffle g city_list M (Z.of_nat k);
      Ok (random_route_lengths ++ [best_route_lengths], g))
    (range 0 runs) ([], g)) as ([rows g'] & Hrun & searches & Hchain & Hlen & Hrows & ->).
  - exists []. split_and!; [constructor|done|constructor|done].
  - intros l1 x l2 [rows g0] _ (searches & Hchain & Hlen & Hrows & ->).
    destruct (random_search_run shuffle N city_list M shuffle_perm size_city_list
                table_M g0 (Z.to_nat (Z.of_nat k)) HN)
      as (best & traj & Hrs & Htraj & _).
    assert (random_search shuffle g0 city_list M (Z.of_nat k)
            = Ok (best, traj,
                  Nat.iter (Z.to_nat (Z.of_nat k))
                    (fun g => (shuffle g (Z.of_nat <$> seq 1 N)).2) g0)) as Hrs'
      by exact Hrs.
    cbv beta iota. rewrite Hrs', bind_Ok. eexists (_, _). split; [done|].
    rewrite Nat2Z.id in Htraj.
    exists (searches ++ [(best, traj)]). split_and!.
    + by apply (chained_snoc call g searches g0).
    + rewrite !length_app, Hlen. done.
    + apply Forall_app. split; [done|]. by apply Forall_singleton.
    + by rewrite fmap_app.
  - assert (length (range 0 runs) = runs) as Hr
      by (unfold range; rewrite length_seq; lia).
    exists searches, g'. rewrite Hr in Hlen. by split_and!.
Qed.
End Runs.

(** X11. A file with exactly one city ends both programs in
    [IndexError]: the table is built (one row), the first call of
    [hill_climbing] finds no neighbour, and nothing is reported. *)
Theorem mains_single_city {D : Type} `{!Num D, !Metric D}
    (py_int : string → option Z) (py_float : string → option D) {G : Type}
    (shuffle : G → list Z → list Z * G) (np_mean : list (list D) → list D)
    (fuel : nat) (argv : list string) (files : string → list string) (g : G)
    (tsp_file : string) (city_list : gmap Z (D * D)) :
  (∀ g l, (shuffle g l).1 ≡ₚ l) →
  length argv = 2%nat → argv !! 1%nat = Some tsp_file →
  read_tsp py_int py_float (files tsp_file) = Ok city_list →
  size city_list = 1%nat →
  main py_int py_float shuffle fuel argv files g = Raise IndexError ∧
  TspHcsMain.main py_int py_float shuffle np_mean argv files g = Raise IndexError.
Proof.
  intros Hperm Hargv Hfile Hread Hsize.
  destruct (coords_list_ok city_list) as (coords & Hcoords & Hlen & _).
  destruct (distance_matrix_small coords) as (M & HM & Htab); [lia|].
  rewrite Hlen, Hsize in Htab.
  assert (py_get argv 1 = Ok tsp_file) as Harg
    by exact (py_at_lookup argv 1 tsp_file Hfile).
  split.
  - unfold main. rewrite bool_decide_eq_false_2 by (intros Hne; by apply Hne).
    rewrite Harg, bind_Ok, Hread, bind_Ok, Hcoords, bind_Ok, HM, bind_Ok.
    by rewrite (tsp_single_city_raise shuffle 1 city_list M Hperm Hsize Htab)
      by (done || lia).
  - unfold TspHcsMain.main.
    rewrite bool_decide_eq_false_2 by (intros Hne; by apply Hne).
    rewrite Harg, bind_Ok, Hread, bind_Ok, Hcoords, bind_Ok, HM, bind_Ok.
    cbv zeta. unfold TspHcsMain.climb_runs. rewrite range_head by lia.
    cbn [for_each].
    by rewrite (hcs_single_city_raise shuffle 1 city_list M Hperm Hsize Htab)
      by (done || lia).
Qed.

Lemma mains_single_city_witness :
  main dec_int dec_float reverse_shuffle 0 ["tsp.py"; "point.tsp"]%string
    (fun _ => point_file) 0%nat = Raise IndexError ∧
  TspHcsMain.main dec_int dec_float reverse_shuffle
    (fun rows => default [] (head rows))
    ["tsp_hcs.py"; "point.tsp"]%string (fun _ => point_file) 0%nat
    = Raise IndexError.
Proof.
  split.
  - refine (proj1 (mains_single_city dec_int dec_float reverse_shuffle
      (fun rows => default [] (head rows)) 0 ["tsp.py"; "point.tsp"]%string
      (fun _ => point_file) 0%nat "point.tsp" {[7 := (1, 1)%float]}
      reverse_shuffle_perm eq_refl eq_refl _ eq_refl)).
    vm_compute. reflexivity.
  - refine (proj2 (mains_single_city dec_int dec_float reverse_shuffle
      (fun rows => default [] (head rows)) 0 ["tsp_hcs.py"; "point.tsp"]%string
      (fun _ => point_file) 0%nat "point.tsp" {[7 := (1, 1)%float]}
      reverse_shuffle_perm eq_refl eq_refl _ eq_refl)).
    vm_compute. reflexivity.
Defined.

(** X12. A run of [tsp_hcs.py] on a file with at least two cities.  If
    [distance_matrix] raises, so does the program.  If it returns a table
    on which every tour is strictly shorter than [inf], the program makes
    10 calls of [hill_climbing] and then 10 calls of [random_search],
    each for 100 iterations and each on the generator state the call
    before it left.  The first plotted series is [np.mean] of the
    trajectories the 10 hill-climbing calls returned, in order, the
    second that of the 10 random-search calls.  The tour written to
    [solution.csv] and the printed length are the best solution and best
    length that one of the hill-climbing calls returned; the tour runs
    over the ranks [1..N] and has the printed length; and where [<] is
    irreflexive and transitive, no hill-climbing call returned a length
    strictly below the printed one. *)
Theorem hcs_main_report {D : Type} `{!Num D, !Metric D}
    (py_int : string → option Z) (py_float : string → option D) {G : Type}
    (shuffle : G → list Z → list Z * G) (np_mean : list (list D) → list D)
    (argv : list string) (files : string → list string) (g : G)
    (tsp_file : string) (city_list : gmap Z (D * D)) :
  (∀ g l, (shuffle g l).1 ≡ₚ l) →
  length argv = 2%nat → argv !! 1%nat = Some tsp_file →
  read_tsp py_int py_float (files tsp_file) = Ok city_list →
  (2 ≤ size city_list)%nat →
  ∃ coords_list,
    length coords_list = size city_list ∧
    (∀ i city, sorted_keys city_list !! i = Some city →
       coords_list !! i = city_list !! city) ∧
    (∀ e, distance_matrix coords_list = Raise e →
       TspHcsMain.main py_int py_float shuffle np_mean argv files g = Raise e) ∧
    (∀ M, distance_matrix coords_list = Ok M →
       (∀ T, tour (size city_list) T → ltb (route_length_spec T M) inf = true) →
       ∃ climbs searches g1 g2 best_route_length solution trajectory,
         chained (fun g => TspHcs.hill_climbing shuffle g city_list M 100 10)
           g climbs g1 ∧
         chained (fun g => random_search shuffle g city_list M 100)
           g1 searches g2 ∧
         length climbs = 10%nat ∧ length searches = 10%nat ∧
         TspHcsMain.main py_int py_float shuffle np_mean argv files g
           = Ok (TspHcsMain.Report best_route_length solution
                   (np_mean ((fun r => r.2) <$> climbs))
                   (np_mean ((fun r => r.2) <$> searches))) ∧
         (Some solution, best_route_length, trajectory) ∈ climbs ∧
         tour (size city_list) solution ∧
         route_length solution M = Ok best_route_length ∧
         Forall (fun r => length r.2 = 100%nat) climbs ∧
         Forall (fun r => length r.2 = 100%nat) searches ∧
         ((∀ a : D, ltb a a = false) →
          (∀ a b c : D, ltb a b = true → ltb b c = true → ltb a c = true) →
          ∀ r, r ∈ climbs → ltb r.1.2 best_route_length = false)).
Proof.
  intros Hperm Hargv Hfile Hread HN.
  destruct (coords_list_ok city_list) as (coords & Hcoords & Hlen & Hkeys).
  assert (py_get argv 1 = Ok tsp_file) as Harg
    by exact (py_at_lookup argv 1 tsp_file Hfile).
  exists coords. split_and!; [done..| |].
  - intros e He. unfold TspHcsMain.main.
    rewrite bool_decide_eq_false_2 by (intros Hne; by apply Hne).
    by rewrite Harg, bind_Ok, Hread, bind_Ok, Hcoords, bind_Ok, He.
  - intros M HM Hfin.
    pose proof (distance_matrix_Ok_table coords M HM) as Htab. rewrite Hlen in Htab.
    destruct (climb_runs_chain shuffle (size city_list) city_list M Hperm eq_refl Htab
                10 100 g HN ltac:(lia) ltac:(lia) Hfin)
      as (climbs & T & traj & g1 & Hchain1 & Hl1 & Hr1 & Hclimb & HT & Hin & Hmin).
    destruct (search_runs_chain shuffle (size city_list) city_list M Hperm eq_refl Htab
                10 100 g1 ltac:(lia))
      as (searches & g2 & Hchain2 & Hl2 & Hr2 & Hsearch).
    exists climbs, searches, g1, g2, (route_length_spec T M), T, traj.
    split_and!; [exact Hchain1|exact Hchain2|done|done| |done|done| |done|done|done].
    + unfold TspHcsMain.main.
      rewrite bool_decide_eq_false_2 by (intros Hne; by apply Hne).
      rewrite Harg, bind_Ok, Hread, bind_Ok, Hcoords, bind_Ok, HM, bind_Ok. cbv zeta.
      change 10 with (Z.of_nat 10). change 100 with (Z.of_nat 100).
      rewrite Hclimb, !bind_Ok, Hsearch. done.
    + apply (route_length_tour (size city_list)); (done || lia).
Qed.

Lemma hcs_main_report_witness :
  ∃ best_route_length solution
    (climbs : list (option (list Z) * float * list float))
    (searches : list (float * list float)),
    TspHcsMain.main dec_int dec_float reverse_shuffle
      (fun rows => default [] (head rows))
      ["tsp_hcs.py"; "triangle.tsp"]%string (fun _ => triangle_file) 0%nat
      = Ok (TspHcsMain.Report best_route_length solution
              (default [] (head ((fun r => r.2) <$> climbs)))
              (default [] (head ((fun r => r.2) <$> searches)))) ∧
    length climbs = 10%nat ∧ length searches = 10%nat ∧
    tour 3 solution ∧ route_length solution triangle_table = Ok best_route_length ∧
    ∀ r, r ∈ climbs → ltb r.1.2 best_route_length = false.
Proof.
  destruct (hcs_main_report dec_int dec_float reverse_shuffle
              (fun rows => default [] (head rows))
              ["tsp_hcs.py"; "triangle.tsp"]%string (fun _ => triangle_file) 0%nat
              "triangle.tsp" triangle_cities reverse_shuffle_perm eq_refl eq_refl
              triangle_read ltac:(vm_compute; lia))
    as (coords & Hlen & Hkeys & _ & Hmain).
  rewrite (triangle_coords coords Hlen Hkeys) in Hmain.
  destruct (Hmain triangle_table triangle_distance_matrix
              (fun T HT => proj1 (triangle_tours T HT)))
    as (climbs & searches & g1 & g2 & bl & T & traj & _ & _ & Hl1 & Hl2 & Hrun & _ &
        Htour & Hbl & _ & _ & Hmin).
  exists bl, T, climbs, searches.
  split_and!; [exact Hrun|exact Hl1|exact Hl2|exact Htour|exact Hbl|].
  exact (Hmin float_ltb_irrefl float_ltb_trans).
Defined.
